(** * GEC: generic elliptic curve library -- verification of the add-group,
      the Jacobian coordinate mixin and the Pollard lambda solver.

    The development follows the layering of the library:
    - [LimbSeq]: little-endian limb sequences ([gec/utils/sequence.hpp]);
    - [ModAddSub], [ModAddSubMixinCarryFree]: the add-group mixins
      ([gec/bigint/mixin/mod_add_sub.hpp]);
    - [Jacobain]: the Jacobian coordinate mixin ([gec/curve/mixin/jacobain.hpp]);
    - [PollardLambda]: the single threaded solver and the worker of the
      multithreaded one ([gec/dlp/pollard_lambda.hpp]);
    - [Worker]: the synchronisation of the workers (mutex, barriers, flag).
    Each layer is followed by an instance on which its theorems are run:
    the 160 bit field of the tests ([Field160], [AddGroupTests]), curves
    over the field of 7 elements ([Curve7], [Curve7Laws]), the cyclic group
    of order 1009 ([Cyclic1009], [Cyclic1009Runs]) and two racing workers
    ([TwoWorkers], [TwoWorkersStates]). *)

From Stdlib Require Import ZArith Lia Bool List Permutation Ring.
From stdpp Require Import base option list.

(** ** Limb sequences *)

Module LimbSeq.
Section Limbs.
Local Open Scope Z_scope.

(** [W] is [std::numeric_limits<LIMB_T>::digits]. *)
Variable W : Z.

Definition base : Z := 2 ^ W.

Definition limb_ok (x : Z) : Prop := 0 <= x < base.

(** A limb sequence is a list of limbs, index 0 the least significant. *)
Definition wf (a : list Z) : Prop := Forall limb_ok a.

Fixpoint eval (a : list Z) : Z :=
  match a with
  | [] => 0
  | x :: r => x + base * eval r
  end.

(** Modelled from the spec: [seq_add<N>(a, b, c)] of [utils/sequence.hpp],
    "ripple-carry addition; returns the carry out of the top limb". *)
Fixpoint add_with_carry (cin : bool) (b c : list Z) : list Z * bool :=
  match b, c with
  | x :: b', y :: c' =>
      let s := x + y + Z.b2z cin in
      let '(r, cout) := add_with_carry (base <=? s) b' c' in
      (s mod base :: r, cout)
  | _, _ => ([], cin)
  end.

Definition seq_add (b c : list Z) : list Z * bool := add_with_carry false b c.

(** Modelled from the spec: [seq_sub<N>(a, b, c)] of [utils/sequence.hpp],
    "ripple-borrow subtraction", returning the borrow out of the top limb. *)
Fixpoint sub_with_borrow (bin : bool) (b c : list Z) : list Z * bool :=
  match b, c with
  | x :: b', y :: c' =>
      let d := x - y - Z.b2z bin in
      let '(r, bout) := sub_with_borrow (d <? 0) b' c' in
      (d mod base :: r, bout)
  | _, _ => ([], bin)
  end.

Definition seq_sub (b c : list Z) : list Z * bool := sub_with_borrow false b c.

(** Modelled from the spec: [VtSeqCmp<N, T>::call(a, b)] of
    [utils/sequence.hpp], "lexicographic compare from the most significant
    limb down".  [CmpEnum::Lt/Eq/Gt] are [Lt], [Eq], [Gt] of [comparison]. *)
Fixpoint VtSeqCmp (a b : list Z) : comparison :=
  match a, b with
  | x :: a', y :: b' =>
      match VtSeqCmp a' b' with
      | Eq => x ?= y
      | r => r
      end
  | _, _ => Eq
  end.

(** One pass over the limbs shifting each by [k < W] bits, the bits shifted
    out of a limb entering the next one. *)
Fixpoint shl_bits (k : Z) (cin : Z) (a : list Z) : list Z :=
  match a with
  | [] => []
  | x :: r =>
      Z.lor (Z.shiftl x k mod base) cin :: shl_bits k (Z.shiftr x (W - k)) r
  end.

(** Modelled from the spec: [seq_shift_left<N, K>(a)] of
    [utils/sequence.hpp], a logical shift by [K] bits: [K / W] whole limbs
    and [K mod W] bits, the bits leaving the top limb being dropped. *)
Definition seq_shift_left (K : Z) (a : list Z) : list Z :=
  take (length a) (replicate (Z.to_nat (K / W)) 0 ++ shl_bits (K mod W) 0 a).

(** Modelled from the spec: [most_significant_bit()], the "1-based position
    of the highest set bit, or 0 for zero". *)
Definition most_significant_bit (a : list Z) : Z :=
  if eval a =? 0 then 0 else Z.log2 (eval a) + 1.

(** The limbs of a number, least significant first. *)
Fixpoint limbs_of (n : nat) (v : Z) : list Z :=
  match n with
  | O => []
  | S n' => v mod base :: limbs_of n' (v / base)
  end.

(** Modelled from the spec: [set_pow2(e)], "value becomes [2^e]". *)
Definition set_pow2 (a : list Z) (e : Z) : list Z :=
  limbs_of (length a) (2 ^ e).

Definition set_zero (a : list Z) : list Z := replicate (length a) 0.

Definition is_zero (a : list Z) : bool := forallb (Z.eqb 0) a.

(** *** Arithmetic facts about limbs *)

Hypothesis W_pos : 0 < W.

Lemma base_pos : 0 < base.
Proof. unfold base. apply Z.pow_pos_nonneg; lia. Qed.

Lemma base_ge_2 : 2 <= base.
Proof.
  unfold base. change 2 with (2 ^ 1) at 1.
  apply Z.pow_le_mono_r; lia.
Qed.

Lemma pow_base_pos (n : nat) : 0 < base ^ Z.of_nat n.
Proof. apply Z.pow_pos_nonneg; [apply base_pos | lia]. Qed.

Lemma pow_base_succ (n : nat) :
  base ^ Z.of_nat (S n) = base * base ^ Z.of_nat n.
Proof. rewrite Nat2Z.inj_succ, Z.pow_succ_r by lia. reflexivity. Qed.

Lemma wf_cons x a : wf (x :: a) <-> limb_ok x /\ wf a.
Proof. unfold wf. apply Forall_cons. Qed.

Lemma eval_range a : wf a -> 0 <= eval a < base ^ Z.of_nat (length a).
Proof.
  induction a as [|x a IH]; intros Hwf.
  - simpl. lia.
  - apply wf_cons in Hwf as [Hx Ha]. specialize (IH Ha).
    cbn [eval length]. rewrite pow_base_succ.
    unfold limb_ok in Hx. pose proof base_pos. nia.
Qed.

Lemma eval_inj a b :
  wf a -> wf b -> length a = length b -> eval a = eval b -> a = b.
Proof.
  revert b. induction a as [|x a IH]; intros [|y b] Ha Hb Hlen Heq;
    try discriminate; [reflexivity|].
  apply wf_cons in Ha as [Hx Ha]. apply wf_cons in Hb as [Hy Hb].
  cbn [eval] in Heq. injection Hlen as Hlen.
  unfold limb_ok in Hx, Hy. pose proof base_pos as Hb0.
  assert (Hxy : x = y).
  { assert (H1 : x mod base = y mod base).
    { replace x with (x + base * eval a - eval a * base) by lia.
      rewrite Heq. replace (y + base * eval b - eval a * base)
        with (y + (eval b - eval a) * base) by lia.
      rewrite Z.mod_add by lia. reflexivity. }
    rewrite !Z.mod_small in H1 by lia. exact H1. }
  subst y. f_equal. apply IH; try assumption. nia.
Qed.

Lemma mod_carry s :
  0 <= s < 2 * base -> s mod base = s - base * Z.b2z (base <=? s).
Proof.
  intros Hs. destruct (Z.leb_spec base s); cbn [Z.b2z].
  - replace s with ((s - base) + 1 * base) at 1 by lia.
    rewrite Z.mod_add by lia. rewrite Z.mod_small; lia.
  - rewrite Z.mod_small; lia.
Qed.

Lemma mod_borrow d :
  - base <= d < base -> d mod base = d + base * Z.b2z (d <? 0).
Proof.
  intros Hd. destruct (Z.ltb_spec d 0); cbn [Z.b2z].
  - replace d with ((d + base) + (-1) * base) at 1 by lia.
    rewrite Z.mod_add by lia. rewrite Z.mod_small; lia.
  - rewrite Z.mod_small; lia.
Qed.

Lemma add_with_carry_spec b : forall c cin,
  length b = length c -> wf b -> wf c ->
  length (add_with_carry cin b c).1 = length b /\
  wf (add_with_carry cin b c).1 /\
  eval (add_with_carry cin b c).1
    + Z.b2z (add_with_carry cin b c).2 * base ^ Z.of_nat (length b)
  = eval b + eval c + Z.b2z cin.
Proof.
  induction b as [|x b IH]; intros [|y c] cin Hlen Hb Hc; try discriminate.
  - cbn. repeat split; [constructor | lia].
  - apply wf_cons in Hb as [Hx Hb]. apply wf_cons in Hc as [Hy Hc].
    injection Hlen as Hlen. cbn [add_with_carry].
    set (s := x + y + Z.b2z cin).
    specialize (IH c (base <=? s) Hlen Hb Hc).
    destruct (add_with_carry (base <=? s) b c) as [r cout].
    cbn [fst snd] in *. destruct IH as (IHl & IHw & IHe).
    unfold limb_ok in Hx, Hy. pose proof base_pos as Hb0.
    assert (Hs : 0 <= s < 2 * base) by (subst s; destruct cin; cbn; lia).
    repeat split.
    + cbn. lia.
    + apply wf_cons. split; [|assumption].
      unfold limb_ok. apply Z.mod_pos_bound. lia.
    + cbn [eval length]. rewrite pow_base_succ, (mod_carry s Hs).
      subst s. nia.
Qed.

Lemma sub_with_borrow_spec b : forall c bin,
  length b = length c -> wf b -> wf c ->
  length (sub_with_borrow bin b c).1 = length b /\
  wf (sub_with_borrow bin b c).1 /\
  eval (sub_with_borrow bin b c).1
    - Z.b2z (sub_with_borrow bin b c).2 * base ^ Z.of_nat (length b)
  = eval b - eval c - Z.b2z bin.
Proof.
  induction b as [|x b IH]; intros [|y c] bin Hlen Hb Hc; try discriminate.
  - cbn. repeat split; [constructor | lia].
  - apply wf_cons in Hb as [Hx Hb]. apply wf_cons in Hc as [Hy Hc].
    injection Hlen as Hlen. cbn [sub_with_borrow].
    set (d := x - y - Z.b2z bin).
    specialize (IH c (d <? 0) Hlen Hb Hc).
    destruct (sub_with_borrow (d <? 0) b c) as [r bout].
    cbn [fst snd] in *. destruct IH as (IHl & IHw & IHe).
    unfold limb_ok in Hx, Hy. pose proof base_pos as Hb0.
    assert (Hd : - base <= d < base) by (subst d; destruct bin; cbn; lia).
    repeat split.
    + cbn. lia.
    + apply wf_cons. split; [|assumption].
      unfold limb_ok. apply Z.mod_pos_bound. lia.
    + cbn [eval length]. rewrite pow_base_succ, (mod_borrow d Hd).
      subst d. nia.
Qed.

Lemma VtSeqCmp_spec a : forall b,
  length a = length b -> wf a -> wf b -> VtSeqCmp a b = (eval a ?= eval b).
Proof.
  induction a as [|x a IH]; intros [|y b] Hlen Ha Hb; try discriminate.
  - reflexivity.
  - apply wf_cons in Ha as [Hx Ha]. apply wf_cons in Hb as [Hy Hb].
    injection Hlen as Hlen. cbn [VtSeqCmp eval].
    rewrite (IH b Hlen Ha Hb).
    unfold limb_ok in Hx, Hy. pose proof base_pos as Hb0.
    destruct (Z.compare_spec (eval a) (eval b)) as [He|He|He].
    + rewrite He. destruct (Z.compare_spec x y);
        symmetry; [apply Z.compare_eq_iff | apply Z.compare_lt_iff
                  | apply Z.compare_gt_iff]; lia.
    + symmetry. apply Z.compare_lt_iff. nia.
    + symmetry. apply Z.compare_gt_iff. nia.
Qed.

Lemma eval_app a b :
  eval (a ++ b) = eval a + base ^ Z.of_nat (length a) * eval b.
Proof.
  induction a as [|x a IH].
  - cbn [app eval length]. change (Z.of_nat 0) with 0. rewrite Z.pow_0_r. lia.
  - cbn [app eval length]. rewrite IH, pow_base_succ. ring.
Qed.

Lemma eval_replicate_0 n : eval (replicate n 0) = 0.
Proof. induction n as [|n IH]; cbn [replicate eval]; [|rewrite IH]; lia. Qed.

Lemma wf_replicate_0 n : wf (replicate n 0).
Proof.
  apply Forall_replicate. unfold limb_ok. pose proof base_pos. lia.
Qed.

Lemma eval_take n : forall a,
  wf a -> eval (take n a) = eval a mod base ^ Z.of_nat n.
Proof.
  induction n as [|n IH]; intros a Ha.
  - rewrite take_0. change (Z.of_nat 0) with 0.
    rewrite Z.pow_0_r, Z.mod_1_r. reflexivity.
  - destruct a as [|x a].
    + cbn. rewrite Z.mod_0_l; [reflexivity|]. pose proof (pow_base_pos (S n)). lia.
    + apply wf_cons in Ha as [Hx Ha]. cbn [take eval].
      rewrite (IH a Ha), pow_base_succ.
      unfold limb_ok in Hx. pose proof base_pos. pose proof (pow_base_pos n).
      rewrite Z.rem_mul_r by lia.
      replace (x + base * eval a) with (x + eval a * base) by ring.
      rewrite Z.mod_add, Z.div_add, (Z.mod_small x), (Z.div_small x) by lia.
      reflexivity.
Qed.

Lemma lor_disjoint t k cin :
  0 <= k -> 0 <= cin < 2 ^ k -> Z.lor (t * 2 ^ k) cin = t * 2 ^ k + cin.
Proof.
  intros Hk Hc.
  assert (Hland : Z.land (t * 2 ^ k) cin = 0).
  { apply Z.bits_inj'. intros n Hn.
    rewrite Z.land_spec, Z.bits_0.
    destruct (Z.lt_ge_cases n k) as [Hlt|Hge].
    - rewrite Z.mul_pow2_bits_low by lia. reflexivity.
    - rewrite <- (Z.mod_small cin (2 ^ k)) by lia.
      rewrite Z.mod_pow2_bits_high by lia. apply andb_false_r. }
  pose proof (Z.add_lor_land (t * 2 ^ k) cin). lia.
Qed.

Lemma shl_bits_spec k : 0 <= k < W -> forall a cin,
  wf a -> 0 <= cin < 2 ^ k ->
  length (shl_bits k cin a) = length a /\
  wf (shl_bits k cin a) /\
  eval (shl_bits k cin a)
    = (cin + 2 ^ k * eval a) mod base ^ Z.of_nat (length a).
Proof.
  intros Hk. induction a as [|x a IH]; intros cin Ha Hc.
  - cbn. rewrite Z.mod_1_r. repeat split. constructor.
  - apply wf_cons in Ha as [Hx Ha]. unfold limb_ok in Hx.
    assert (Hpk : 0 < 2 ^ k) by (apply Z.pow_pos_nonneg; lia).
    assert (Hpwk : 0 < 2 ^ (W - k)) by (apply Z.pow_pos_nonneg; lia).
    assert (Hbase : base = 2 ^ (W - k) * 2 ^ k).
    { unfold base. rewrite <- Z.pow_add_r by lia. f_equal. lia. }
    assert (Hlo : Z.shiftl x k mod base = (x mod 2 ^ (W - k)) * 2 ^ k).
    { rewrite Z.shiftl_mul_pow2 by lia. rewrite Hbase.
      rewrite Z.mul_mod_distr_r by lia. reflexivity. }
    assert (Hhi : Z.shiftr x (W - k) = x / 2 ^ (W - k)).
    { apply Z.shiftr_div_pow2. lia. }
    assert (Hhi_range : 0 <= x / 2 ^ (W - k) < 2 ^ k).
    { split; [apply Z.div_pos; lia|].
      apply Z.div_lt_upper_bound; [lia|]. rewrite <- Hbase. lia. }
    pose proof (Z.mod_pos_bound x (2 ^ (W - k)) Hpwk) as Hm.
    pose proof (Z.div_mod x (2 ^ (W - k)) ltac:(lia)) as Hdm.
    cbn [shl_bits]. rewrite Hlo, Hhi, lor_disjoint by lia.
    destruct (IH (x / 2 ^ (W - k)) Ha Hhi_range) as (IHl & IHw & IHe).
    set (l0 := x mod 2 ^ (W - k) * 2 ^ k + cin).
    assert (Hl0 : 0 <= l0 < base) by (subst l0; nia).
    repeat split.
    + cbn. lia.
    + apply wf_cons. split; assumption.
    + cbn [eval length]. rewrite IHe, pow_base_succ.
      pose proof base_pos. pose proof (pow_base_pos (length a)).
      rewrite (Z.rem_mul_r _ base) by lia.
      replace (cin + 2 ^ k * (x + base * eval a))
        with (l0 + (x / 2 ^ (W - k) + 2 ^ k * eval a) * base)
        by (subst l0; rewrite Hbase; nia).
      rewrite Z.mod_add, Z.div_add, (Z.mod_small l0), (Z.div_small l0) by lia.
      reflexivity.
Qed.

Lemma seq_shift_left_spec K a :
  0 <= K -> wf a ->
  length (seq_shift_left K a) = length a /\
  wf (seq_shift_left K a) /\
  eval (seq_shift_left K a) = (eval a * 2 ^ K) mod base ^ Z.of_nat (length a).
Proof.
  intros HK Ha. unfold seq_shift_left.
  pose proof (Z.mod_pos_bound K W W_pos) as Hk.
  assert (Hq : 0 <= K / W) by (apply Z.div_pos; lia).
  destruct (shl_bits_spec (K mod W) Hk a 0 Ha) as (Hl & Hw & He).
  { split; [lia | apply Z.pow_pos_nonneg; lia]. }
  assert (Hwf : wf (replicate (Z.to_nat (K / W)) 0 ++ shl_bits (K mod W) 0 a)).
  { apply Forall_app. split; [apply wf_replicate_0 | exact Hw]. }
  repeat split.
  - rewrite length_take, length_app, length_replicate. lia.
  - apply Forall_take. exact Hwf.
  - rewrite eval_take by exact Hwf.
    rewrite eval_app, eval_replicate_0, length_replicate, He, Z2Nat.id by lia.
    rewrite Z.add_0_l, Z.add_0_l.
    pose proof (pow_base_pos (length a)).
    rewrite Z.mul_mod_idemp_r by lia. f_equal.
    rewrite (Z.div_mod K W) at 3 by lia.
    rewrite Z.pow_add_r by lia.
    unfold base. rewrite <- Z.pow_mul_r by lia. ring.
Qed.

(** The top bit of the top limb is set exactly when the value reaches
    half of the range. *)
Lemma land_mask_spec x :
  0 <= x < base ->
  negb (Z.land x (Z.shiftl 1 (W - 1)) =? 0) = (2 ^ (W - 1) <=? x).
Proof.
  intros Hx. rewrite Z.shiftl_1_l.
  assert (Hb : base = 2 * 2 ^ (W - 1)).
  { unfold base. rewrite <- Z.pow_succ_r by lia. f_equal. lia. }
  assert (Hp : 0 < 2 ^ (W - 1)) by (apply Z.pow_pos_nonneg; lia).
  assert (Hland : Z.land x (2 ^ (W - 1))
                  = if Z.testbit x (W - 1) then 2 ^ (W - 1) else 0).
  { apply Z.bits_inj'. intros n Hn. rewrite Z.land_spec.
    rewrite Z.pow2_bits_eqb by lia.
    destruct (Z.eqb_spec (W - 1) n) as [<-|Hne].
    - destruct (Z.testbit x (W - 1)); cbn.
      + rewrite Z.pow2_bits_true by lia. reflexivity.
      + rewrite Z.bits_0. reflexivity.
    - rewrite andb_false_r. destruct (Z.testbit x (W - 1)).
      + rewrite Z.pow2_bits_false by lia. reflexivity.
      + rewrite Z.bits_0. reflexivity. }
  rewrite Hland.
  assert (Hbit : Z.testbit x (W - 1) = (2 ^ (W - 1) <=? x)).
  { pose proof (Z.testbit_spec' x (W - 1) ltac:(lia)) as Hs.
    destruct (Z.leb_spec (2 ^ (W - 1)) x) as [Hle|Hlt].
    - replace (x / 2 ^ (W - 1)) with 1 in Hs.
      + destruct (Z.testbit x (W - 1)); [reflexivity | discriminate Hs].
      + apply Z.div_unique with (r := x - 2 ^ (W - 1)); lia.
    - rewrite Z.div_small in Hs by lia.
      destruct (Z.testbit x (W - 1)); [discriminate Hs | reflexivity]. }
  rewrite Hbit. destruct (2 ^ (W - 1) <=? x); cbn.
  - destruct (Z.eqb_spec (2 ^ (W - 1)) 0); [lia | reflexivity].
  - reflexivity.
Qed.

Lemma top_limb_spec a :
  wf a -> a <> [] ->
  (2 ^ (W - 1) <=? nth (length a - 1) a 0)
  = (2 ^ (W * Z.of_nat (length a) - 1) <=? eval a).
Proof.
  induction a as [|x a IH]; intros Ha Hne; [congruence|].
  apply wf_cons in Ha as [Hx Ha]. unfold limb_ok in Hx.
  assert (Hb : base = 2 * 2 ^ (W - 1)).
  { unfold base. rewrite <- Z.pow_succ_r by lia. f_equal. lia. }
  assert (Hp : 0 < 2 ^ (W - 1)) by (apply Z.pow_pos_nonneg; lia).
  destruct a as [|y a].
  - cbn [length nth eval Nat.sub]. f_equal; [|lia]. f_equal. lia.
  - specialize (IH Ha ltac:(discriminate)).
    replace (nth (length (x :: y :: a) - 1) (x :: y :: a) 0)
      with (nth (length (y :: a) - 1) (y :: a) 0)
      by (cbn [length Nat.sub nth]; rewrite Nat.sub_0_r; reflexivity).
    rewrite IH. cbn [eval]. set (e := y + base * eval a).
    replace (W * Z.of_nat (length (x :: y :: a)) - 1)
      with (W + (W * Z.of_nat (length (y :: a)) - 1))
      by (cbn [length]; lia).
    set (n := W * Z.of_nat (length (y :: a)) - 1).
    assert (Hn : 0 <= n) by (subst n; cbn [length]; nia).
    rewrite Z.pow_add_r by lia. fold base.
    pose proof (Z.pow_pos_nonneg 2 n ltac:(lia) Hn) as Hpn.
    pose proof base_pos.
    destruct (Z.leb_spec (2 ^ n) e); symmetry;
      [apply Z.leb_le | apply Z.leb_gt]; nia.
Qed.

Lemma eval_limbs_of n : forall v,
  length (limbs_of n v) = n /\ wf (limbs_of n v) /\
  eval (limbs_of n v) = v mod base ^ Z.of_nat n.
Proof.
  pose proof base_pos as Hb.
  induction n as [|n IH]; intros v.
  - cbn. rewrite Z.mod_1_r. repeat split. constructor.
  - destruct (IH (v / base)) as (IHl & IHw & IHe).
    cbn [limbs_of eval length]. repeat split.
    + lia.
    + apply wf_cons. split; [|exact IHw]. apply Z.mod_pos_bound. lia.
    + rewrite IHe, pow_base_succ. pose proof (pow_base_pos n).
      rewrite Z.rem_mul_r by lia. reflexivity.
Qed.

Lemma is_zero_spec a : wf a -> is_zero a = (eval a =? 0).
Proof.
  induction a as [|x a IH]; intros Ha; [reflexivity|].
  apply wf_cons in Ha as [Hx Ha]. unfold limb_ok in Hx.
  cbn [is_zero forallb eval]. fold (is_zero a). rewrite (IH Ha).
  pose proof (eval_range a Ha) as Hr. pose proof base_pos.
  destruct (Z.eqb_spec 0 x), (Z.eqb_spec (eval a) 0); cbn;
    symmetry; try (apply Z.eqb_eq; nia); apply Z.eqb_neq; nia.
Qed.

End Limbs.
End LimbSeq.

(** The limb sequence tests of the repository ([bigint add], [bigint sub],
    [bigint shift]), on 32 bit limbs: they pin down the primitives that the
    add-group is built on. *)
Module BigIntTests.
Local Open Scope Z_scope.

(** [Field160(a4, a3, a2, a1, a0)]: the constructor spells the limbs most
    significant first, the array stores them least significant first. *)
Definition Field160 (a4 a3 a2 a1 a0 : Z) : list Z := [a0; a1; a2; a3; a4].

Example test_bigint_add_no_carry :
  LimbSeq.seq_add 32 (Field160 0 0 0 0 0xa2000000) (Field160 0 0 0 0 0x5f000000)
  = (Field160 0 0 0 0x1 0x01000000, false).
Proof. vm_compute. reflexivity. Qed.

Example test_bigint_add_carry :
  LimbSeq.seq_add 32 (Field160 0xa2000000 0x5f000000 0 0 0)
                     (Field160 0x5f000000 0xa2000000 0 0 0)
  = (Field160 0x01000001 0x01000000 0 0 0, true).
Proof. vm_compute. reflexivity. Qed.

Example test_bigint_sub_no_borrow :
  LimbSeq.seq_sub 32 (Field160 0x10000000 0 0 0 0) (Field160 0 0 0 0 0x1)
  = (Field160 0x0fffffff 0xffffffff 0xffffffff 0xffffffff 0xffffffff, false).
Proof. vm_compute. reflexivity. Qed.

Example test_bigint_sub_borrow :
  LimbSeq.seq_sub 32
    (Field160 0x01a8b80c 0x425b5530 0xc29ce6b1 0xebc4a008 0x107bb597)
    (Field160 0x54e006b4 0x731480ed 0x56e01a41 0x2aa50851 0x852f86a2)
  = (Field160 0xacc8b157 0xcf46d443 0x6bbccc70 0xc11f97b6 0x8b4c2ef5, true).
Proof. vm_compute. reflexivity. Qed.

Example test_bigint_shift_left_3 :
  LimbSeq.seq_shift_left 32 3
    (Field160 0xf005000f 0xf004000f 0xf003000f 0xf002000f 0xf001000f)
  = Field160 0x8028007f 0x8020007f 0x8018007f 0x8010007f 0x80080078.
Proof. vm_compute. reflexivity. Qed.

Example test_bigint_shift_left_32 :
  LimbSeq.seq_shift_left 32 32
    (Field160 0x8028007f 0x8020007f 0x8018007f 0x8010007f 0x80080078)
  = Field160 0x8020007f 0x8018007f 0x8010007f 0x80080078 0.
Proof. vm_compute. reflexivity. Qed.

Example test_bigint_shift_left_33 :
  LimbSeq.seq_shift_left 32 33
    (Field160 0x8020007f 0x8018007f 0x8010007f 0x80080078 0)
  = Field160 0x003000ff 0x002000ff 0x001000f0 0 0.
Proof. vm_compute. reflexivity. Qed.

Example test_bigint_shift_left_66 :
  LimbSeq.seq_shift_left 32 66 (Field160 0x003000ff 0x002000ff 0x001000f0 0 0)
  = Field160 0x004003c0 0 0 0 0.
Proof. vm_compute. reflexivity. Qed.

Example test_bigint_shift_left_160 :
  LimbSeq.is_zero
    (LimbSeq.seq_shift_left 32 (32 * 5) (Field160 0x004003c0 0 0 0 0)) = true.
Proof. vm_compute. reflexivity. Qed.

End BigIntTests.

(** ** The add-group mixin [ModAddSub<Core, LIMB_T, LIMB_N, MOD>] *)

Module ModAddSub.
Section Mixin.
Local Open Scope Z_scope.

Variable W : Z.
(** The template argument [MOD], an array of [LIMB_N] limbs. *)
Variable MOD : list Z.

Definition LIMB_N : nat := length MOD.

(** [cmp != utils::CmpEnum::Lt] *)
Definition not_Lt (c : comparison) : bool :=
  match c with
  | Lt => false
  | _ => true
  end.

(** [add(a, b, c)]: [a = b + c (mod MOD)]. *)
Definition add (b c : list Z) : list Z :=
  let '(a, carry) := LimbSeq.seq_add W b c in
  if carry || not_Lt (LimbSeq.VtSeqCmp a MOD)
  then (LimbSeq.seq_sub W a MOD).1
  else a.

(** [add(a, b)]: [a = a + b (mod MOD)]. *)
Definition add_inplace (a b : list Z) : list Z :=
  let '(a, carry) := LimbSeq.seq_add W a b in
  if carry || not_Lt (LimbSeq.VtSeqCmp a MOD)
  then (LimbSeq.seq_sub W a MOD).1
  else a.

(** [neg(a, b)]: [a = - b (mod MOD)]. *)
Definition neg (b : list Z) : list Z :=
  if LimbSeq.is_zero b
  then LimbSeq.set_zero MOD
  else (LimbSeq.seq_sub W MOD b).1.

(** [sub(a, b, c)]: [a = b - c (mod MOD)]. *)
Definition sub (b c : list Z) : list Z :=
  let '(a, borrow) := LimbSeq.seq_sub W b c in
  if borrow then (LimbSeq.seq_add W a MOD).1 else a.

(** [sub(a, b)]: [a = a - b (mod MOD)]. *)
Definition sub_inplace (a b : list Z) : list Z :=
  let '(a, borrow) := LimbSeq.seq_sub W a b in
  if borrow then (LimbSeq.seq_add W a MOD).1 else a.

(** [MulPow2Helper<Core, K, LIMB_T, LIMB_N, MOD>::call(a)]: the
    specialisation for [K = 0] does nothing, the general template doubles
    once and recurses on [K - 1]. *)
Fixpoint MulPow2Helper (K : nat) (a : list Z) : list Z :=
  match K with
  | O => a
  | S K' =>
      let Idx := (LIMB_N - 1)%nat in
      let Mask := Z.shiftl 1 (W - 1) in
      let carry := negb (Z.land (nth Idx a 0) Mask =? 0) in
      let a := LimbSeq.seq_shift_left W 1 a in
      let a :=
        if carry || not_Lt (LimbSeq.VtSeqCmp a MOD)
        then (LimbSeq.seq_sub W a MOD).1
        else a in
      MulPow2Helper K' a
  end.

(** [mul_pow2<K>(a)]: [a = a * 2^K (mod MOD)]. *)
Definition mul_pow2 (K : nat) (a : list Z) : list Z := MulPow2Helper K a.

(** [add_self(a)]: [a = 2 * a (mod MOD)]. *)
Definition add_self (a : list Z) : list Z := MulPow2Helper 1 a.

(** The modulus as a number, and the elements of the group: the limb
    sequences of [LIMB_N] limbs whose value is below the modulus. *)
Definition M : Z := LimbSeq.eval W MOD.

Definition valid (a : list Z) : Prop :=
  LimbSeq.wf W a /\ length a = LIMB_N /\ LimbSeq.eval W a < M.

Definition zero : list Z := LimbSeq.set_zero MOD.

Hypothesis W_pos : 0 < W.
Hypothesis MOD_wf : LimbSeq.wf W MOD.

Lemma M_range : 0 <= M < LimbSeq.base W ^ Z.of_nat LIMB_N.
Proof. apply LimbSeq.eval_range; assumption. Qed.

Lemma valid_range a : valid a -> 0 <= LimbSeq.eval W a < M.
Proof.
  intros (Hw & Hl & Hlt). split; [|exact Hlt].
  apply (LimbSeq.eval_range W W_pos a Hw).
Qed.

Lemma valid_inj a b :
  valid a -> valid b -> LimbSeq.eval W a = LimbSeq.eval W b -> a = b.
Proof.
  intros (Hwa & Hla & _) (Hwb & Hlb & _) He.
  apply (LimbSeq.eval_inj W W_pos); try assumption. congruence.
Qed.

Lemma valid_zero : 0 < M -> valid zero /\ LimbSeq.eval W zero = 0.
Proof.
  intros HM. unfold zero, LimbSeq.set_zero.
  pose proof (LimbSeq.eval_replicate_0 W (length MOD)) as He.
  repeat split.
  - apply LimbSeq.wf_replicate_0. exact W_pos.
  - apply length_replicate.
  - rewrite He. exact HM.
  - exact He.
Qed.

(** The conditional subtraction shared by [add] and [MulPow2Helper]: [raw]
    and [carry] hold a number [v] below [2 M]; the result is [v mod M]. *)
Lemma reduce_once raw carry v :
  LimbSeq.wf W raw -> length raw = LIMB_N ->
  LimbSeq.eval W raw + Z.b2z carry * LimbSeq.base W ^ Z.of_nat LIMB_N = v ->
  0 <= v < 2 * M ->
  let r := if carry || not_Lt (LimbSeq.VtSeqCmp raw MOD)
           then (LimbSeq.seq_sub W raw MOD).1 else raw in
  valid r /\ LimbSeq.eval W r = v mod M /\
  (carry || not_Lt (LimbSeq.VtSeqCmp raw MOD) = (M <=? v)).
Proof.
  intros Hw Hl He Hv.
  pose proof M_range as HM.
  pose proof (LimbSeq.eval_range W W_pos raw Hw) as Hraw. rewrite Hl in Hraw.
  rewrite (LimbSeq.VtSeqCmp_spec W W_pos raw MOD Hl Hw MOD_wf). fold M.
  destruct (LimbSeq.sub_with_borrow_spec W W_pos raw MOD false Hl Hw MOD_wf)
    as (Sl & Sw & Se).
  fold (LimbSeq.seq_sub W raw MOD) in Sl, Sw, Se. fold M in Se.
  rewrite Hl in Se.
  pose proof (LimbSeq.eval_range W W_pos _ Sw) as Hsub.
  rewrite Sl, Hl in Hsub.
  set (B := LimbSeq.base W ^ Z.of_nat LIMB_N) in *.
  assert (Hmod_hi : M <= v -> v mod M = v - M).
  { intros Hle. symmetry. apply Z.mod_unique with (q := 1); lia. }
  assert (Hmod_lo : v < M -> v mod M = v).
  { intros Hlt. apply Z.mod_small. lia. }
  assert (Hborrow : forall r bo,
            LimbSeq.eval W r - Z.b2z bo * B = LimbSeq.eval W raw - M ->
            0 <= LimbSeq.eval W r < B ->
            bo = (LimbSeq.eval W raw <? M)).
  { intros r bo Hr Hrr. destruct bo; cbn [Z.b2z] in Hr; symmetry;
      [apply Z.ltb_lt | apply Z.ltb_ge]; lia. }
  destruct (LimbSeq.seq_sub W raw MOD) as [r bo]; cbn [fst snd] in *.
  cbn [Z.b2z] in Se. rewrite Z.sub_0_r in Se.
  specialize (Hborrow r bo Se Hsub).
  destruct carry; cbn [orb Z.b2z] in *.
  - assert (HMv : M <= v) by lia.
    assert (Hbo : bo = true) by (rewrite Hborrow; apply Z.ltb_lt; lia).
    rewrite Hbo in Se. cbn [Z.b2z] in Se.
    split; [|split].
    + repeat split; [assumption | congruence | lia].
    + lia.
    + symmetry. apply Z.leb_le. exact HMv.
  - destruct (Z.ltb_spec (LimbSeq.eval W raw) M) as [Hc|Hc].
    + rewrite (proj2 (Z.compare_lt_iff _ _) Hc). cbn [not_Lt].
      split; [|split].
      * repeat split; [assumption | congruence | lia].
      * lia.
      * symmetry. apply Z.leb_gt. lia.
    + assert (Hn : not_Lt (LimbSeq.eval W raw ?= M) = true).
      { destruct (Z.compare_spec (LimbSeq.eval W raw) M);
          [reflexivity | lia | reflexivity]. }
      rewrite Hn. rewrite Hborrow in Se. cbn [Z.b2z] in Se.
      split; [|split].
      * repeat split; [assumption | congruence | lia].
      * lia.
      * symmetry. apply Z.leb_le. lia.
Qed.

Lemma add_inplace_eq a b : add_inplace a b = add a b.
Proof. reflexivity. Qed.

Lemma sub_inplace_eq a b : sub_inplace a b = sub a b.
Proof. reflexivity. Qed.

Lemma add_value b c :
  valid b -> valid c ->
  valid (add b c) /\
  LimbSeq.eval W (add b c) = (LimbSeq.eval W b + LimbSeq.eval W c) mod M.
Proof.
  intros Hb Hc. pose proof (valid_range b Hb) as Rb.
  pose proof (valid_range c Hc) as Rc.
  destruct Hb as (Hwb & Hlb & _). destruct Hc as (Hwc & Hlc & _).
  destruct (LimbSeq.add_with_carry_spec W W_pos b c false
              ltac:(congruence) Hwb Hwc) as (Al & Aw & Ae).
  fold (LimbSeq.seq_add W b c) in Al, Aw, Ae.
  unfold add. destruct (LimbSeq.seq_add W b c) as [raw carry].
  cbn [fst snd Z.b2z] in *. rewrite Hlb in Ae.
  destruct (reduce_once raw carry (LimbSeq.eval W b + LimbSeq.eval W c))
    as (Hv & He & _); try lia; [congruence|].
  split; assumption.
Qed.

Lemma sub_value b c :
  valid b -> valid c ->
  valid (sub b c) /\
  LimbSeq.eval W (sub b c) = (LimbSeq.eval W b - LimbSeq.eval W c) mod M.
Proof.
  intros Hb Hc. pose proof (valid_range b Hb) as Rb.
  pose proof (valid_range c Hc) as Rc. pose proof M_range as HM.
  destruct Hb as (Hwb & Hlb & _). destruct Hc as (Hwc & Hlc & _).
  destruct (LimbSeq.sub_with_borrow_spec W W_pos b c false
              ltac:(congruence) Hwb Hwc) as (Sl & Sw & Se).
  fold (LimbSeq.seq_sub W b c) in Sl, Sw, Se.
  unfold sub. destruct (LimbSeq.seq_sub W b c) as [raw borrow].
  cbn [fst snd Z.b2z] in *. rewrite Hlb in Se.
  pose proof (LimbSeq.eval_range W W_pos raw Sw) as Hraw.
  rewrite Sl, Hlb in Hraw.
  set (B := LimbSeq.base W ^ Z.of_nat LIMB_N) in *.
  destruct borrow; cbn [Z.b2z] in Se.
  - destruct (LimbSeq.add_with_carry_spec W W_pos raw MOD false
                ltac:(unfold LIMB_N in *; congruence) Sw MOD_wf)
      as (Al & Aw & Ae).
    fold (LimbSeq.seq_add W raw MOD) in Al, Aw, Ae. fold M in Ae.
    rewrite Sl, Hlb in Ae. fold B in Ae.
    pose proof (LimbSeq.eval_range W W_pos _ Aw) as Hr.
    rewrite Al, Sl, Hlb in Hr. fold B in Hr.
    destruct (LimbSeq.seq_add W raw MOD) as [r co]. cbn [fst snd] in *.
    assert (Hco : co = true).
    { destruct co; [reflexivity|]. cbn [Z.b2z] in Ae. lia. }
    rewrite Hco in Ae. cbn [Z.b2z] in Ae.
    assert (Hval : LimbSeq.eval W r = LimbSeq.eval W b - LimbSeq.eval W c + M)
      by lia.
    split.
    + repeat split; [assumption | congruence | lia].
    + rewrite Hval. apply Z.mod_unique with (q := -1); lia.
  - split.
    + repeat split; [assumption | congruence | lia].
    + replace (LimbSeq.eval W raw)
        with (LimbSeq.eval W b - LimbSeq.eval W c) by lia.
      symmetry. apply Z.mod_small. lia.
Qed.

Lemma neg_value b :
  valid b ->
  valid (neg b) /\ LimbSeq.eval W (neg b) = (- LimbSeq.eval W b) mod M.
Proof.
  intros Hb. pose proof (valid_range b Hb) as Rb. pose proof M_range as HM.
  destruct Hb as (Hwb & Hlb & _). unfold neg.
  rewrite (LimbSeq.is_zero_spec W W_pos b Hwb).
  destruct (Z.eqb_spec (LimbSeq.eval W b) 0) as [Hz|Hnz].
  - rewrite Hz. cbn [Z.opp]. rewrite Z.mod_0_l by lia.
    apply valid_zero. lia.
  - destruct (LimbSeq.sub_with_borrow_spec W W_pos MOD b false
                ltac:(unfold LIMB_N in *; congruence) MOD_wf Hwb)
      as (Sl & Sw & Se).
    fold (LimbSeq.seq_sub W MOD b) in Sl, Sw, Se. fold M in Se.
    pose proof (LimbSeq.eval_range W W_pos _ Sw) as Hr. rewrite Sl in Hr.
    fold LIMB_N in Se, Hr.
    set (B := LimbSeq.base W ^ Z.of_nat LIMB_N) in *.
    destruct (LimbSeq.seq_sub W MOD b) as [r bo]. cbn [fst snd Z.b2z] in *.
    assert (Hbo : bo = false).
    { destruct bo; [|reflexivity]. cbn [Z.b2z] in Se. lia. }
    rewrite Hbo in Se. cbn [Z.b2z] in Se.
    split.
    + repeat split; [assumption | assumption | lia].
    + apply Z.mod_unique with (q := -1); lia.
Qed.

Lemma MulPow2Helper_S K a :
  MulPow2Helper (S K) a = MulPow2Helper K (MulPow2Helper 1 a).
Proof. reflexivity. Qed.

Lemma pow_base_bits (n : nat) :
  LimbSeq.base W ^ Z.of_nat n = 2 ^ (W * Z.of_nat n).
Proof. unfold LimbSeq.base. rewrite Z.pow_mul_r by lia. reflexivity. Qed.

(** One doubling step of [MulPow2Helper]. *)
Lemma MulPow2Helper_1 a :
  valid a ->
  valid (MulPow2Helper 1 a) /\
  LimbSeq.eval W (MulPow2Helper 1 a) = (2 * LimbSeq.eval W a) mod M.
Proof.
  intros Ha. pose proof (valid_range a Ha) as Ra. pose proof M_range as HM.
  destruct Ha as (Hwa & Hla & _).
  assert (Hne : a <> []).
  { intros ->. cbn in Hla. unfold M, LIMB_N in *.
    destruct MOD; [cbn in Ra; lia | discriminate]. }
  assert (Hlen : (0 < length a)%nat) by (destruct a; [congruence | cbn; lia]).
  cbn [MulPow2Helper]. rewrite <- Hla.
  rewrite LimbSeq.land_mask_spec; [|exact W_pos|].
  2:{ apply (proj1 (Forall_nth _ 0 a) Hwa). lia. }
  rewrite (LimbSeq.top_limb_spec W W_pos a Hwa Hne).
  destruct (LimbSeq.seq_shift_left_spec W W_pos 1 a ltac:(lia) Hwa)
    as (Sl & Sw & Se).
  rewrite Hla in Se. rewrite Hla.
  pose proof (pow_base_bits LIMB_N) as HB.
  set (B := LimbSeq.base W ^ Z.of_nat LIMB_N) in *.
  assert (HB2 : B = 2 * 2 ^ (W * Z.of_nat LIMB_N - 1)).
  { rewrite HB. rewrite <- Z.pow_succ_r by nia. f_equal. lia. }
  set (carry := 2 ^ (W * Z.of_nat LIMB_N - 1) <=? LimbSeq.eval W a).
  assert (Hlen' : length (LimbSeq.seq_shift_left W 1 a) = LIMB_N)
    by congruence.
  assert (Hsum : LimbSeq.eval W (LimbSeq.seq_shift_left W 1 a)
                 + Z.b2z carry * B = 2 * LimbSeq.eval W a).
  { rewrite Se. subst carry.
    destruct (Z.leb_spec (2 ^ (W * Z.of_nat LIMB_N - 1)) (LimbSeq.eval W a));
      cbn [Z.b2z].
    - replace (LimbSeq.eval W a * 2 ^ 1)
        with ((2 * LimbSeq.eval W a - B) + 1 * B) by lia.
      rewrite Z.mod_add by lia. rewrite Z.mod_small; lia.
    - rewrite Z.mod_small; lia. }
  destruct (reduce_once (LimbSeq.seq_shift_left W 1 a) carry
              (2 * LimbSeq.eval W a) Sw Hlen' Hsum ltac:(lia))
    as (Hv & He & _).
  split; assumption.
Qed.

Lemma MulPow2Helper_value K : forall a,
  valid a ->
  valid (MulPow2Helper K a) /\
  LimbSeq.eval W (MulPow2Helper K a)
  = (2 ^ Z.of_nat K * LimbSeq.eval W a) mod M.
Proof.
  induction K as [|K IH]; intros a Ha.
  - cbn [MulPow2Helper]. split; [exact Ha|].
    change (Z.of_nat 0) with 0. rewrite Z.pow_0_r, Z.mul_1_l.
    symmetry. apply Z.mod_small. apply valid_range. exact Ha.
  - rewrite MulPow2Helper_S.
    destruct (MulPow2Helper_1 a Ha) as (Hv1 & He1).
    destruct (IH _ Hv1) as (Hv & He). split; [exact Hv|].
    rewrite He, He1. pose proof (valid_range a Ha).
    rewrite Z.mul_mod_idemp_r by lia.
    rewrite Nat2Z.inj_succ, Z.pow_succ_r by lia.
    f_equal. ring.
Qed.

(** C6: for all [b], [c] in [[0, M)], [add] is one ripple-carry addition
    followed by a subtraction of [M] exactly when a carry occurred or the raw
    sum is at least [M] (which is exactly when [b + c >= M]); the result is
    [(b + c) mod M] and lies in [[0, M)]; in particular [add(0, 0) = 0] and
    [add(M - 1, 1) = 0]. *)
Theorem add_correct b c :
  valid b -> valid c ->
  let raw := LimbSeq.seq_add W b c in
  add b c = (if raw.2 || (M <=? LimbSeq.eval W raw.1)
             then (LimbSeq.seq_sub W raw.1 MOD).1
             else raw.1) /\
  (raw.2 || (M <=? LimbSeq.eval W raw.1)
   = (M <=? LimbSeq.eval W b + LimbSeq.eval W c)) /\
  valid (add b c) /\
  LimbSeq.eval W (add b c) = (LimbSeq.eval W b + LimbSeq.eval W c) mod M /\
  0 <= LimbSeq.eval W (add b c) < M /\
  add zero zero = zero /\
  (LimbSeq.eval W b = M - 1 -> LimbSeq.eval W c = 1 -> add b c = zero).
Proof.
  intros Hb Hc raw.
  pose proof (valid_range b Hb) as Rb. pose proof (valid_range c Hc) as Rc.
  destruct (add_value b c Hb Hc) as (Hv & He).
  destruct (valid_zero ltac:(lia)) as (Hz & Hz0).
  assert (Hcond : forall a : list Z,
            LimbSeq.wf W a -> length a = LIMB_N ->
            not_Lt (LimbSeq.VtSeqCmp a MOD) = (M <=? LimbSeq.eval W a)).
  { intros a Hwa Hla.
    rewrite (LimbSeq.VtSeqCmp_spec W W_pos a MOD Hla Hwa MOD_wf). fold M.
    destruct (Z.compare_spec (LimbSeq.eval W a) M); cbn [not_Lt]; symmetry;
      [apply Z.leb_le | apply Z.leb_gt | apply Z.leb_le]; lia. }
  destruct Hb as (Hwb & Hlb & _). destruct Hc as (Hwc & Hlc & _).
  destruct (LimbSeq.add_with_carry_spec W W_pos b c false
              ltac:(congruence) Hwb Hwc) as (Al & Aw & Ae).
  fold (LimbSeq.seq_add W b c) in Al, Aw, Ae. fold raw in Al, Aw, Ae.
  rewrite Hlb in Al, Ae. cbn [Z.b2z] in Ae. rewrite Z.add_0_r in Ae.
  assert (Hadd : add b c
                 = if raw.2 || (M <=? LimbSeq.eval W raw.1)
                   then (LimbSeq.seq_sub W raw.1 MOD).1 else raw.1).
  { unfold add. fold raw. rewrite <- (Hcond raw.1 Aw Al).
    destruct raw as [r carry]. reflexivity. }
  split; [exact Hadd|]. split.
  { rewrite <- (Hcond raw.1 Aw Al).
    destruct (reduce_once raw.1 raw.2
                (LimbSeq.eval W b + LimbSeq.eval W c) Aw Al Ae ltac:(lia))
      as (_ & _ & Hc'). exact Hc'. }
  split; [exact Hv|]. split; [exact He|]. split.
  { apply valid_range. exact Hv. }
  split.
  - destruct (add_value zero zero Hz Hz) as (Hvz & Hez).
    apply valid_inj; [exact Hvz | exact Hz |].
    rewrite Hez, Hz0. cbn [Z.add]. rewrite Z.mod_0_l by lia. reflexivity.
  - intros HbM Hc1. apply valid_inj; [exact Hv | exact Hz |].
    rewrite He, Hz0, HbM, Hc1.
    replace (M - 1 + 1) with M by lia. apply Z.mod_same. lia.
Qed.

(** C7: in the carry-checked add-group, for every [a] in [[0, M)] and every
    [k], [add_self(a) = mul_pow2<1>(a) = add(a, a)], and [mul_pow2<k>(a)] is
    the group element [2^k * a mod M]. *)
Theorem mul_pow2_correct a (k : nat) :
  valid a ->
  add_self a = mul_pow2 1 a /\
  mul_pow2 1 a = add a a /\
  valid (mul_pow2 k a) /\
  LimbSeq.eval W (mul_pow2 k a) = (2 ^ Z.of_nat k * LimbSeq.eval W a) mod M.
Proof.
  intros Ha. split; [reflexivity|]. split.
  - destruct (MulPow2Helper_value 1 a Ha) as (Hv1 & He1).
    destruct (add_value a a Ha Ha) as (Hv2 & He2).
    apply valid_inj; [exact Hv1 | exact Hv2 |].
    unfold mul_pow2. rewrite He1, He2. f_equal. cbn. lia.
  - apply MulPow2Helper_value. exact Ha.
Qed.

(** *** The group of the mixin: [sub], [neg] and how they compose with [add] *)

Lemma eval_zero : LimbSeq.eval W zero = 0.
Proof. apply LimbSeq.eval_replicate_0. Qed.

Lemma valid_M_pos a : valid a -> 0 < M.
Proof. intros Ha. pose proof (valid_range a Ha). lia. Qed.

(** Doubling by [MulPow2Helper<1>] is [add(a, a)]. *)
Lemma MulPow2Helper_1_add a : valid a -> MulPow2Helper 1 a = add a a.
Proof.
  intros Ha.
  destruct (MulPow2Helper_1 a Ha) as (Hv1 & He1).
  destruct (add_value a a Ha Ha) as (Hv2 & He2).
  apply valid_inj; [exact Hv1 | exact Hv2 |].
  rewrite He1, He2. f_equal. lia.
Qed.

(** X1: [sub(a, b, c)] on elements of the group is one ripple-borrow subtraction
    followed by an addition of [MOD] exactly when the subtraction borrowed,
    which is exactly when [b < c]; the result is [(b - c) mod M], an element
    of the group again, and [sub(b, b)] is zero. *)
Theorem sub_correct b c :
  valid b -> valid c ->
  let raw := LimbSeq.seq_sub W b c in
  sub b c = (if raw.2 then (LimbSeq.seq_add W raw.1 MOD).1 else raw.1) /\
  raw.2 = (LimbSeq.eval W b <? LimbSeq.eval W c) /\
  valid (sub b c) /\
  LimbSeq.eval W (sub b c) = (LimbSeq.eval W b - LimbSeq.eval W c) mod M /\
  sub b b = zero.
Proof.
  intros Hb Hc raw.
  pose proof (valid_range b Hb) as Rb. pose proof (valid_range c Hc) as Rc.
  destruct (sub_value b c Hb Hc) as (Hv & He).
  split; [unfold sub; fold raw; destruct raw; reflexivity|].
  split.
  { destruct Hb as (Hwb & Hlb & _). destruct Hc as (Hwc & Hlc & _).
    destruct (LimbSeq.sub_with_borrow_spec W W_pos b c false
                ltac:(congruence) Hwb Hwc) as (Sl & Sw & Se).
    fold (LimbSeq.seq_sub W b c) in Sl, Sw, Se. fold raw in Sl, Sw, Se.
    pose proof (LimbSeq.eval_range W W_pos _ Sw) as Hraw. rewrite Sl in Hraw.
    cbn [Z.b2z] in Se. rewrite Z.sub_0_r in Se.
    destruct (raw.2); cbn [Z.b2z] in Se; symmetry;
      [apply Z.ltb_lt | apply Z.ltb_ge]; lia. }
  split; [exact Hv|]. split; [exact He|].
  destruct (sub_value b b Hb Hb) as (Hvz & Hez).
  destruct (valid_zero ltac:(lia)) as (Hz & Hz0).
  apply valid_inj; [exact Hvz | exact Hz |].
  rewrite Hez, Hz0, Z.sub_diag. apply Z.mod_0_l. lia.
Qed.

(** X2: [neg(a, b)] on an element of the group gives [(- b) mod M]: zero for
    zero (the branch on [is_zero]), [M - b] otherwise, an element of the
    group again; negating twice gives [b] back. *)
Theorem neg_correct b :
  valid b ->
  valid (neg b) /\
  LimbSeq.eval W (neg b) = (- LimbSeq.eval W b) mod M /\
  (LimbSeq.eval W b = 0 -> neg b = zero) /\
  (LimbSeq.eval W b <> 0 -> LimbSeq.eval W (neg b) = M - LimbSeq.eval W b) /\
  neg (neg b) = b.
Proof.
  intros Hb. pose proof (valid_range b Hb) as Rb.
  destruct (neg_value b Hb) as (Hv & He).
  destruct (valid_zero ltac:(lia)) as (Hz & Hz0).
  assert (Hnz : LimbSeq.eval W b <> 0 ->
                (- LimbSeq.eval W b) mod M = M - LimbSeq.eval W b).
  { intros Hne. symmetry. apply Z.mod_unique with (q := -1); lia. }
  split; [exact Hv|]. split; [exact He|]. split.
  { intros H0. apply valid_inj; [exact Hv | exact Hz |].
    rewrite He, Hz0, H0. apply Z.mod_0_l. lia. }
  split.
  { intros Hne. rewrite He. apply Hnz. exact Hne. }
  destruct (neg_value (neg b) Hv) as (Hv2 & He2).
  apply valid_inj; [exact Hv2 | exact Hb |].
  rewrite He2, He.
  destruct (Z.eq_dec (LimbSeq.eval W b) 0) as [H0|Hne].
  - rewrite H0. change (- 0) with 0. rewrite (Z.mod_0_l M) by lia.
    change (- 0) with 0. apply Z.mod_0_l. lia.
  - rewrite (Hnz Hne). symmetry. apply Z.mod_unique with (q := -1); lia.
Qed.

(** X3: [neg] gives the inverse for [add], and [sub] is [add] of the negation:
    [add(a, neg(a)) = 0 = add(neg(a), a)], [sub(a, b) = add(a, neg(b))] and
    [sub(0, a) = neg(a)]. *)
Theorem add_neg_sub a b :
  valid a -> valid b ->
  add a (neg a) = zero /\ add (neg a) a = zero /\
  sub a b = add a (neg b) /\ sub zero a = neg a.
Proof.
  intros Ha Hb.
  pose proof (valid_range a Ha) as Ra. pose proof (valid_range b Hb) as Rb.
  destruct (valid_zero ltac:(lia)) as (Hz & Hz0).
  destruct (neg_value a Ha) as (Hna & Ena).
  destruct (neg_value b Hb) as (Hnb & Enb).
  destruct (add_value a (neg a) Ha Hna) as (H1 & E1).
  destruct (add_value (neg a) a Hna Ha) as (H2 & E2).
  destruct (add_value a (neg b) Ha Hnb) as (H3 & E3).
  destruct (sub_value a b Ha Hb) as (H4 & E4).
  destruct (sub_value zero a Hz Ha) as (H5 & E5).
  split; [|split; [|split]].
  - apply valid_inj; [exact H1 | exact Hz |].
    rewrite E1, Ena, Hz0, Z.add_mod_idemp_r by lia.
    rewrite Z.add_opp_diag_r. apply Z.mod_0_l. lia.
  - apply valid_inj; [exact H2 | exact Hz |].
    rewrite E2, Ena, Hz0, Z.add_mod_idemp_l by lia.
    rewrite Z.add_opp_diag_l. apply Z.mod_0_l. lia.
  - apply valid_inj; [exact H4 | exact H3 |].
    rewrite E4, E3, Enb, Z.add_mod_idemp_r by lia. reflexivity.
  - apply valid_inj; [exact H5 | exact Hna |].
    rewrite E5, Ena, Hz0. reflexivity.
Qed.

(** X4: [add] makes the elements below [MOD] a commutative monoid with unit
    zero (with [neg], an abelian group): on the limb sequences themselves,
    [add(a, b) = add(b, a)], [add(add(a, b), c) = add(a, add(b, c))] and
    [add(a, 0) = a = add(0, a)]. *)
Theorem add_comm_assoc_zero a b c :
  valid a -> valid b -> valid c ->
  add a b = add b a /\
  add (add a b) c = add a (add b c) /\
  add a zero = a /\ add zero a = a.
Proof.
  intros Ha Hb Hc.
  pose proof (valid_range a Ha) as Ra.
  destruct (valid_zero ltac:(lia)) as (Hz & Hz0).
  destruct (add_value a b Ha Hb) as (Hab & Eab).
  destruct (add_value b a Hb Ha) as (Hba & Eba).
  destruct (add_value b c Hb Hc) as (Hbc & Ebc).
  destruct (add_value (add a b) c Hab Hc) as (H1 & E1).
  destruct (add_value a (add b c) Ha Hbc) as (H2 & E2).
  destruct (add_value a zero Ha Hz) as (H3 & E3).
  destruct (add_value zero a Hz Ha) as (H4 & E4).
  split; [|split; [|split]].
  - apply valid_inj; [exact Hab | exact Hba |].
    rewrite Eab, Eba. f_equal. lia.
  - apply valid_inj; [exact H1 | exact H2 |].
    rewrite E1, E2, Eab, Ebc.
    rewrite Z.add_mod_idemp_l, Z.add_mod_idemp_r by lia.
    f_equal. lia.
  - apply valid_inj; [exact H3 | exact Ha |].
    rewrite E3, Hz0, Z.add_0_r. apply Z.mod_small. exact Ra.
  - apply valid_inj; [exact H4 | exact Ha |].
    rewrite E4, Hz0, Z.add_0_l. apply Z.mod_small. exact Ra.
Qed.

(** X5: [sub] undoes [add] and [add] undoes [sub]:
    [sub(add(a, b), b) = a] and [add(sub(a, b), b) = a]. *)
Theorem add_sub_round_trip a b :
  valid a -> valid b ->
  sub (add a b) b = a /\ add (sub a b) b = a.
Proof.
  intros Ha Hb.
  pose proof (valid_range a Ha) as Ra.
  destruct (add_value a b Ha Hb) as (Hab & Eab).
  destruct (sub_value a b Ha Hb) as (Hsb & Esb).
  destruct (sub_value (add a b) b Hab Hb) as (H1 & E1).
  destruct (add_value (sub a b) b Hsb Hb) as (H2 & E2).
  split.
  - apply valid_inj; [exact H1 | exact Ha |].
    rewrite E1, Eab, Zminus_mod_idemp_l.
    replace (LimbSeq.eval W a + LimbSeq.eval W b - LimbSeq.eval W b)
      with (LimbSeq.eval W a) by lia.
    apply Z.mod_small. exact Ra.
  - apply valid_inj; [exact H2 | exact Ha |].
    rewrite E2, Esb, Z.add_mod_idemp_l by lia.
    replace (LimbSeq.eval W a - LimbSeq.eval W b + LimbSeq.eval W b)
      with (LimbSeq.eval W a) by lia.
    apply Z.mod_small. exact Ra.
Qed.

Lemma MulPow2Helper_iter K : forall a,
  valid a ->
  MulPow2Helper K a = Nat.iter K (fun r => add r r) a.
Proof.
  induction K as [|K IH]; intros a Ha; [reflexivity|].
  rewrite MulPow2Helper_S, (MulPow2Helper_1_add a Ha), Nat.iter_succ_r.
  apply IH. apply add_value; exact Ha.
Qed.

Lemma MulPow2Helper_plus J K : forall a,
  MulPow2Helper (J + K) a = MulPow2Helper K (MulPow2Helper J a).
Proof.
  induction J as [|J IH]; intros a; [reflexivity|].
  change (S J + K)%nat with (S (J + K)).
  rewrite (MulPow2Helper_S (J + K)), (MulPow2Helper_S J). apply IH.
Qed.

(** X6: [mul_pow2<k>(a)] is [a] doubled [k] times with [add] (what the
    [mul_pow2] test and benchmark of the repository compare it with), and
    the shifts compose: [mul_pow2<j + k>] is [mul_pow2<j>] followed by
    [mul_pow2<k>], in either order. *)
Theorem mul_pow2_iterated_add a (j k : nat) :
  valid a ->
  mul_pow2 k a = Nat.iter k (fun r => add r r) a /\
  mul_pow2 (j + k) a = mul_pow2 k (mul_pow2 j a) /\
  mul_pow2 j (mul_pow2 k a) = mul_pow2 k (mul_pow2 j a).
Proof.
  intros Ha. unfold mul_pow2.
  split; [exact (MulPow2Helper_iter k a Ha)|].
  split; [exact (MulPow2Helper_plus j k a)|].
  rewrite <- !MulPow2Helper_plus. f_equal. lia.
Qed.

(** X7: [mul_pow2<k>] and [neg] are homomorphisms of the group:
    [mul_pow2<k>(add(a, b)) = add(mul_pow2<k>(a), mul_pow2<k>(b))],
    [neg(add(a, b)) = add(neg(a), neg(b))] and
    [mul_pow2<k>(neg(a)) = neg(mul_pow2<k>(a))]. *)
Theorem mul_pow2_neg_homomorphism a b (k : nat) :
  valid a -> valid b ->
  mul_pow2 k (add a b) = add (mul_pow2 k a) (mul_pow2 k b) /\
  neg (add a b) = add (neg a) (neg b) /\
  mul_pow2 k (neg a) = neg (mul_pow2 k a).
Proof.
  intros Ha Hb. pose proof (valid_range a Ha) as Ra.
  assert (HM : M <> 0) by lia.
  destruct (add_value a b Ha Hb) as (Hab & Eab).
  destruct (neg_value a Ha) as (Hna & Ena).
  destruct (neg_value b Hb) as (Hnb & Enb).
  destruct (MulPow2Helper_value k a Ha) as (Hka & Eka).
  destruct (MulPow2Helper_value k b Hb) as (Hkb & Ekb).
  destruct (MulPow2Helper_value k _ Hab) as (Hkab & Ekab).
  destruct (MulPow2Helper_value k _ Hna) as (Hkna & Ekna).
  destruct (add_value _ _ Hka Hkb) as (H1 & E1).
  destruct (neg_value _ Hab) as (H2 & E2).
  destruct (add_value _ _ Hna Hnb) as (H3 & E3).
  destruct (neg_value _ Hka) as (H4 & E4).
  unfold mul_pow2. split; [|split].
  - apply valid_inj; [exact Hkab | exact H1 |].
    rewrite Ekab, E1, Eab, Eka, Ekb.
    rewrite Z.mul_mod_idemp_r by exact HM.
    rewrite <- Z.add_mod by exact HM. f_equal. lia.
  - apply valid_inj; [exact H2 | exact H3 |].
    rewrite E2, E3, Eab, Ena, Enb.
    rewrite <- Z.add_mod by exact HM.
    rewrite <- (Z.mul_1_l ((LimbSeq.eval W a + LimbSeq.eval W b) mod M)).
    rewrite <- Z.mul_opp_l, Z.mul_mod_idemp_r by exact HM.
    f_equal. lia.
  - apply valid_inj; [exact Hkna | exact H4 |].
    rewrite Ekna, E4, Ena, Eka.
    rewrite Z.mul_mod_idemp_r by exact HM.
    rewrite <- (Z.mul_1_l ((2 ^ Z.of_nat k * LimbSeq.eval W a) mod M)).
    rewrite <- Z.mul_opp_l, Z.mul_mod_idemp_r by exact HM.
    f_equal. lia.
Qed.

End Mixin.
End ModAddSub.

(** ** The add-group mixin without carry checks,
       [ModAddSubMixinCarryFree<Core, LIMB_T, LIMB_N, MOD>] *)

Module ModAddSubMixinCarryFree.
Section Mixin.
Local Open Scope Z_scope.

Variable W : Z.
Variable MOD : list Z.

(** [add(a, b, c)]: the carry of [seq_add] is dropped. *)
Definition add (b c : list Z) : list Z :=
  let a := (LimbSeq.seq_add W b c).1 in
  if ModAddSub.not_Lt (LimbSeq.VtSeqCmp a MOD)
  then (LimbSeq.seq_sub W a MOD).1
  else a.

(** [neg(a, b)] *)
Definition neg (b : list Z) : list Z :=
  if LimbSeq.is_zero b
  then LimbSeq.set_zero MOD
  else (LimbSeq.seq_sub W MOD b).1.

(** [sub(a, b, c)] *)
Definition sub (b c : list Z) : list Z :=
  let '(a, borrow) := LimbSeq.seq_sub W b c in
  if borrow then (LimbSeq.seq_add W a MOD).1 else a.

(** [CarryFreeMulPow2Helper<Core, K, LIMB_T, LIMB_N, MOD>::call(a)]: the
    general template shifts by [K] bits, subtracts [MOD] once if the result
    is not below it, and then calls the helper for [K - 1]. *)
Fixpoint CarryFreeMulPow2Helper (K : nat) (a : list Z) : list Z :=
  match K with
  | O => a
  | S K' =>
      let a := LimbSeq.seq_shift_left W (Z.of_nat K) a in
      let a :=
        if ModAddSub.not_Lt (LimbSeq.VtSeqCmp a MOD)
        then (LimbSeq.seq_sub W a MOD).1
        else a in
      CarryFreeMulPow2Helper K' a
  end.

(** [mul_pow2<K>(a)]: documented as [a = a * 2^K (mod MOD)]. *)
Definition mul_pow2 (K : nat) (a : list Z) : list Z :=
  CarryFreeMulPow2Helper K a.

(** [add_self(a)]: documented as [a = 2 * a (mod MOD)]. *)
Definition add_self (a : list Z) : list Z := CarryFreeMulPow2Helper 1 a.

(** What the claim describes: one whole [K] bit shift and one conditional
    subtraction. *)
Definition shift_then_reduce_once (K : nat) (a : list Z) : list Z :=
  let a := LimbSeq.seq_shift_left W (Z.of_nat K) a in
  if ModAddSub.not_Lt (LimbSeq.VtSeqCmp a MOD)
  then (LimbSeq.seq_sub W a MOD).1
  else a.

Hypothesis W_pos : 0 < W.
Hypothesis MOD_wf : LimbSeq.wf W MOD.
(** The modulus leaves the top bit of the limbs free. *)
Hypothesis MOD_spare_bit :
  ModAddSub.M W MOD < 2 ^ (W * Z.of_nat (ModAddSub.LIMB_N MOD) - 1).

(** With a spare top bit, doubling agrees with the carry-checked mixin. *)
Lemma add_self_carry_free a :
  ModAddSub.valid W MOD a ->
  add_self a = ModAddSub.add_self W MOD a.
Proof.
  intros Ha. pose proof (ModAddSub.valid_range W MOD W_pos a Ha) as Ra.
  unfold add_self, ModAddSub.add_self.
  cbn [CarryFreeMulPow2Helper ModAddSub.MulPow2Helper].
  change (Z.of_nat 1) with 1.
  destruct Ha as (Hwa & Hla & _).
  assert (Hne : a <> []).
  { intros ->. cbn in Hla. unfold ModAddSub.M, ModAddSub.LIMB_N in *.
    destruct MOD; [cbn in Ra; lia | discriminate]. }
  assert (Hlen : (0 < length a)%nat) by (destruct a; [congruence | cbn; lia]).
  rewrite <- Hla.
  rewrite LimbSeq.land_mask_spec; [|exact W_pos|].
  2:{ apply (proj1 (Forall_nth _ 0 a) Hwa). lia. }
  rewrite (LimbSeq.top_limb_spec W W_pos a Hwa Hne). rewrite Hla.
  replace (2 ^ (W * Z.of_nat (ModAddSub.LIMB_N MOD) - 1) <=? LimbSeq.eval W a)
    with false by (symmetry; apply Z.leb_gt; lia).
  reflexivity.
Qed.

(** With a spare top bit the sum of two elements cannot carry. *)
Lemma seq_add_no_carry b c :
  ModAddSub.valid W MOD b -> ModAddSub.valid W MOD c ->
  (LimbSeq.seq_add W b c).2 = false.
Proof.
  intros Hb Hc.
  pose proof (ModAddSub.valid_range W MOD W_pos b Hb) as Rb.
  pose proof (ModAddSub.valid_range W MOD W_pos c Hc) as Rc.
  destruct Hb as (Hwb & Hlb & _). destruct Hc as (Hwc & Hlc & _).
  destruct (LimbSeq.add_with_carry_spec W W_pos b c false
              ltac:(congruence) Hwb Hwc) as (Al & Aw & Ae).
  fold (LimbSeq.seq_add W b c) in Al, Aw, Ae.
  pose proof (LimbSeq.eval_range W W_pos _ Aw) as Hraw.
  rewrite Al, Hlb in Hraw. rewrite Hlb in Ae.
  rewrite (ModAddSub.pow_base_bits W W_pos) in Ae, Hraw.
  assert (HB : 2 ^ (W * Z.of_nat (ModAddSub.LIMB_N MOD))
               = 2 * 2 ^ (W * Z.of_nat (ModAddSub.LIMB_N MOD) - 1)).
  { rewrite <- Z.pow_succ_r.
    - f_equal. lia.
    - assert (0 < Z.of_nat (ModAddSub.LIMB_N MOD)); [|nia].
      unfold ModAddSub.M, ModAddSub.LIMB_N in *.
      destruct MOD; [cbn in Rb; lia | cbn; lia]. }
  destruct (LimbSeq.seq_add W b c).2; [|reflexivity].
  cbn [Z.b2z] in Ae. lia.
Qed.

(** X8: The carry-free mixin is a safe replacement when [Core] can hold twice
    [MOD]: with a spare top bit its [add], [sub], [neg] and [add_self]
    return, on elements of the group, the limbs that the carry-checked
    [ModAddSub] returns. *)
Theorem carry_free_agrees b c :
  ModAddSub.valid W MOD b -> ModAddSub.valid W MOD c ->
  add b c = ModAddSub.add W MOD b c /\
  sub b c = ModAddSub.sub W MOD b c /\
  neg b = ModAddSub.neg W MOD b /\
  add_self b = ModAddSub.add_self W MOD b.
Proof.
  intros Hb Hc. split; [|split; [reflexivity | split; [reflexivity|]]].
  - pose proof (seq_add_no_carry b c Hb Hc) as Hcarry.
    unfold add, ModAddSub.add.
    destruct (LimbSeq.seq_add W b c) as [raw carry].
    cbn [fst snd] in *. rewrite Hcarry. reflexivity.
  - apply add_self_carry_free. exact Hb.
Qed.

End Mixin.

(** *** Without the spare bit *)

Section Overflow.
Local Open Scope Z_scope.

Variable W : Z.
Variable MOD : list Z.

Hypothesis W_pos : 0 < W.
Hypothesis MOD_wf : LimbSeq.wf W MOD.

(** X9: The carry-free [add] drops the carry of [seq_add]: whenever the sum of
    two elements of the group does not fit the limbs, it returns
    [b + c - 2^(W * LIMB_N)] without any reduction, which is not the
    [(b + c) mod M = b + c - M] that [ModAddSub::add] returns. *)
Theorem add_carry_free_overflow b c :
  ModAddSub.valid W MOD b -> ModAddSub.valid W MOD c ->
  LimbSeq.base W ^ Z.of_nat (ModAddSub.LIMB_N MOD)
  <= LimbSeq.eval W b + LimbSeq.eval W c ->
  add W MOD b c = (LimbSeq.seq_add W b c).1 /\
  LimbSeq.eval W (add W MOD b c)
  = LimbSeq.eval W b + LimbSeq.eval W c
    - LimbSeq.base W ^ Z.of_nat (ModAddSub.LIMB_N MOD) /\
  LimbSeq.eval W (ModAddSub.add W MOD b c)
  = LimbSeq.eval W b + LimbSeq.eval W c - ModAddSub.M W MOD /\
  add W MOD b c <> ModAddSub.add W MOD b c.
Proof.
  intros Hb Hc Hover.
  pose proof (ModAddSub.valid_range W MOD W_pos b Hb) as Rb.
  pose proof (ModAddSub.valid_range W MOD W_pos c Hc) as Rc.
  pose proof (ModAddSub.M_range W MOD W_pos MOD_wf) as RM.
  destruct (ModAddSub.add_value W MOD W_pos MOD_wf b c Hb Hc) as (Hv & He).
  destruct Hb as (Hwb & Hlb & _). destruct Hc as (Hwc & Hlc & _).
  destruct (LimbSeq.add_with_carry_spec W W_pos b c false
              ltac:(congruence) Hwb Hwc) as (Al & Aw & Ae).
  fold (LimbSeq.seq_add W b c) in Al, Aw, Ae.
  pose proof (LimbSeq.eval_range W W_pos _ Aw) as Hraw.
  rewrite Al, Hlb in Hraw. rewrite Hlb in Ae. rewrite Hlb in Al.
  set (Bn := LimbSeq.base W ^ Z.of_nat (ModAddSub.LIMB_N MOD)) in *.
  set (M := ModAddSub.M W MOD) in *.
  cbn [Z.b2z] in Ae. rewrite Z.add_0_r in Ae.
  assert (Hraw_eq : LimbSeq.eval W (LimbSeq.seq_add W b c).1
                    = LimbSeq.eval W b + LimbSeq.eval W c - Bn).
  { destruct (LimbSeq.seq_add W b c).2; cbn [Z.b2z] in Ae; lia. }
  assert (Hadd : add W MOD b c = (LimbSeq.seq_add W b c).1).
  { unfold add.
    rewrite (LimbSeq.VtSeqCmp_spec W W_pos _ MOD Al Aw MOD_wf).
    fold (ModAddSub.M W MOD). fold M.
    rewrite (proj2 (Z.compare_lt_iff _ _)) by lia. reflexivity. }
  assert (Hgen : LimbSeq.eval W (ModAddSub.add W MOD b c)
                 = LimbSeq.eval W b + LimbSeq.eval W c - M).
  { rewrite He. fold M. symmetry. apply Z.mod_unique with (q := 1); lia. }
  split; [exact Hadd|]. split; [rewrite Hadd; exact Hraw_eq|].
  split; [exact Hgen|].
  intros Heq. rewrite <- Heq, Hadd, Hraw_eq in Hgen. lia.
Qed.

End Overflow.

End ModAddSubMixinCarryFree.

(** ** The 160 bit field of the tests: 5 limbs of 32 bits *)

Module Field160.
Local Open Scope Z_scope.
Import BigIntTests.

(** The modulus of [Field160] in the tests: [neg(1)] is the number below. *)
Definition MOD : list Z :=
  Field160 0xb77902ab 0xd8db9627 0xf5d7ceca 0x5c17ef6c 0x5e3b0969.

Definition F (a0 : Z) : list Z := Field160 0 0 0 0 a0.

Definition add := ModAddSub.add 32 MOD.
Definition sub := ModAddSub.sub 32 MOD.
Definition neg := ModAddSub.neg 32 MOD.
Definition mul_pow2 := ModAddSub.mul_pow2 32 MOD.
Definition add_self := ModAddSub.add_self 32 MOD.

Example test_neg_zero : neg (F 0) = F 0.
Proof. vm_compute. reflexivity. Qed.

Example test_neg_one :
  neg (F 1) = Field160 0xb77902ab 0xd8db9627 0xf5d7ceca 0x5c17ef6c 0x5e3b0968.
Proof. vm_compute. reflexivity. Qed.

Example test_neg_half :
  neg (Field160 0x5bbc8155 0xec6dcb13 0xfaebe765 0x2e0bf7b6 0x2f1d84b4)
  = Field160 0x5bbc8155 0xec6dcb13 0xfaebe765 0x2e0bf7b6 0x2f1d84b5.
Proof. vm_compute. reflexivity. Qed.

Example test_add_zero : add (F 0) (F 0) = F 0.
Proof. vm_compute. reflexivity. Qed.

Example test_add_small : add (F 1) (F 2) = F 3.
Proof. vm_compute. reflexivity. Qed.

Example test_add_wraps :
  add (F 2) (Field160 0xb77902ab 0xd8db9627 0xf5d7ceca 0x5c17ef6c 0x5e3b0968)
  = F 1.
Proof. vm_compute. reflexivity. Qed.

Example test_add_no_carry :
  add (Field160 0x0d1f4b5b 0x8005d7aa 0x4fed62ac 0x03831479 0x83ccd32d)
      (Field160 0x1cfaec75 0x7faf7c19 0xd3121b9e 0xded3ca3b 0x952e1b38)
  = Field160 0x2a1a37d0 0xffb553c4 0x22ff7e4a 0xe256deb5 0x18faee65.
Proof. vm_compute. reflexivity. Qed.

Example test_add_reduce :
  add (Field160 0x8f566078 0xb1d6a8df 0xd5af7fad 0xaa89f612 0x240a6b52)
      (Field160 0x4a617461 0x4c8165c6 0xf378a372 0x8d6cccb6 0xd07f7850)
  = Field160 0x223ed22e 0x257c787e 0xd3505455 0xdbded35c 0x964eda39.
Proof. vm_compute. reflexivity. Qed.

Example test_sub_borrow :
  sub (F 1) (F 2)
  = Field160 0xb77902ab 0xd8db9627 0xf5d7ceca 0x5c17ef6c 0x5e3b0968.
Proof. vm_compute. reflexivity. Qed.

Example test_sub_reduce :
  sub (Field160 0x223ed22e 0x257c787e 0xd3505455 0xdbded35c 0x964eda39)
      (Field160 0x4a617461 0x4c8165c6 0xf378a372 0x8d6cccb6 0xd07f7850)
  = Field160 0x8f566078 0xb1d6a8df 0xd5af7fad 0xaa89f612 0x240a6b52.
Proof. vm_compute. reflexivity. Qed.

Lemma limb_bits_pos : 0 < 32.
Proof. reflexivity. Qed.

Lemma wf_limbs (a : list Z) :
  forallb (fun x => (0 <=? x) && (x <? 2 ^ 32)) a = true -> LimbSeq.wf 32 a.
Proof.
  intros H. apply Forall_forall. intros x Hx.
  rewrite forallb_forall in H. apply list_elem_of_In in Hx.
  specialize (H x Hx).
  apply andb_true_iff in H as [H1 H2].
  apply Z.leb_le in H1. apply Z.ltb_lt in H2.
  unfold LimbSeq.limb_ok, LimbSeq.base. lia.
Qed.

Lemma MOD160_wf : LimbSeq.wf 32 MOD.
Proof. apply wf_limbs. vm_compute. reflexivity. Qed.

(** Deciding membership of the group by computation. *)
Lemma valid_by_eval (a : list Z) :
  forallb (fun x => (0 <=? x) && (x <? 2 ^ 32)) a = true ->
  length a = 5%nat ->
  (LimbSeq.eval 32 a <? LimbSeq.eval 32 MOD) = true ->
  ModAddSub.valid 32 MOD a.
Proof.
  intros Hw Hl Hlt. repeat split.
  - apply wf_limbs. exact Hw.
  - exact Hl.
  - apply Z.ltb_lt. exact Hlt.
Qed.

(** [add_correct] at [b = M - 1], [c = 1] of the 160 bit field. *)
Lemma add_correct_witness :
  ModAddSub.valid 32 MOD
    (Field160 0xb77902ab 0xd8db9627 0xf5d7ceca 0x5c17ef6c 0x5e3b0968) /\
  ModAddSub.valid 32 MOD (F 1) /\
  LimbSeq.eval 32
    (add (Field160 0xb77902ab 0xd8db9627 0xf5d7ceca 0x5c17ef6c 0x5e3b0968)
         (F 1))
  = (LimbSeq.eval 32
       (Field160 0xb77902ab 0xd8db9627 0xf5d7ceca 0x5c17ef6c 0x5e3b0968)
     + LimbSeq.eval 32 (F 1)) mod ModAddSub.M 32 MOD /\
  add (Field160 0xb77902ab 0xd8db9627 0xf5d7ceca 0x5c17ef6c 0x5e3b0968) (F 1)
  = ModAddSub.zero MOD.
Proof.
  assert (Hb : ModAddSub.valid 32 MOD
            (Field160 0xb77902ab 0xd8db9627 0xf5d7ceca 0x5c17ef6c 0x5e3b0968))
    by (apply valid_by_eval; vm_compute; reflexivity).
  assert (Hc : ModAddSub.valid 32 MOD (F 1))
    by (apply valid_by_eval; vm_compute; reflexivity).
  destruct (ModAddSub.add_correct 32 MOD limb_bits_pos MOD160_wf _ _ Hb Hc)
    as (_ & _ & _ & He & _ & _ & Hz).
  split; [exact Hb|]. split; [exact Hc|]. split; [exact He|].
  apply Hz; vm_compute; reflexivity.
Defined.

(** [mul_pow2_correct] at an element of the 160 bit field and [k = 3]. *)
Lemma mul_pow2_correct_witness :
  ModAddSub.valid 32 MOD
    (Field160 0x8f566078 0xb1d6a8df 0xd5af7fad 0xaa89f612 0x240a6b52) /\
  add_self (Field160 0x8f566078 0xb1d6a8df 0xd5af7fad 0xaa89f612 0x240a6b52)
  = add (Field160 0x8f566078 0xb1d6a8df 0xd5af7fad 0xaa89f612 0x240a6b52)
        (Field160 0x8f566078 0xb1d6a8df 0xd5af7fad 0xaa89f612 0x240a6b52) /\
  LimbSeq.eval 32
    (mul_pow2 3
       (Field160 0x8f566078 0xb1d6a8df 0xd5af7fad 0xaa89f612 0x240a6b52))
  = (2 ^ 3 * LimbSeq.eval 32
       (Field160 0x8f566078 0xb1d6a8df 0xd5af7fad 0xaa89f612 0x240a6b52))
    mod ModAddSub.M 32 MOD.
Proof.
  assert (Ha : ModAddSub.valid 32 MOD
            (Field160 0x8f566078 0xb1d6a8df 0xd5af7fad 0xaa89f612 0x240a6b52))
    by (apply valid_by_eval; vm_compute; reflexivity).
  destruct (ModAddSub.mul_pow2_correct 32 MOD limb_bits_pos MOD160_wf _ 3 Ha)
    as (H1 & H2 & _ & H4).
  split; [exact Ha|]. split; [|exact H4].
  unfold add_self, add. rewrite H1. exact H2.
Defined.

(** The [mul_pow2] test of the repository on one element: doubling once,
    twice and three times by [add] agrees with [add_self] and [mul_pow2]. *)
Example test_mul_pow2 :
  let a := Field160 0x8f566078 0xb1d6a8df 0xd5af7fad 0xaa89f612 0x240a6b52 in
  let a2 := add a a in
  let a4 := add a2 a2 in
  let a8 := add a4 a4 in
  add_self a = a2 /\ mul_pow2 1 a = a2 /\ mul_pow2 2 a = a4 /\
  mul_pow2 3 a = a8.
Proof. vm_compute. repeat split. Qed.

End Field160.

(** C2 (the code departs from the claim): with a spare top bit the
    carry-free [mul_pow2<K>] should be one [K] bit shift and one conditional
    subtraction and return [2^K * a mod M], as the carry-checked mixin does
    and as its comment ([a = a * 2^K (mod MOD)]) says.  On 32 bit limbs with
    [LIMB_N = 1], [MOD = {7}], [a = 1] and [K = 2]:
    [CarryFreeMulPow2Helper<2>] shifts by 2 bits and then calls
    [CarryFreeMulPow2Helper<1>], which shifts by one more bit; the result is
    [8 mod 7 = 1], where [2^2 * 1 mod 7 = 4]. *)
Theorem carry_free_mul_pow2_diverges :
  (ModAddSub.M 32 [7] < 2 ^ (32 * Z.of_nat (ModAddSub.LIMB_N [7]) - 1))%Z /\
  ModAddSub.valid 32 [7%Z] [1%Z] /\
  ModAddSubMixinCarryFree.mul_pow2 32 [7%Z] 2 [1%Z] = [1%Z] /\
  ModAddSub.mul_pow2 32 [7%Z] 2 [1%Z] = [4%Z] /\
  ((2 ^ 2 * LimbSeq.eval 32 [1]) mod ModAddSub.M 32 [7] = 4)%Z /\
  ModAddSubMixinCarryFree.mul_pow2 32 [7%Z] 2 [1%Z]
  <> ModAddSubMixinCarryFree.shift_then_reduce_once 32 [7%Z] 2 [1%Z].
Proof.
  split; [reflexivity|]. split.
  { split; [apply Field160.wf_limbs; reflexivity | split; reflexivity]. }
  split; [reflexivity|]. split; [reflexivity|]. split; [reflexivity|].
  vm_compute. discriminate.
Qed.

(** ** The add-group laws on the elements of the tests *)

Module AddGroupTests.
Local Open Scope Z_scope.
Import BigIntTests.

Local Abbreviation MOD := Field160.MOD.
Local Abbreviation valid := (ModAddSub.valid 32 Field160.MOD).

(** Operands of the [add group add] and [add group sub] tests. *)
Definition u : list Z :=
  Field160 0x8f566078 0xb1d6a8df 0xd5af7fad 0xaa89f612 0x240a6b52.
Definition v : list Z :=
  Field160 0x4a617461 0x4c8165c6 0xf378a372 0x8d6cccb6 0xd07f7850.
Definition w : list Z :=
  Field160 0x0d1f4b5b 0x8005d7aa 0x4fed62ac 0x03831479 0x83ccd32d.
(** [MOD - 1] *)
Definition top : list Z :=
  Field160 0xb77902ab 0xd8db9627 0xf5d7ceca 0x5c17ef6c 0x5e3b0968.

Lemma valid_u : valid u.
Proof. apply Field160.valid_by_eval; vm_compute; reflexivity. Qed.

Lemma valid_v : valid v.
Proof. apply Field160.valid_by_eval; vm_compute; reflexivity. Qed.

Lemma valid_w : valid w.
Proof. apply Field160.valid_by_eval; vm_compute; reflexivity. Qed.

Lemma valid_top : valid top.
Proof. apply Field160.valid_by_eval; vm_compute; reflexivity. Qed.

(** [sub_correct] at [v - u], which borrows. *)
Lemma sub_correct_witness :
  valid v /\ valid u /\
  (LimbSeq.seq_sub 32 v u).2 = true /\
  LimbSeq.eval 32 (Field160.sub v u)
  = (LimbSeq.eval 32 v - LimbSeq.eval 32 u) mod ModAddSub.M 32 MOD /\
  Field160.sub v v = ModAddSub.zero MOD.
Proof.
  destruct (ModAddSub.sub_correct 32 MOD Field160.limb_bits_pos
              Field160.MOD160_wf v u valid_v valid_u)
    as (_ & Hb & _ & He & Hz).
  split; [exact valid_v|]. split; [exact valid_u|].
  split; [rewrite Hb; vm_compute; reflexivity|].
  split; [exact He | exact Hz].
Defined.

(** [neg_correct] at [u]. *)
Lemma neg_correct_witness :
  valid u /\
  LimbSeq.eval 32 (Field160.neg u)
  = ModAddSub.M 32 MOD - LimbSeq.eval 32 u /\
  Field160.neg (Field160.neg u) = u.
Proof.
  destruct (ModAddSub.neg_correct 32 MOD Field160.limb_bits_pos
              Field160.MOD160_wf u valid_u)
    as (_ & _ & _ & Hn & Hinv).
  split; [exact valid_u|]. split; [|exact Hinv].
  apply Hn. vm_compute. discriminate.
Defined.

(** [add_neg_sub] at [u] and [v]. *)
Lemma add_neg_sub_witness :
  valid u /\ valid v /\
  Field160.add u (Field160.neg u) = ModAddSub.zero MOD /\
  Field160.sub u v = Field160.add u (Field160.neg v).
Proof.
  destruct (ModAddSub.add_neg_sub 32 MOD Field160.limb_bits_pos
              Field160.MOD160_wf u v valid_u valid_v)
    as (H1 & _ & H3 & _).
  split; [exact valid_u|]. split; [exact valid_v|].
  split; [exact H1 | exact H3].
Defined.

(** [add_comm_assoc_zero] at [u], [v] and [w]. *)
Lemma add_comm_assoc_zero_witness :
  valid u /\ valid v /\ valid w /\
  Field160.add u v = Field160.add v u /\
  Field160.add (Field160.add u v) w = Field160.add u (Field160.add v w) /\
  Field160.add u (ModAddSub.zero MOD) = u.
Proof.
  destruct (ModAddSub.add_comm_assoc_zero 32 MOD Field160.limb_bits_pos
              Field160.MOD160_wf u v w valid_u valid_v valid_w)
    as (H1 & H2 & H3 & _).
  split; [exact valid_u|]. split; [exact valid_v|]. split; [exact valid_w|].
  split; [exact H1|]. split; [exact H2 | exact H3].
Defined.

(** [add_sub_round_trip] at [u] and [v]. *)
Lemma add_sub_round_trip_witness :
  valid u /\ valid v /\
  Field160.sub (Field160.add u v) v = u /\
  Field160.add (Field160.sub u v) v = u.
Proof.
  split; [exact valid_u|]. split; [exact valid_v|].
  exact (ModAddSub.add_sub_round_trip 32 MOD Field160.limb_bits_pos
           Field160.MOD160_wf u v valid_u valid_v).
Defined.

(** [mul_pow2_iterated_add] at [u]: [mul_pow2<32>] against the 32
    doublings of the benchmark. *)
Lemma mul_pow2_iterated_add_witness :
  valid u /\
  Field160.mul_pow2 32 u = Nat.iter 32 (fun r => Field160.add r r) u /\
  Field160.mul_pow2 (2 + 32) u = Field160.mul_pow2 32 (Field160.mul_pow2 2 u).
Proof.
  destruct (ModAddSub.mul_pow2_iterated_add 32 MOD Field160.limb_bits_pos
              Field160.MOD160_wf u 2 32 valid_u)
    as (H1 & H2 & _).
  split; [exact valid_u|]. split; [exact H1 | exact H2].
Defined.

(** [add_carry_free_overflow] at [top + top], which does not fit 160
    bits: the modulus of [Field160] has its top bit set. *)
Lemma add_carry_free_overflow_witness :
  valid top /\
  LimbSeq.base 32 ^ Z.of_nat (ModAddSub.LIMB_N MOD)
  <= LimbSeq.eval 32 top + LimbSeq.eval 32 top /\
  ModAddSubMixinCarryFree.add 32 MOD top top <> Field160.add top top.
Proof.
  assert (Hover : LimbSeq.base 32 ^ Z.of_nat (ModAddSub.LIMB_N MOD)
                  <= LimbSeq.eval 32 top + LimbSeq.eval 32 top)
    by (vm_compute; discriminate).
  destruct (ModAddSubMixinCarryFree.add_carry_free_overflow 32 MOD
              Field160.limb_bits_pos Field160.MOD160_wf top top
              valid_top valid_top Hover)
    as (_ & _ & _ & Hne).
  split; [exact valid_top|]. split; [exact Hover | exact Hne].
Defined.

(** [SmallMod] of the [random sampling] test: three limbs, [0x0, 0xb, 0x7]
    from the most significant down. *)
Definition SmallMod : list Z := [0x7; 0xb; 0x0].

Lemma SmallMod_wf : LimbSeq.wf 32 SmallMod.
Proof. apply Field160.wf_limbs. vm_compute. reflexivity. Qed.

Lemma SmallMod_spare_bit :
  ModAddSub.M 32 SmallMod
  < 2 ^ (32 * Z.of_nat (ModAddSub.LIMB_N SmallMod) - 1).
Proof. vm_compute. reflexivity. Qed.

Lemma valid_small (a : list Z) :
  forallb (fun x => (0 <=? x) && (x <? 2 ^ 32)) a = true ->
  length a = 3%nat ->
  (LimbSeq.eval 32 a <? LimbSeq.eval 32 SmallMod) = true ->
  ModAddSub.valid 32 SmallMod a.
Proof.
  intros Hw Hl Hlt. split; [|split].
  - apply Field160.wf_limbs. exact Hw.
  - exact Hl.
  - apply Z.ltb_lt. exact Hlt.
Qed.

(** [carry_free_agrees] on [SmallMod], at [0xa_ffffffff + 0xa_00000009]. *)
Lemma carry_free_agrees_witness :
  ModAddSub.valid 32 SmallMod [0xffffffff; 0xa; 0] /\
  ModAddSub.valid 32 SmallMod [0x9; 0xa; 0] /\
  ModAddSubMixinCarryFree.add 32 SmallMod [0xffffffff; 0xa; 0] [0x9; 0xa; 0]
  = ModAddSub.add 32 SmallMod [0xffffffff; 0xa; 0] [0x9; 0xa; 0] /\
  ModAddSubMixinCarryFree.add_self 32 SmallMod [0xffffffff; 0xa; 0]
  = ModAddSub.add_self 32 SmallMod [0xffffffff; 0xa; 0].
Proof.
  assert (Hb : ModAddSub.valid 32 SmallMod [0xffffffff; 0xa; 0])
    by (apply valid_small; vm_compute; reflexivity).
  assert (Hc : ModAddSub.valid 32 SmallMod [0x9; 0xa; 0])
    by (apply valid_small; vm_compute; reflexivity).
  destruct (ModAddSubMixinCarryFree.carry_free_agrees 32 SmallMod
              Field160.limb_bits_pos SmallMod_wf SmallMod_spare_bit
              _ _ Hb Hc)
    as (H1 & _ & _ & H4).
  split; [exact Hb|]. split; [exact Hc|]. split; [exact H1 | exact H4].
Defined.

(** [mul_pow2_neg_homomorphism] at [u], [v] and [k = 3]. *)
Lemma mul_pow2_neg_homomorphism_witness :
  valid u /\ valid v /\
  Field160.mul_pow2 3 (Field160.add u v)
  = Field160.add (Field160.mul_pow2 3 u) (Field160.mul_pow2 3 v) /\
  Field160.neg (Field160.add u v)
  = Field160.add (Field160.neg u) (Field160.neg v).
Proof.
  destruct (ModAddSub.mul_pow2_neg_homomorphism 32 MOD Field160.limb_bits_pos
              Field160.MOD160_wf u v 3 valid_u valid_v)
    as (H1 & H2 & _).
  split; [exact valid_u|]. split; [exact valid_v|].
  split; [exact H1 | exact H2].
Defined.

End AddGroupTests.

(** ** The Jacobian coordinate mixin [Jacobain<Core, FIELD_T, A, B>] *)

Module Jacobain.
Section Mixin.

(** [FIELD_T] and its static methods; [operator==] is decidable equality.
    The two and three argument forms of [add] and [sub] compute the same
    function, [inv(a, ctx)] inverts in place. *)
Context {FIELD_T : Type} `{EqDecision FIELD_T}.
Variables (Fzero Fone : FIELD_T).
Variables (Fadd Fsub Fmul : FIELD_T -> FIELD_T -> FIELD_T).
Variables (Fneg Finv : FIELD_T -> FIELD_T).
Variable Fmul_pow2 : nat -> FIELD_T -> FIELD_T.

(** The curve parameters, template arguments [A] and [B]. *)
Variables (A B : FIELD_T).

(** [Core]: a point with coordinates [x()], [y()], [z()]. *)
Record Core : Type := mkCore { x : FIELD_T; y : FIELD_T; z : FIELD_T }.

Definition is_zero (a : FIELD_T) : bool := bool_decide (a = Fzero).
Definition is_mul_id (a : FIELD_T) : bool := bool_decide (a = Fone).

Definition is_inf (a : Core) : bool := is_zero (z a).

Definition set_inf : Core := {| x := Fzero; y := Fzero; z := Fzero |}.

(** [add_distinct_inner(a, b, c, ctx)] with [t1 .. t4] the context slots
    holding [x1 z2^2], [x2 z1^2], [y1 z2^3], [y2 z1^3]. *)
Definition add_distinct_inner (b c : Core) (t1 t2 t3 t4 : FIELD_T) : Core :=
  let t2 := Fsub t2 t1 in           (* e = b - a *)
  let t4 := Fsub t4 t3 in           (* f = d - c *)
  let az := Fmul t2 t2 in           (* e^2 *)
  let ay := Fmul t1 az in           (* a e^2 *)
  let t1 := Fmul az t2 in           (* e^3 *)
  let az := Fmul t3 t1 in           (* c e^3 *)
  let t3 := Fadd ay ay in           (* 2 a e^2 *)
  let ax := Fmul t4 t4 in           (* f^2 *)
  let ax := Fsub ax t3 in           (* f^2 - 2 a e^2 *)
  let ax := Fsub ax t1 in           (* x = f^2 - 2 a e^2 - e^3 *)
  let t1 := Fsub ay ax in           (* a e^2 - x *)
  let ay := Fmul t4 t1 in           (* f (a e^2 - x) *)
  let ay := Fsub ay az in           (* y = f (a e^2 - x) - c e^3 *)
  let t1 := Fmul (z b) (z c) in     (* z1 z2 *)
  let az := Fmul t1 t2 in           (* z = z1 z2 e *)
  {| x := ax; y := ay; z := az |}.

(** [on_curve(a, ctx)] *)
Definition on_curve (a : Core) : bool :=
  let t1 := Fmul (z a) (z a) in     (* z^2 *)
  let t2 := Fmul t1 t1 in           (* z^4 *)
  let r := Fmul t1 t2 in            (* z^6 *)
  let l := Fmul (x a) t2 in         (* x z^4 *)
  let t2 := Fmul A l in             (* a x z^4 *)
  let t1 := Fmul B r in             (* b z^6 *)
  let l := Fmul (x a) (x a) in      (* x^2 *)
  let r := Fmul l (x a) in          (* x^3 *)
  let r := Fadd r t2 in             (* x^3 + a x z^4 *)
  let r := Fadd r t1 in             (* right = x^3 + a x z^4 + b z^6 *)
  let l := Fmul (y a) (y a) in      (* left = y^2 *)
  bool_decide (l = r).

(** [to_affine(a, ctx)] *)
Definition to_affine (a : Core) : Core :=
  if is_inf a || is_mul_id (z a) then a
  else
    let az := Finv (z a) in         (* z^-1 *)
    let t1 := Fmul az az in         (* z^-2 *)
    let t2 := Fmul (x a) t1 in      (* x z^-2 *)
    let ax := t2 in
    let t2 := Fmul t1 az in         (* z^-3 *)
    let t1 := Fmul (y a) t2 in      (* y z^-3 *)
    let ay := t1 in
    {| x := ax; y := ay; z := az |}.

(** [from_affine(a)] *)
Definition from_affine (a : Core) : Core :=
  {| x := x a; y := y a; z := Fone |}.

(** [eq(a, b, ctx)] *)
Definition eq (a b : Core) : bool :=
  let a_inf := is_inf a in
  let b_inf := is_inf b in
  if a_inf && b_inf then true
  else if a_inf || b_inf then false
  else if bool_decide (z a = z b)
  then bool_decide (x a = x b) && bool_decide (y a = y b)
  else
    let tc := Fmul (z a) (z a) in   (* z1^2 *)
    let td := Fmul (z b) (z b) in   (* z2^2 *)
    let ta := Fmul (x a) td in      (* x1 z2^2 *)
    let tb := Fmul (x b) tc in      (* x2 z1^2 *)
    if negb (bool_decide (ta = tb)) then false
    else
      let ta := Fmul tc (z a) in    (* z1^3 *)
      let tb := Fmul td (z b) in    (* z2^3 *)
      let tc := Fmul (y a) tb in    (* y1 z2^3 *)
      let td := Fmul (y b) ta in    (* y2 z1^3 *)
      if negb (bool_decide (tc = td)) then false else true.

(** [add_distinct(a, b, c, ctx)] *)
Definition add_distinct (b c : Core) : Core :=
  let tc := Fmul (z c) (z c) in     (* z2^2 *)
  let t := Fmul tc (z c) in         (* z2^3 *)
  let ta := Fmul tc (x b) in        (* a = x1 z2^2 *)
  let tc := Fmul t (y b) in         (* c = y1 z2^3 *)
  let td := Fmul (z b) (z b) in     (* z1^2 *)
  let t := Fmul td (z b) in         (* z1^3 *)
  let tb := Fmul td (x c) in        (* b = x2 z1^2 *)
  let td := Fmul t (y c) in         (* d = y2 z1^3 *)
  add_distinct_inner b c ta tb tc td.

(** [add_self(a, b, ctx)] *)
Definition add_self (b : Core) : Core :=
  let t5 := Fmul (z b) (z b) in     (* z1^2 *)
  let t4 := Fmul t5 t5 in           (* z1^4 *)
  let t5 := Fmul A t4 in            (* A z1^4 *)
  let t4 := Fmul (x b) (x b) in     (* x1^2 *)
  let t5 := Fadd t5 t4 in           (* x1^2 + A z1^4 *)
  let t5 := Fadd t5 t4 in           (* 2 x1^2 + A z1^4 *)
  let t5 := Fadd t5 t4 in           (* b = 3 x1^2 + A z1^4 *)
  let az := Fmul (y b) (y b) in     (* y1^2 *)
  let t4 := Fmul (x b) az in        (* x1 y1^2 *)
  let t4 := Fmul_pow2 2 t4 in       (* a = 4 x1 y1^2 *)
  let ay := Fadd t4 t4 in           (* 2 a *)
  let ax := Fmul t5 t5 in           (* b^2 *)
  let ax := Fsub ax ay in           (* x = b^2 - 2 a *)
  let t4 := Fsub t4 ax in           (* a - x *)
  let ay := Fmul t5 t4 in           (* b (a - x) *)
  let t4 := Fmul az az in           (* y1^4 *)
  let t4 := Fmul_pow2 3 t4 in       (* 8 y1^4 *)
  let ay := Fsub ay t4 in           (* y = b (a - x) - 8 y1^4 *)
  let az := Fmul (y b) (z b) in     (* y1 z1 *)
  let az := Fmul_pow2 1 az in       (* z = 2 y1 z1 *)
  {| x := ax; y := ay; z := az |}.

(** [add(a, b, c, ctx)] *)
Definition add (b c : Core) : Core :=
  if is_inf b then c
  else if is_inf c then b
  else
    let tc := Fmul (z c) (z c) in   (* z2^2 *)
    let t := Fmul tc (z c) in       (* z2^3 *)
    let ta := Fmul tc (x b) in      (* a = x1 z2^2 *)
    let tc := Fmul t (y b) in       (* c = y1 z2^3 *)
    let td := Fmul (z b) (z b) in   (* z1^2 *)
    let t := Fmul td (z b) in       (* z1^3 *)
    let tb := Fmul td (x c) in      (* b = x2 z1^2 *)
    let td := Fmul t (y c) in       (* d = y2 z1^3 *)
    if bool_decide (ta = tb) && bool_decide (tc = td)
    then add_self b
    else add_distinct_inner b c ta tb tc td.

(** [neg(a, b)], as written: [a.x() = b.y(); FIELD_T::neg(a.y(), b.y());
    a.z() = b.z();] *)
Definition neg (b : Core) : Core :=
  {| x := y b; y := Fneg (y b); z := z b |}.

(** [neg] copies [b.y()] into [a.x()]. *)
Lemma neg_fields b :
  x (neg b) = y b /\ y (neg b) = Fneg (y b) /\ z (neg b) = z b.
Proof. repeat split. Qed.

(** C3 (amended): [to_affine] does nothing on the point at infinity or when
    [z = 1]; otherwise it sets [x] to [x z^-2], [y] to [y z^-3] and
    overwrites [z] with [z^-1]; [from_affine] sets [z] to 1 and keeps [x]
    and [y]. *)
Theorem to_affine_from_affine_spec (p : Core) :
  to_affine p
  = (if is_inf p || is_mul_id (z p) then p
     else {| x := Fmul (x p) (Fmul (Finv (z p)) (Finv (z p)));
             y := Fmul (y p)
                    (Fmul (Fmul (Finv (z p)) (Finv (z p))) (Finv (z p)));
             z := Finv (z p) |}) /\
  from_affine p = {| x := x p; y := y p; z := Fone |}.
Proof.
  split; [|reflexivity].
  unfold to_affine. destruct (is_inf p || is_mul_id (z p)); reflexivity.
Qed.

(** With the field laws of multiplication and inversion, the coordinates
    written by [to_affine] are the quotients [x / z^2] and [y / z^3]. *)
Lemma to_affine_quotients (p : Core) :
  (forall a b, Fmul a b = Fmul b a) ->
  (forall a b c, Fmul (Fmul a b) c = Fmul a (Fmul b c)) ->
  (forall a, Fmul a Fone = a) ->
  (forall a, a <> Fzero -> Fmul a (Finv a) = Fone) ->
  is_inf p = false -> is_mul_id (z p) = false ->
  Fmul (x (to_affine p)) (Fmul (z p) (z p)) = x p /\
  Fmul (y (to_affine p)) (Fmul (Fmul (z p) (z p)) (z p)) = y p /\
  z (to_affine p) = Finv (z p).
Proof.
  intros Hcomm Hassoc Hone Hinv Hinf Hid.
  unfold to_affine. rewrite Hinf, Hid. cbn [orb x y z].
  assert (Hz : z p <> Fzero).
  { unfold is_inf, is_zero in Hinf. apply bool_decide_eq_false in Hinf.
    exact Hinf. }
  specialize (Hinv (z p) Hz). set (i := Finv (z p)) in *.
  set (w := z p) in *.
  assert (Hiw : Fmul i w = Fone) by (rewrite Hcomm; exact Hinv).
  assert (H2 : Fmul (Fmul i i) (Fmul w w) = Fone).
  { rewrite Hassoc, <- (Hassoc i w w), Hiw, (Hcomm Fone w), Hone.
    exact Hiw. }
  repeat split.
  - rewrite Hassoc, H2. apply Hone.
  - rewrite Hassoc.
    replace (Fmul (Fmul (Fmul i i) i) (Fmul (Fmul w w) w)) with Fone;
      [apply Hone|].
    rewrite (Hassoc (Fmul i i) i), <- (Hassoc i (Fmul w w) w).
    rewrite (Hcomm i (Fmul w w)), (Hassoc (Fmul w w) i w), Hiw, Hone.
    symmetry. exact H2.
Qed.

Lemma add_distinct_unfold b c :
  add_distinct b c
  = add_distinct_inner b c
      (Fmul (Fmul (z c) (z c)) (x b))
      (Fmul (Fmul (z b) (z b)) (x c))
      (Fmul (Fmul (Fmul (z c) (z c)) (z c)) (y b))
      (Fmul (Fmul (Fmul (z b) (z b)) (z b)) (y c)).
Proof. reflexivity. Qed.

(** The chord formula puts [z1 z2 (tb - ta)] into [z]. *)
Lemma add_distinct_inner_z b c t1 t2 t3 t4 :
  z (add_distinct_inner b c t1 t2 t3 t4)
  = Fmul (Fmul (z b) (z c)) (Fsub t2 t1).
Proof. reflexivity. Qed.

Lemma add_self_z b :
  z (add_self b) = Fmul_pow2 1 (Fmul (y b) (z b)).
Proof. reflexivity. Qed.

(** *** The mixin over a field *)

Section Laws.

(** What the formulas need of [FIELD_T]: a commutative ring without zero
    divisors in which [1 <> 0], [inv] inverts the nonzero elements and
    [mul_pow2<K>] doubles [K] times. *)
Record field_laws : Prop := {
  F_ring : ring_theory Fzero Fone Fadd Fmul Fsub Fneg (@Logic.eq FIELD_T);
  F_domain : forall a b, Fmul a b = Fzero -> a = Fzero \/ b = Fzero;
  F_one_neq_zero : Fone <> Fzero;
  F_inv : forall a, a <> Fzero -> Fmul a (Finv a) = Fone;
  F_mul_pow2_0 : forall a, Fmul_pow2 0 a = a;
  F_mul_pow2_S : forall k a, Fmul_pow2 (S k) a = Fmul_pow2 k (Fadd a a)
}.

Hypothesis laws : field_laws.

Add Ring FIELD_T_ring : (F_ring laws).

Local Notation "0" := Fzero.
Local Notation "1" := Fone.
Local Infix "+" := Fadd.
Local Infix "-" := Fsub.
Local Infix "*" := Fmul.

(** The two sides that [on_curve] compares. *)
Definition curve_lhs (a : Core) : FIELD_T := y a * y a.
Definition curve_rhs (a : Core) : FIELD_T :=
  x a * x a * x a + A * (x a * (z a * z a * (z a * z a)))
  + B * (z a * z a * (z a * z a * (z a * z a))).

Lemma on_curve_true a : on_curve a = true <-> curve_lhs a = curve_rhs a.
Proof. unfold on_curve. cbv zeta. apply bool_decide_eq_true. Qed.

Lemma is_inf_true a : is_inf a = true <-> z a = 0.
Proof. unfold is_inf, is_zero. apply bool_decide_eq_true. Qed.

Lemma is_inf_false a : is_inf a = false <-> z a <> 0.
Proof. unfold is_inf, is_zero. apply bool_decide_eq_false. Qed.

Lemma Fsub_eq a b : a - b = 0 -> a = b.
Proof. intros H. replace a with (a - b + b) by ring. rewrite H. ring. Qed.

Lemma Fmul_nonzero a b : a <> 0 -> b <> 0 -> a * b <> 0.
Proof. intros Ha Hb H. destruct (F_domain laws a b H); contradiction. Qed.

Lemma Fmul_cancel_l c a b : c <> 0 -> c * a = c * b -> a = b.
Proof.
  intros Hc H. apply Fsub_eq.
  destruct (F_domain laws c (a - b)) as [H0|H0]; [|contradiction|exact H0].
  replace (c * (a - b)) with (c * a - c * b) by ring. rewrite H. ring.
Qed.

(** The cross-multiplied comparison of [eq], which its shortcut for
    [z1 == z2] agrees with. *)
Definition same_point (a b : Core) : Prop :=
  x a * (z b * z b) = x b * (z a * z a) /\
  y a * (z b * z b * z b) = y b * (z a * z a * z a).

Lemma eq_finite a b :
  z a <> 0 -> z b <> 0 -> (eq a b = true <-> same_point a b).
Proof.
  intros Ha Hb. unfold eq, same_point. cbv zeta.
  rewrite (proj2 (is_inf_false a) Ha), (proj2 (is_inf_false b) Hb).
  cbn [andb orb].
  destruct (decide (z a = z b)) as [Hz|Hz].
  - rewrite (bool_decide_eq_true_2 _ Hz). rewrite andb_true_iff.
    rewrite !bool_decide_eq_true. rewrite <- Hz. split.
    + intros [-> ->]. split; reflexivity.
    + intros [Hx Hy]. split.
      * apply (Fmul_cancel_l (z a * z a)); [apply Fmul_nonzero; exact Ha|].
        rewrite (Rmul_comm (F_ring laws) _ (x a)), Hx. ring.
      * apply (Fmul_cancel_l (z a * z a * z a)).
        { repeat apply Fmul_nonzero; exact Ha. }
        rewrite (Rmul_comm (F_ring laws) _ (y a)), Hy. ring.
  - rewrite (bool_decide_eq_false_2 _ Hz).
    destruct (decide (x a * (z b * z b) = x b * (z a * z a))) as [Hx|Hx].
    + rewrite (bool_decide_eq_true_2 _ Hx). cbn [negb].
      destruct (decide (y a * (z b * z b * z b) = y b * (z a * z a * z a)))
        as [Hy|Hy].
      * rewrite (bool_decide_eq_true_2 _ Hy). cbn [negb]. tauto.
      * rewrite (bool_decide_eq_false_2 _ Hy). cbn [negb].
        split; [discriminate | tauto].
    + rewrite (bool_decide_eq_false_2 _ Hx). cbn [negb].
      split; [discriminate | tauto].
Qed.

Lemma eq_inf_l a b : z a = 0 -> eq a b = is_inf b.
Proof.
  intros Ha. unfold eq. cbv zeta. rewrite (proj2 (is_inf_true a) Ha).
  destruct (is_inf b); reflexivity.
Qed.

Lemma eq_inf_r a b : z b = 0 -> eq a b = is_inf a.
Proof.
  intros Hb. unfold eq. cbv zeta. rewrite (proj2 (is_inf_true b) Hb).
  destruct (is_inf a); reflexivity.
Qed.

Lemma eq_refl_point a : eq a a = true.
Proof.
  destruct (decide (z a = 0)) as [Hz|Hz].
  - rewrite (eq_inf_l a a Hz). apply is_inf_true. exact Hz.
  - apply (eq_finite a a Hz Hz). split; reflexivity.
Qed.

Lemma eq_sym_point a b : eq a b = eq b a.
Proof.
  destruct (decide (z a = 0)) as [Ha|Ha].
  { rewrite (eq_inf_l a b Ha), (eq_inf_r b a Ha). reflexivity. }
  destruct (decide (z b = 0)) as [Hb|Hb].
  { rewrite (eq_inf_r a b Hb), (eq_inf_l b a Hb). reflexivity. }
  apply eq_true_iff_eq.
  rewrite (eq_finite a b Ha Hb), (eq_finite b a Hb Ha).
  unfold same_point. split; intros [H1 H2]; split; congruence.
Qed.

Lemma same_point_trans a b c :
  z b <> 0 -> same_point a b -> same_point b c -> same_point a c.
Proof.
  intros Hb [Hx1 Hy1] [Hx2 Hy2]. split.
  - apply (Fmul_cancel_l (z b * z b)); [apply Fmul_nonzero; exact Hb|].
    transitivity (x a * (z b * z b) * (z c * z c)); [ring|].
    rewrite Hx1.
    transitivity (x b * (z c * z c) * (z a * z a)); [ring|].
    rewrite Hx2. ring.
  - apply (Fmul_cancel_l (z b * z b * z b)).
    { repeat apply Fmul_nonzero; exact Hb. }
    transitivity (y a * (z b * z b * z b) * (z c * z c * z c)); [ring|].
    rewrite Hy1.
    transitivity (y b * (z c * z c * z c) * (z a * z a * z a)); [ring|].
    rewrite Hy2. ring.
Qed.

Lemma eq_trans_point a b c :
  eq a b = true -> eq b c = true -> eq a c = true.
Proof.
  intros Hab Hbc.
  destruct (decide (z a = 0)) as [Ha|Ha].
  { rewrite (eq_inf_l a b Ha) in Hab. apply is_inf_true in Hab.
    rewrite (eq_inf_l b c Hab) in Hbc.
    rewrite (eq_inf_l a c Ha). exact Hbc. }
  destruct (decide (z b = 0)) as [Hb|Hb].
  { rewrite (eq_inf_r a b Hb) in Hab. apply is_inf_true in Hab.
    contradiction. }
  destruct (decide (z c = 0)) as [Hc|Hc].
  { rewrite (eq_inf_r b c Hc) in Hbc. apply is_inf_true in Hbc.
    contradiction. }
  apply (eq_finite a c Ha Hc).
  apply (same_point_trans a b c Hb).
  - apply (eq_finite a b Ha Hb). exact Hab.
  - apply (eq_finite b c Hb Hc). exact Hbc.
Qed.

(** X10: [eq(a, b, ctx)] is an equivalence relation on the points: reflexive
    and symmetric as written, transitive over a field (the comparison
    cross-multiplies by the [z] coordinates, which cancel). *)
Theorem eq_equivalence :
  (forall a, eq a a = true) /\
  (forall a b, eq a b = eq b a) /\
  (forall a b c, eq a b = true -> eq b c = true -> eq a c = true).
Proof.
  split; [exact eq_refl_point|]. split; [exact eq_sym_point|].
  exact eq_trans_point.
Qed.

(** [a] with its coordinates rescaled by [l]: [(l^2 x, l^3 y, l z)]. *)
Definition rescale (l : FIELD_T) (a : Core) : Core :=
  {| x := l * l * x a; y := l * l * l * y a; z := l * z a |}.

Lemma eq_rescale_r l a : l <> 0 -> z a <> 0 -> eq a (rescale l a) = true.
Proof.
  intros Hl Ha. apply eq_finite; [exact Ha | |].
  - cbn [rescale z]. apply Fmul_nonzero; assumption.
  - unfold same_point, rescale. cbn [x y z]. split; ring.
Qed.

Lemma same_point_rescale a b :
  z a <> 0 -> z b <> 0 -> same_point a b ->
  b = rescale (z b * Finv (z a)) a.
Proof.
  intros Ha Hb [Hx Hy].
  pose proof (F_inv laws (z a) Ha) as Hi. set (i := Finv (z a)) in *.
  destruct b as [xb yb zb]. cbn [x y z] in *. unfold rescale. cbn [x y z].
  f_equal.
  - transitivity (xb * (z a * z a) * (i * i)).
    + transitivity (xb * ((z a * i) * (z a * i))); [|ring].
      rewrite Hi. ring.
    + rewrite <- Hx. ring.
  - transitivity (yb * (z a * z a * z a) * (i * i * i)).
    + transitivity (yb * ((z a * i) * (z a * i) * (z a * i))); [|ring].
      rewrite Hi. ring.
    + rewrite <- Hy. ring.
  - transitivity (zb * (z a * i)); [|ring]. rewrite Hi. ring.
Qed.

(** X11: For points other than infinity, [eq(a, b, ctx)] holds exactly when [b]
    is [a] with its coordinates rescaled, [(l^2 x, l^3 y, l z)] for some
    [l <> 0]: the Jacobian representations of one affine point. *)
Theorem eq_iff_rescale a b :
  is_inf a = false -> is_inf b = false ->
  (eq a b = true <-> exists l, l <> 0 /\ b = rescale l a).
Proof.
  intros Ha Hb. apply is_inf_false in Ha, Hb. split.
  - intros Heq. apply (eq_finite a b Ha Hb) in Heq.
    exists (z b * Finv (z a)). split.
    + apply Fmul_nonzero; [exact Hb|]. intros Hi.
      pose proof (F_inv laws (z a) Ha) as Hinv. rewrite Hi in Hinv.
      apply (F_one_neq_zero laws). rewrite <- Hinv. ring.
    + apply same_point_rescale; assumption.
  - intros (l & Hl & ->). apply eq_rescale_r; assumption.
Qed.

(** X12: [to_affine] followed by [from_affine], the pairing the comment in
    [to_affine] asks for: on a point other than infinity the result has
    [z = 1] and is [eq] to the point; on a point at infinity [to_affine]
    does nothing and [from_affine] then sets [z] to 1, so the result is no
    longer at infinity and not [eq] to the point. *)
Theorem to_affine_from_affine_round_trip a :
  z (from_affine (to_affine a)) = 1 /\
  (is_inf a = false -> eq (from_affine (to_affine a)) a = true) /\
  (is_inf a = true ->
   from_affine (to_affine a) = {| x := x a; y := y a; z := 1 |} /\
   is_inf (from_affine (to_affine a)) = false /\
   eq (from_affine (to_affine a)) a = false).
Proof.
  split; [reflexivity|]. split.
  - intros Ha. pose proof (proj1 (is_inf_false a) Ha) as Hz.
    assert (H1 : z (from_affine (to_affine a)) <> 0)
      by exact (F_one_neq_zero laws).
    apply (eq_finite _ a H1 Hz).
    unfold to_affine. rewrite Ha. cbn [orb].
    destruct (is_mul_id (z a)) eqn:Hid.
    + unfold is_mul_id in Hid. apply bool_decide_eq_true in Hid.
      unfold same_point, from_affine. cbn [x y z]. rewrite Hid. split; ring.
    + pose proof (F_inv laws (z a) Hz) as Hi. set (i := Finv (z a)) in *.
      unfold same_point, from_affine. cbv zeta. cbn [x y z]. split.
      * transitivity (x a * ((z a * i) * (z a * i))); [ring|].
        rewrite Hi. ring.
      * transitivity (y a * ((z a * i) * (z a * i) * (z a * i))); [ring|].
        rewrite Hi. ring.
  - intros Ha. unfold to_affine. rewrite Ha. cbn [orb].
    assert (Hfin : is_inf (from_affine a) = false).
    { apply is_inf_false. exact (F_one_neq_zero laws). }
    split; [reflexivity|]. split; [exact Hfin|].
    rewrite (eq_inf_r _ a (proj1 (is_inf_true a) Ha)). exact Hfin.
Qed.

Lemma curve_rescale l a :
  curve_lhs (rescale l a) - curve_rhs (rescale l a)
  = l * l * l * (l * l * l) * (curve_lhs a - curve_rhs a).
Proof. unfold curve_lhs, curve_rhs, rescale. cbn [x y z]. ring. Qed.

Lemma on_curve_rescale l a :
  l <> 0 -> on_curve (rescale l a) = on_curve a.
Proof.
  intros Hl. apply eq_true_iff_eq. rewrite !on_curve_true.
  pose proof (curve_rescale l a) as H. split; intros He.
  - rewrite He in H.
    replace (curve_rhs (rescale l a) - curve_rhs (rescale l a)) with 0
      in H by ring.
    symmetry in H. apply (F_domain laws) in H as [H|H].
    + exfalso. revert H. repeat apply Fmul_nonzero; exact Hl.
    + apply Fsub_eq. exact H.
  - apply Fsub_eq. rewrite H, He. ring.
Qed.

(** X13: [on_curve] does not depend on the representation: two points other
    than infinity that are [eq] are both on the curve or both off it. *)
Theorem on_curve_respects_eq a b :
  is_inf a = false -> is_inf b = false -> eq a b = true ->
  on_curve a = on_curve b.
Proof.
  intros Ha Hb Heq.
  pose proof (proj1 (is_inf_false a) Ha) as Hza.
  pose proof (proj1 (is_inf_false b) Hb) as Hzb.
  apply (eq_finite a b Hza Hzb) in Heq.
  rewrite (same_point_rescale a b Hza Hzb Heq). symmetry.
  apply on_curve_rescale.
  apply Fmul_nonzero; [exact Hzb|]. intros Hi.
  pose proof (F_inv laws (z a) Hza) as Hinv. rewrite Hi in Hinv.
  apply (F_one_neq_zero laws). rewrite <- Hinv. ring.
Qed.

Lemma Fmul_pow2_1 a : Fmul_pow2 (S O) a = a + a.
Proof. rewrite (F_mul_pow2_S laws), (F_mul_pow2_0 laws). reflexivity. Qed.

Lemma Fmul_pow2_2 a : Fmul_pow2 (S (S O)) a = a + a + (a + a).
Proof. rewrite (F_mul_pow2_S laws), Fmul_pow2_1. reflexivity. Qed.

Lemma Fmul_pow2_3 a :
  Fmul_pow2 (S (S (S O))) a = a + a + (a + a) + (a + a + (a + a)).
Proof. rewrite (F_mul_pow2_S laws), Fmul_pow2_2. reflexivity. Qed.

Lemma add_self_coords b :
  add_self b
  = let s := 1 + 1 + 1 in
    let bb := s * (x b * x b) + A * (z b * z b * (z b * z b)) in
    let aa := (1 + 1) * (1 + 1) * (x b * (y b * y b)) in
    let xx := bb * bb - (1 + 1) * aa in
    {| x := xx;
       y := bb * (aa - xx)
            - (1 + 1) * (1 + 1) * (1 + 1) * (y b * y b * (y b * y b));
       z := (1 + 1) * (y b * z b) |}.
Proof.
  unfold add_self. cbv zeta.
  change 3%nat with (S (S (S O))). change 2%nat with (S (S O)).
  change 1%nat with (S O).
  rewrite Fmul_pow2_1, Fmul_pow2_2, Fmul_pow2_3.
  f_equal; ring.
Qed.

Lemma curve_add_self b :
  curve_lhs (add_self b) - curve_rhs (add_self b)
  = let yy := (1 + 1) * (y b) in
    yy * yy * yy * (yy * yy * yy) * (curve_lhs b - curve_rhs b).
Proof.
  rewrite add_self_coords. unfold curve_lhs, curve_rhs. cbv zeta.
  cbn [x y z]. ring.
Qed.

(** X14: Doubling stays on the curve: [add_self] of a point that satisfies
    [on_curve] satisfies [on_curve]. *)
Theorem add_self_on_curve b :
  on_curve b = true -> on_curve (add_self b) = true.
Proof.
  rewrite !on_curve_true. intros Hb. apply Fsub_eq.
  rewrite curve_add_self, Hb. cbv zeta. ring.
Qed.

Lemma add_distinct_coords b c :
  add_distinct b c
  = let ta := x b * (z c * z c) in
    let tb := x c * (z b * z b) in
    let tc := y b * (z c * z c * z c) in
    let td := y c * (z b * z b * z b) in
    let e := tb - ta in
    let f := td - tc in
    let xx := f * f - (1 + 1) * ta * (e * e) - e * e * e in
    {| x := xx;
       y := f * (ta * (e * e) - xx) - tc * (e * e * e);
       z := z b * z c * e |}.
Proof.
  rewrite add_distinct_unfold. unfold add_distinct_inner. cbv zeta.
  f_equal; ring.
Qed.

Lemma curve_add_distinct b c :
  curve_lhs (add_distinct b c) - curve_rhs (add_distinct b c)
  = let ta := x b * (z c * z c) in
    let tb := x c * (z b * z b) in
    let tc := y b * (z c * z c * z c) in
    let td := y c * (z b * z b * z b) in
    let e := tb - ta in
    let f := td - tc in
    let zb6 := z b * z b * z b * (z b * z b * z b) in
    let zc6 := z c * z c * z c * (z c * z c * z c) in
    e * e * e
    * (((ta + (1 + 1) * tb) * (e * e) - f * f)
       * (zc6 * (curve_lhs b - curve_rhs b))
       + (f * f - ((1 + 1) * ta + tb) * (e * e))
         * (zb6 * (curve_lhs c - curve_rhs c))).
Proof.
  rewrite add_distinct_coords. unfold curve_lhs, curve_rhs. cbv zeta.
  cbn [x y z]. ring.
Qed.

(** X15: The chord formula stays on the curve: [add_distinct] of two points
    that satisfy [on_curve] satisfies [on_curve] (also when the formula
    degenerates, for equal or opposite points, to a point at infinity). *)
Theorem add_distinct_on_curve b c :
  on_curve b = true -> on_curve c = true ->
  on_curve (add_distinct b c) = true.
Proof.
  rewrite !on_curve_true. intros Hb Hc. apply Fsub_eq.
  rewrite curve_add_distinct, Hb, Hc. cbv zeta. ring.
Qed.

(** [add] with its branch condition in the form of [same_point]. *)
Lemma add_finite b c :
  z b <> 0 -> z c <> 0 ->
  (same_point b c -> add b c = add_self b) /\
  (~ same_point b c -> add b c = add_distinct b c).
Proof.
  intros Hb Hc.
  pose proof (proj2 (is_inf_false b) Hb) as Ib.
  pose proof (proj2 (is_inf_false c) Hc) as Ic.
  assert (Hx : z c * z c * x b = z b * z b * x c
               <-> x b * (z c * z c) = x c * (z b * z b)).
  { rewrite (Rmul_comm (F_ring laws) (z c * z c)),
      (Rmul_comm (F_ring laws) (z b * z b)). reflexivity. }
  assert (Hy : z c * z c * z c * y b = z b * z b * z b * y c
               <-> y b * (z c * z c * z c) = y c * (z b * z b * z b)).
  { rewrite (Rmul_comm (F_ring laws) (z c * z c * z c)),
      (Rmul_comm (F_ring laws) (z b * z b * z b)). reflexivity. }
  unfold same_point. split.
  - intros [H1 H2]. unfold add. rewrite Ib, Ic. cbv zeta.
    rewrite (bool_decide_eq_true_2 _ (proj2 Hx H1)).
    rewrite (bool_decide_eq_true_2 _ (proj2 Hy H2)). reflexivity.
  - intros Hn. rewrite add_distinct_unfold. unfold add.
    rewrite Ib, Ic. cbv zeta.
    destruct (decide (z c * z c * x b = z b * z b * x c)) as [H1|H1].
    + destruct (decide (z c * z c * z c * y b = z b * z b * z b * y c))
        as [H2|H2]; [tauto|].
      rewrite (bool_decide_eq_false_2 _ H2), andb_false_r. reflexivity.
    + rewrite (bool_decide_eq_false_2 _ H1). reflexivity.
Qed.

(** C4: the generic [add] over a field with [1 + 1 <> 0].  [add_self] is
    the doubling [A = 4 x y^2], [B = 3 x^2 + A_curve z^4], [x' = B^2 - 2 A],
    [y' = B (A - x') - 8 y^4], [z' = 2 y z], and [add_distinct] is the chord
    formula: with [ta = x1 z2^2], [tb = x2 z1^2], [tc = y1 z2^3],
    [td = y2 z1^3], [e = tb - ta] and [f = td - tc],
    [x3 = f^2 - 2 ta e^2 - e^3], [y3 = f (ta e^2 - x3) - tc e^3],
    [z3 = z1 z2 e].  If [p] is the point at infinity [add] returns [q];
    else if [q] is, it returns [p]; else if [ta = tb] and [tc = td] it
    returns the doubling of [p]; if [ta = tb] and [tc = - td] it returns a
    point at infinity; and otherwise it returns the chord formula applied
    to [p] and [q]. *)
Theorem add_case_analysis (p q : Core) :
  1 + 1 <> 0 ->
  let two := 1 + 1 in
  let ta := x p * (z q * z q) in
  let tb := x q * (z p * z p) in
  let tc := y p * (z q * z q * z q) in
  let td := y q * (z p * z p * z p) in
  let da := two * two * (x p * (y p * y p)) in
  let db := (two + 1) * (x p * x p) + A * (z p * z p * (z p * z p)) in
  let dx := db * db - two * da in
  let doubling :=
    {| x := dx;
       y := db * (da - dx) - two * two * two * (y p * y p * (y p * y p));
       z := two * (y p * z p) |} in
  let e := tb - ta in
  let f := td - tc in
  let cx := f * f - two * ta * (e * e) - e * e * e in
  let chord :=
    {| x := cx;
       y := f * (ta * (e * e) - cx) - tc * (e * e * e);
       z := z p * z q * e |} in
  add_self p = doubling /\
  add_distinct p q = chord /\
  (is_inf p = true -> add p q = q) /\
  (is_inf p = false -> is_inf q = true -> add p q = p) /\
  (is_inf p = false -> is_inf q = false ->
   (ta = tb /\ tc = td -> add p q = add_self p /\ add p q = doubling) /\
   (ta = tb /\ tc = Fneg td ->
    is_inf (add p q) = true /\ eq (add p q) set_inf = true) /\
   (~ (ta = tb /\ tc = td) ->
    add p q = add_distinct p q /\ add p q = chord)).
Proof.
  intros H2. cbv zeta.
  pose proof (add_self_coords p) as Hdbl. cbv zeta in Hdbl.
  pose proof (add_distinct_coords p q) as Hchord. cbv zeta in Hchord.
  split; [exact Hdbl|]. split; [exact Hchord|]. split; [|split].
  - intros Hp. unfold add. rewrite Hp. reflexivity.
  - intros Hp Hq. unfold add. rewrite Hp, Hq. reflexivity.
  - intros Hp Hq.
    pose proof (proj1 (is_inf_false p) Hp) as Zp.
    pose proof (proj1 (is_inf_false q) Hq) as Zq.
    destruct (add_finite p q Zp Zq) as [Hself Hdist].
    unfold same_point in Hself, Hdist.
    split; [|split].
    + intros Hs. rewrite (Hself Hs). split; [reflexivity | exact Hdbl].
    + intros [Hab Hneg].
      assert (Hz : z (add p q) = 0).
      { destruct (decide (y p * (z q * z q * z q)
                          = y q * (z p * z p * z p))) as [Hcd|Hcd].
        - (* [tc = td = - td]: [y1 = 0] and the doubling has [z = 0] *)
          rewrite (Hself (conj Hab Hcd)), Hdbl. cbn [z].
          assert (Htd : y q * (z p * z p * z p) = 0).
          { rewrite Hcd in Hneg.
            destruct (F_domain laws (1 + 1) (y q * (z p * z p * z p)))
              as [H|H]; [|contradiction|exact H].
            replace ((1 + 1) * (y q * (z p * z p * z p)))
              with (y q * (z p * z p * z p)
                    - Fneg (y q * (z p * z p * z p))) by ring.
            rewrite <- Hneg. ring. }
          rewrite Htd in Hcd.
          assert (Hy : y p = 0).
          { destruct (F_domain laws _ _ Hcd) as [Hy|Hz3]; [exact Hy|].
            exfalso. revert Hz3.
            apply Fmul_nonzero; [apply Fmul_nonzero|]; exact Zq. }
          rewrite Hy. ring.
        - rewrite (Hdist ltac:(tauto)), Hchord. cbn [z].
          rewrite Hab. ring. }
      split; [apply is_inf_true; exact Hz|].
      rewrite (eq_inf_l _ _ Hz). apply is_inf_true. reflexivity.
    + intros Hn. rewrite (Hdist Hn). split; [reflexivity | exact Hchord].
Qed.

(** X16: The generic [add] stays on the curve: the sum of two points that
    satisfy [on_curve] satisfies [on_curve], whichever branch is taken. *)
Theorem add_on_curve b c :
  on_curve b = true -> on_curve c = true -> on_curve (add b c) = true.
Proof.
  intros Hb Hc.
  destruct (decide (z b = 0)) as [Zb|Zb].
  { unfold add. rewrite (proj2 (is_inf_true b) Zb). exact Hc. }
  destruct (decide (z c = 0)) as [Zc|Zc].
  { unfold add. rewrite (proj2 (is_inf_false b) Zb).
    rewrite (proj2 (is_inf_true c) Zc). exact Hb. }
  destruct (add_finite b c Zb Zc) as [Hself Hdist].
  destruct (decide (x b * (z c * z c) = x c * (z b * z b))) as [H1|H1].
  - destruct (decide (y b * (z c * z c * z c) = y c * (z b * z b * z b)))
      as [H2|H2].
    + rewrite (Hself (conj H1 H2)). apply on_curve_true, Fsub_eq.
      rewrite curve_add_self, (proj1 (on_curve_true b) Hb). cbv zeta. ring.
    + rewrite Hdist by (intros [_ H]; contradiction).
      apply on_curve_true, Fsub_eq.
      rewrite curve_add_distinct, (proj1 (on_curve_true b) Hb),
        (proj1 (on_curve_true c) Hc). cbv zeta. ring.
  - rewrite Hdist by (intros [H _]; contradiction).
    apply on_curve_true, Fsub_eq.
    rewrite curve_add_distinct, (proj1 (on_curve_true b) Hb),
      (proj1 (on_curve_true c) Hc). cbv zeta. ring.
Qed.

(** X17: The chord formula must not be used for doubling: on two points other
    than infinity that are [eq] (in particular on a point and itself),
    [add_distinct] returns [(0, 0, 0)], the point at infinity. *)
Theorem add_distinct_same_point b c :
  is_inf b = false -> is_inf c = false -> eq b c = true ->
  add_distinct b c = set_inf.
Proof.
  intros Ib Ic Heq.
  apply (eq_finite b c (proj1 (is_inf_false b) Ib)
           (proj1 (is_inf_false c) Ic)) in Heq.
  destruct Heq as [Hx Hy].
  rewrite add_distinct_coords. cbv zeta. rewrite <- Hx, <- Hy.
  unfold set_inf. f_equal; ring.
Qed.

(** X18: [add_self] returns a point at infinity exactly for a point at infinity
    and for the points with [y = 0] (the points of order 2), in a field
    where [1 + 1 <> 0]. *)
Theorem add_self_inf_iff b :
  1 + 1 <> 0 ->
  (is_inf (add_self b) = true <-> is_inf b = true \/ y b = 0).
Proof.
  intros H2. rewrite !is_inf_true, add_self_z, Fmul_pow2_1. split.
  - intros H.
    assert (H' : (1 + 1) * (y b * z b) = 0) by (rewrite <- H; ring).
    apply (F_domain laws) in H' as [H'|H']; [contradiction|].
    apply (F_domain laws) in H' as [H'|H']; auto.
  - intros [H|H]; rewrite H; ring.
Qed.

Lemma add_self_rescale l b :
  add_self (rescale l b) = rescale (l * l * l * l) (add_self b).
Proof.
  rewrite !add_self_coords. unfold rescale. cbv zeta. cbn [x y z].
  f_equal; ring.
Qed.

Lemma add_distinct_swap b c :
  add_distinct c b
  = {| x := x (add_distinct b c);
       y := Fneg (y (add_distinct b c));
       z := Fneg (z (add_distinct b c)) |}.
Proof. rewrite !add_distinct_coords. cbv zeta. cbn [x y z]. f_equal; ring. Qed.

Lemma eq_negated a b :
  x b = x a -> y b = Fneg (y a) -> z b = Fneg (z a) -> eq a b = true.
Proof.
  intros Hx Hy Hz.
  destruct (decide (z a = 0)) as [Za|Za].
  - rewrite (eq_inf_l a b Za). apply is_inf_true. rewrite Hz, Za. ring.
  - assert (Zb : z b <> 0).
    { rewrite Hz. intros H. apply Za.
      replace (z a) with (Fneg (Fneg (z a))) by ring. rewrite H. ring. }
    apply (eq_finite a b Za Zb). unfold same_point.
    rewrite Hx, Hy, Hz. split; ring.
Qed.

Lemma same_point_sym a b : same_point a b -> same_point b a.
Proof. intros [H1 H2]. split; congruence. Qed.

(** X19: The generic [add] is commutative up to [eq]: [add(p, q)] and
    [add(q, p)] are the same point, possibly in two representations (the
    chord formula gives [(x, -y, -z)] for the swapped arguments). *)
Theorem add_comm_eq b c : eq (add b c) (add c b) = true.
Proof.
  destruct (decide (z b = 0)) as [Zb|Zb].
  { pose proof (proj2 (is_inf_true b) Zb) as Ib.
    assert (H1 : add b c = c) by (unfold add; rewrite Ib; reflexivity).
    rewrite H1.
    destruct (is_inf c) eqn:Ic.
    - assert (H2 : add c b = b) by (unfold add; rewrite Ic; reflexivity).
      rewrite H2, (eq_inf_r c b Zb). exact Ic.
    - assert (H2 : add c b = c) by (unfold add; rewrite Ic, Ib; reflexivity).
      rewrite H2. apply eq_refl_point. }
  destruct (decide (z c = 0)) as [Zc|Zc].
  { pose proof (proj2 (is_inf_true c) Zc) as Ic.
    pose proof (proj2 (is_inf_false b) Zb) as Ib.
    assert (H1 : add b c = b) by (unfold add; rewrite Ib, Ic; reflexivity).
    assert (H2 : add c b = b) by (unfold add; rewrite Ic; reflexivity).
    rewrite H1, H2. apply eq_refl_point. }
  destruct (add_finite b c Zb Zc) as [Hself Hdist].
  destruct (add_finite c b Zc Zb) as [Hself' Hdist'].
  destruct (decide (x b * (z c * z c) = x c * (z b * z b))) as [H1|H1];
    [destruct (decide (y b * (z c * z c * z c) = y c * (z b * z b * z b)))
       as [H2|H2]|].
  - (* doubling on both sides *)
    pose proof (conj H1 H2 : same_point b c) as Hs.
    rewrite (Hself Hs), (Hself' (same_point_sym b c Hs)).
    rewrite (same_point_rescale b c Zb Zc Hs), add_self_rescale.
    set (l := z c * Finv (z b)).
    assert (Hl : l <> 0).
    { apply Fmul_nonzero; [exact Zc|]. intros Hi.
      pose proof (F_inv laws (z b) Zb) as Hinv. rewrite Hi in Hinv.
      apply (F_one_neq_zero laws). rewrite <- Hinv. ring. }
    clearbody l.
    destruct (decide (z (add_self b) = 0)) as [Z2|Z2].
    + rewrite (eq_inf_l _ _ Z2). apply is_inf_true.
      cbn [rescale z]. rewrite Z2. ring.
    + apply eq_rescale_r; [|exact Z2]. repeat apply Fmul_nonzero; exact Hl.
  - rewrite Hdist by (intros [_ H]; contradiction).
    rewrite Hdist' by (intros [_ H]; apply H2; congruence).
    apply eq_negated; rewrite (add_distinct_swap b c); reflexivity.
  - rewrite Hdist by (intros [H _]; contradiction).
    rewrite Hdist' by (intros [H _]; apply H1; congruence).
    apply eq_negated; rewrite (add_distinct_swap b c); reflexivity.
Qed.

Lemma eq_rescale_any l a : l <> 0 -> eq a (rescale l a) = true.
Proof.
  intros Hl. destruct (decide (z a = 0)) as [Za|Za].
  - rewrite (eq_inf_l _ _ Za). apply is_inf_true.
    cbn [rescale z]. rewrite Za. ring.
  - apply eq_rescale_r; assumption.
Qed.

Lemma add_distinct_rescale_l l b c :
  add_distinct (rescale l b) c = rescale (l * l * l) (add_distinct b c).
Proof.
  rewrite !add_distinct_coords. unfold rescale. cbv zeta. cbn [x y z].
  f_equal; ring.
Qed.

Lemma same_point_dec a b : {same_point a b} + {~ same_point a b}.
Proof.
  unfold same_point.
  destruct (decide (x a * (z b * z b) = x b * (z a * z a))) as [H1|H1];
    [|right; tauto].
  destruct (decide (y a * (z b * z b * z b) = y b * (z a * z a * z a)))
    as [H2|H2]; [left | right]; tauto.
Qed.

Lemma add_eq_l b b' c : eq b b' = true -> eq (add b c) (add b' c) = true.
Proof.
  intros Heq.
  destruct (decide (z b = 0)) as [Zb|Zb].
  { pose proof (proj2 (is_inf_true b) Zb) as Ib.
    rewrite (eq_inf_l b b' Zb) in Heq.
    unfold add. rewrite Ib, Heq. apply eq_refl_point. }
  destruct (decide (z b' = 0)) as [Zb'|Zb'].
  { rewrite (eq_inf_r b b' Zb') in Heq. apply is_inf_true in Heq.
    contradiction. }
  pose proof (proj2 (is_inf_false b) Zb) as Ib.
  pose proof (proj2 (is_inf_false b') Zb') as Ib'.
  destruct (decide (z c = 0)) as [Zc|Zc].
  { pose proof (proj2 (is_inf_true c) Zc) as Ic.
    unfold add. rewrite Ib, Ib', Ic. exact Heq. }
  pose proof (proj1 (eq_finite b b' Zb Zb') Heq) as Hs.
  assert (Hl : z b' * Finv (z b) <> 0).
  { apply Fmul_nonzero; [exact Zb'|]. intros Hi.
    pose proof (F_inv laws (z b) Zb) as Hinv. rewrite Hi in Hinv.
    apply (F_one_neq_zero laws). rewrite <- Hinv. ring. }
  destruct (add_finite b c Zb Zc) as [Hself Hdist].
  destruct (add_finite b' c Zb' Zc) as [Hself' Hdist'].
  destruct (same_point_dec b c) as [Hbc|Hbc].
  - assert (Hb'c : same_point b' c).
    { apply (same_point_trans b' b c Zb); [|exact Hbc].
      apply same_point_sym. exact Hs. }
    rewrite (Hself Hbc), (Hself' Hb'c).
    rewrite (same_point_rescale b b' Zb Zb' Hs), add_self_rescale.
    apply eq_rescale_any.
    apply Fmul_nonzero; [apply Fmul_nonzero; [apply Fmul_nonzero|]|];
      exact Hl.
  - assert (Hb'c : ~ same_point b' c).
    { intros H. apply Hbc. exact (same_point_trans b b' c Zb' Hs H). }
    rewrite (Hdist Hbc), (Hdist' Hb'c).
    rewrite (same_point_rescale b b' Zb Zb' Hs), add_distinct_rescale_l.
    apply eq_rescale_any.
    apply Fmul_nonzero; [apply Fmul_nonzero|]; exact Hl.
Qed.

Lemma add_distinct_rescale_r l b c :
  add_distinct b (rescale l c) = rescale (l * l * l) (add_distinct b c).
Proof.
  rewrite !add_distinct_coords. unfold rescale. cbv zeta. cbn [x y z].
  f_equal; ring.
Qed.

Lemma add_eq_r b c c' : eq c c' = true -> eq (add b c) (add b c') = true.
Proof.
  intros Heq.
  destruct (decide (z b = 0)) as [Zb|Zb].
  { pose proof (proj2 (is_inf_true b) Zb) as Ib.
    unfold add. rewrite Ib. exact Heq. }
  pose proof (proj2 (is_inf_false b) Zb) as Ib.
  destruct (decide (z c = 0)) as [Zc|Zc].
  { pose proof (proj2 (is_inf_true c) Zc) as Ic.
    rewrite (eq_inf_l c c' Zc) in Heq.
    unfold add. rewrite Ib, Ic, Heq. apply eq_refl_point. }
  destruct (decide (z c' = 0)) as [Zc'|Zc'].
  { rewrite (eq_inf_r c c' Zc') in Heq. apply is_inf_true in Heq.
    contradiction. }
  pose proof (proj1 (eq_finite c c' Zc Zc') Heq) as Hs.
  assert (Hl : z c' * Finv (z c) <> 0).
  { apply Fmul_nonzero; [exact Zc'|]. intros Hi.
    pose proof (F_inv laws (z c) Zc) as Hinv. rewrite Hi in Hinv.
    apply (F_one_neq_zero laws). rewrite <- Hinv. ring. }
  destruct (add_finite b c Zb Zc) as [Hself Hdist].
  destruct (add_finite b c' Zb Zc') as [Hself' Hdist'].
  destruct (same_point_dec b c) as [Hbc|Hbc].
  - assert (Hbc' : same_point b c')
      by exact (same_point_trans b c c' Zc Hbc Hs).
    rewrite (Hself Hbc), (Hself' Hbc'). apply eq_refl_point.
  - assert (Hbc' : ~ same_point b c').
    { intros H. apply Hbc.
      apply (same_point_trans b c' c Zc' H). apply same_point_sym. exact Hs. }
    rewrite (Hdist Hbc), (Hdist' Hbc').
    rewrite (same_point_rescale c c' Zc Zc' Hs), add_distinct_rescale_r.
    apply eq_rescale_any.
    apply Fmul_nonzero; [apply Fmul_nonzero|]; exact Hl.
Qed.

(** X20: The generic [add] is well defined on the points up to [eq]: equal
    arguments, in whatever representation, give equal sums. *)
Theorem add_respects_eq b b' c c' :
  eq b b' = true -> eq c c' = true -> eq (add b c) (add b' c') = true.
Proof.
  intros Hb Hc.
  apply (eq_trans_point _ (add b' c)).
  - apply add_eq_l. exact Hb.
  - apply add_eq_r. exact Hc.
Qed.

Lemma Finv_nonzero a : a <> 0 -> Finv a <> 0.
Proof.
  intros Ha Hi. pose proof (F_inv laws a Ha) as Hinv. rewrite Hi in Hinv.
  apply (F_one_neq_zero laws). rewrite <- Hinv. ring.
Qed.

Lemma Finv_involutive a : a <> 0 -> Finv (Finv a) = a.
Proof.
  intros Ha. pose proof (Finv_nonzero a Ha) as Hi.
  apply (Fmul_cancel_l (Finv a) _ _ Hi).
  rewrite (F_inv laws _ Hi), (Rmul_comm (F_ring laws)).
  symmetry. exact (F_inv laws a Ha).
Qed.

(** X21: [to_affine] is not idempotent: as it leaves [z^-1] in [z], a second
    call on a point other than infinity with [z <> 1] takes the branch
    that divides again and gives back the coordinates [(x, y, z)] the
    first call started from. *)
Theorem to_affine_twice a :
  is_inf a = false -> is_mul_id (z a) = false ->
  is_inf (to_affine a) = false /\
  is_mul_id (z (to_affine a)) = false /\
  to_affine (to_affine a) = a.
Proof.
  intros Ha Hid. pose proof (proj1 (is_inf_false a) Ha) as Hz.
  pose proof (F_inv laws (z a) Hz) as Hi.
  pose proof (Finv_nonzero (z a) Hz) as Hi0.
  pose proof (Finv_involutive (z a) Hz) as Hii.
  assert (Hta : to_affine a
                = {| x := x a * (Finv (z a) * Finv (z a));
                     y := y a * (Finv (z a) * Finv (z a) * Finv (z a));
                     z := Finv (z a) |}).
  { unfold to_affine. rewrite Ha, Hid. reflexivity. }
  assert (Hinf' : is_inf (to_affine a) = false).
  { apply is_inf_false. rewrite Hta. exact Hi0. }
  assert (Hid' : is_mul_id (z (to_affine a)) = false).
  { unfold is_mul_id. apply bool_decide_eq_false. rewrite Hta. cbn [z].
    intros H1. unfold is_mul_id in Hid. apply bool_decide_eq_false in Hid.
    apply Hid. rewrite H1 in Hi. rewrite <- Hi. ring. }
  split; [exact Hinf'|]. split; [exact Hid'|].
  unfold to_affine at 1. rewrite Hinf', Hid'. cbn [orb]. cbv zeta.
  rewrite Hta. cbn [x y z]. rewrite Hii.
  destruct a as [xa ya za]. cbn [x y z] in *. f_equal.
  - transitivity (xa * ((za * Finv za) * (za * Finv za))); [ring|].
    rewrite Hi. ring.
  - transitivity (ya * ((za * Finv za) * (za * Finv za) * (za * Finv za)));
      [ring|].
    rewrite Hi. ring.
Qed.

End Laws.

End Mixin.
End Jacobain.

(** ** A small instance: curves over the field of 7 elements *)

Module Curve7.
Local Open Scope Z_scope.

(** The field of 7 elements. *)
Inductive F7 : Type := e0 | e1 | e2 | e3 | e4 | e5 | e6.

#[global] Instance F7_eq_dec : EqDecision F7.
Proof. solve_decision. Defined.

Definition to_Z (a : F7) : Z :=
  match a with
  | e0 => 0 | e1 => 1 | e2 => 2 | e3 => 3 | e4 => 4 | e5 => 5 | e6 => 6
  end.

Definition of_Z (v : Z) : F7 :=
  match v mod 7 with
  | 0 => e0 | 1 => e1 | 2 => e2 | 3 => e3 | 4 => e4 | 5 => e5 | _ => e6
  end.

Definition Fadd (a b : F7) : F7 := of_Z (to_Z a + to_Z b).
Definition Fsub (a b : F7) : F7 := of_Z (to_Z a - to_Z b).
Definition Fmul (a b : F7) : F7 := of_Z (to_Z a * to_Z b).
Definition Fneg (a : F7) : F7 := of_Z (- to_Z a).
Definition Finv (a : F7) : F7 := of_Z (to_Z a ^ 5).
Definition Fmul_pow2 (k : nat) (a : F7) : F7 :=
  of_Z (2 ^ Z.of_nat k * to_Z a).

Definition point : Type := @Jacobain.Core F7.
Definition pt (x y z : Z) : point :=
  Jacobain.mkCore (of_Z x) (of_Z y) (of_Z z).

(** The operations on the curve [y^2 = x^3 + A x + B]. *)
Definition is_inf : point -> bool := Jacobain.is_inf e0.
Definition on_curve (A B : Z) : point -> bool :=
  Jacobain.on_curve Fadd Fmul (of_Z A) (of_Z B).
Definition neg : point -> point := Jacobain.neg Fneg.
Definition to_affine : point -> point := Jacobain.to_affine e0 e1 Fmul Finv.
Definition from_affine : point -> point := Jacobain.from_affine e1.
Definition add (A : Z) : point -> point -> point :=
  Jacobain.add e0 Fadd Fsub Fmul Fmul_pow2 (of_Z A).
Definition add_self (A : Z) : point -> point :=
  Jacobain.add_self Fadd Fsub Fmul Fmul_pow2 (of_Z A).
Definition add_distinct : point -> point -> point :=
  Jacobain.add_distinct Fadd Fsub Fmul.

Lemma Fmul_comm a b : Fmul a b = Fmul b a.
Proof. unfold Fmul. rewrite Z.mul_comm. reflexivity. Qed.

Lemma Fsub_diag a : Fsub a a = e0.
Proof. unfold Fsub. rewrite Z.sub_diag. reflexivity. Qed.

Lemma Fmul_0_r a : Fmul a e0 = e0.
Proof. unfold Fmul. cbn [to_Z]. rewrite Z.mul_0_r. reflexivity. Qed.

Lemma Fmul_domain a b : Fmul a b = e0 -> a = e0 \/ b = e0.
Proof. destruct a, b; vm_compute; intros H; auto; discriminate H. Qed.

Lemma Fneg_self a : Fneg a = a -> a = e0.
Proof. destruct a; vm_compute; intros H; auto; discriminate H. Qed.

Lemma Fmul_pow2_0 k : Fmul_pow2 k e0 = e0.
Proof. unfold Fmul_pow2. cbn [to_Z]. rewrite Z.mul_0_r. reflexivity. Qed.

Lemma Fmul_assoc a b c : Fmul (Fmul a b) c = Fmul a (Fmul b c).
Proof. destruct a, b, c; reflexivity. Qed.

Lemma Fmul_1_r a : Fmul a e1 = a.
Proof. destruct a; reflexivity. Qed.

Lemma Finv_r a : a <> e0 -> Fmul a (Finv a) = e1.
Proof. destruct a; intros H; try reflexivity. congruence. Qed.

(** C1 (the code departs from the claim): [neg] should keep [x], negate [y]
    and keep [z].  On the point [(2, 5, 1)] of the curve
    [y^2 = x^3 + x + 1], [neg] writes [b.y()] into [a.x()]: the result is
    [(5, 2, 1)], which is not on the curve, where the negation is
    [(2, 2, 1)]. *)
Theorem neg_writes_y_into_x :
  on_curve 1 1 (pt 2 5 1) = true /\
  neg (pt 2 5 1) = pt 5 2 1 /\
  Jacobain.x (neg (pt 2 5 1)) <> Jacobain.x (pt 2 5 1) /\
  on_curve 1 1 (neg (pt 2 5 1)) = false.
Proof. vm_compute. repeat split. discriminate. Qed.

(** C3 as stated fails: [to_affine] on [(1, 1, 2)], neither at infinity nor
    with [z = 1], does not leave [z] unchanged; the coordinate is
    overwritten with [2^-1 = 4]. *)
Lemma to_affine_overwrites_z :
  is_inf (pt 1 1 2) = false /\
  Jacobain.is_mul_id e1 (Jacobain.z (pt 1 1 2)) = false /\
  to_affine (pt 1 1 2) = pt 2 1 4 /\
  Jacobain.z (to_affine (pt 1 1 2)) <> Jacobain.z (pt 1 1 2).
Proof. vm_compute. repeat split. discriminate. Qed.

(** [to_affine] on the point [(1, 2, 3)], which is [(4, 5)] in affine
    coordinates: [4 * 3^2 = 1] and [5 * 3^3 = 2]. *)
Example to_affine_quotients_7 :
  Fmul (Jacobain.x (to_affine (pt 1 2 3))) (Fmul e3 e3) = e1 /\
  Fmul (Jacobain.y (to_affine (pt 1 2 3))) (Fmul (Fmul e3 e3) e3) = e2 /\
  Jacobain.z (to_affine (pt 1 2 3)) = Finv e3.
Proof.
  exact (Jacobain.to_affine_quotients e0 e1 Fmul Finv (pt 1 2 3)
           Fmul_comm Fmul_assoc Fmul_1_r Finv_r eq_refl eq_refl).
Qed.

End Curve7.

(** ** The field laws on the field of 7 elements *)

Module Curve7Laws.
Import Curve7.
Local Open Scope Z_scope.

Lemma F7_ring : ring_theory e0 e1 Fadd Fmul Fsub Fneg (@Logic.eq F7).
Proof.
  split.
  - intros []; reflexivity.
  - intros [] []; reflexivity.
  - intros [] [] []; reflexivity.
  - intros []; reflexivity.
  - intros [] []; reflexivity.
  - intros [] [] []; reflexivity.
  - intros [] [] []; reflexivity.
  - intros [] []; reflexivity.
  - intros []; reflexivity.
Qed.

Lemma Fmul_pow2_succ (k : nat) (a : F7) :
  Fmul_pow2 (S k) a = Fmul_pow2 k (Fadd a a).
Proof.
  unfold Fmul_pow2, Fadd, of_Z.
  rewrite Nat2Z.inj_succ, Z.pow_succ_r by lia.
  assert (H : forall v, to_Z (match v mod 7 with
                              | 0 => e0 | 1 => e1 | 2 => e2 | 3 => e3
                              | 4 => e4 | 5 => e5 | _ => e6
                              end) = v mod 7).
  { intros v. pose proof (Z.mod_pos_bound v 7 ltac:(lia)) as Hv.
    destruct (v mod 7) as [|p|p]; [reflexivity | | lia].
    destruct p as [[[p|p|]|[p|p|]|]|[[p|p|]|[p|p|]|]|];
      try reflexivity; exfalso; lia. }
  rewrite H.
  replace (2 * 2 ^ Z.of_nat k * to_Z a)%Z
    with (2 ^ Z.of_nat k * (to_Z a + to_Z a))%Z by lia.
  rewrite Z.mul_mod_idemp_r by lia. reflexivity.
Qed.

Lemma F7_laws : Jacobain.field_laws e0 e1 Fadd Fsub Fmul Fneg Finv Fmul_pow2.
Proof.
  split.
  - exact F7_ring.
  - exact Fmul_domain.
  - discriminate.
  - exact Finv_r.
  - intros []; reflexivity.
  - exact Fmul_pow2_succ.
Qed.

Definition eq : point -> point -> bool := Jacobain.eq e0 Fmul.
Definition rescale : F7 -> point -> point := Jacobain.rescale Fmul.

(** Three representations of the point [(2, 5)] of [y^2 = x^3 + x + 1],
    the point [(0, 1)] in two, and the affine point [(4, 5)] with [z = 3]. *)
Definition p1 : point := pt 2 5 1.
Definition p2 : point := pt 1 5 2.
Definition p3 : point := pt 4 2 3.
Definition q1 : point := pt 0 1 1.
Definition q2 : point := pt 0 1 2.
Definition r3 : point := pt 1 2 3.

Lemma finite_p1 : is_inf p1 = false.
Proof. reflexivity. Qed.

Lemma finite_p3 : is_inf p3 = false.
Proof. reflexivity. Qed.

Lemma eq_p1_p3 : eq p1 p3 = true.
Proof. reflexivity. Qed.

Lemma eq_q1_q2 : eq q1 q2 = true.
Proof. reflexivity. Qed.

Lemma on_curve_p3 : on_curve 1 1 p3 = true.
Proof. reflexivity. Qed.

Lemma on_curve_q2 : on_curve 1 1 q2 = true.
Proof. reflexivity. Qed.

Lemma finite_r3 : is_inf r3 = false.
Proof. reflexivity. Qed.

(** [eq_equivalence] on the three representations. *)
Lemma eq_equivalence_witness :
  eq p3 p1 = true /\ eq p1 p2 = true /\ eq p3 p2 = true /\
  eq p2 p3 = eq p3 p2.
Proof.
  destruct (Jacobain.eq_equivalence e0 e1 Fadd Fsub Fmul Fneg Finv
              Fmul_pow2 F7_laws) as (_ & Hsym & Htrans).
  assert (H1 : eq p3 p1 = true) by reflexivity.
  assert (H2 : eq p1 p2 = true) by reflexivity.
  split; [exact H1|]. split; [exact H2|].
  split; [exact (Htrans p3 p1 p2 H1 H2) | exact (Hsym p2 p3)].
Defined.

(** [eq_iff_rescale] at [p3 = rescale 3 p1]. *)
Lemma eq_iff_rescale_witness :
  is_inf p1 = false /\ is_inf p3 = false /\
  p3 = rescale e3 p1 /\ eq p1 p3 = true.
Proof.
  split; [reflexivity|]. split; [reflexivity|]. split; [reflexivity|].
  apply (Jacobain.eq_iff_rescale e0 e1 Fadd Fsub Fmul Fneg Finv Fmul_pow2
           F7_laws p1 p3 finite_p1 finite_p3).
  exists e3. split; [discriminate | reflexivity].
Defined.

(** [to_affine_from_affine_round_trip] at [(1, 2, 3)]. *)
Lemma to_affine_from_affine_round_trip_witness :
  is_inf r3 = false /\
  from_affine (to_affine r3) = pt 4 5 1 /\
  eq (from_affine (to_affine r3)) r3 = true.
Proof.
  destruct (Jacobain.to_affine_from_affine_round_trip e0 e1 Fadd Fsub Fmul
              Fneg Finv Fmul_pow2 F7_laws r3) as (_ & Hfin & _).
  split; [reflexivity|]. split; [reflexivity|]. exact (Hfin finite_r3).
Defined.

(** [on_curve_respects_eq] at two representations of [(2, 5)]. *)
Lemma on_curve_respects_eq_witness :
  is_inf p1 = false /\ is_inf p3 = false /\ eq p1 p3 = true /\
  on_curve 1 1 p1 = on_curve 1 1 p3.
Proof.
  split; [reflexivity|]. split; [reflexivity|]. split; [reflexivity|].
  exact (Jacobain.on_curve_respects_eq e0 e1 Fadd Fsub Fmul Fneg Finv
           Fmul_pow2 (of_Z 1) (of_Z 1) F7_laws p1 p3 finite_p1 finite_p3 eq_p1_p3).
Defined.

(** [add_self_on_curve] at [p3]. *)
Lemma add_self_on_curve_witness :
  on_curve 1 1 p3 = true /\ on_curve 1 1 (add_self 1 p3) = true.
Proof.
  split; [reflexivity|].
  exact (Jacobain.add_self_on_curve e0 e1 Fadd Fsub Fmul Fneg Finv
           Fmul_pow2 (of_Z 1) (of_Z 1) F7_laws p3 on_curve_p3).
Defined.

(** [add_distinct_on_curve] at [p3 + q2]. *)
Lemma add_distinct_on_curve_witness :
  on_curve 1 1 p3 = true /\ on_curve 1 1 q2 = true /\
  on_curve 1 1 (add_distinct p3 q2) = true.
Proof.
  split; [reflexivity|]. split; [reflexivity|].
  exact (Jacobain.add_distinct_on_curve e0 e1 Fadd Fsub Fmul Fneg Finv
           Fmul_pow2 (of_Z 1) (of_Z 1) F7_laws p3 q2 on_curve_p3 on_curve_q2).
Defined.

(** [add_on_curve] at [p3 + q2]. *)
Lemma add_on_curve_witness :
  on_curve 1 1 p3 = true /\ on_curve 1 1 q2 = true /\
  on_curve 1 1 (add 1 p3 q2) = true.
Proof.
  split; [reflexivity|]. split; [reflexivity|].
  exact (Jacobain.add_on_curve e0 e1 Fadd Fsub Fmul Fneg Finv
           Fmul_pow2 (of_Z 1) (of_Z 1) F7_laws p3 q2 on_curve_p3 on_curve_q2).
Defined.

(** [add_distinct_same_point] at two representations of [(2, 5)]. *)
Lemma add_distinct_same_point_witness :
  is_inf p1 = false /\ is_inf p3 = false /\ eq p1 p3 = true /\
  add_distinct p1 p3 = pt 0 0 0.
Proof.
  split; [reflexivity|]. split; [reflexivity|]. split; [reflexivity|].
  exact (Jacobain.add_distinct_same_point e0 e1 Fadd Fsub Fmul Fneg Finv
           Fmul_pow2 F7_laws p1 p3 finite_p1 finite_p3 eq_p1_p3).
Defined.

(** [add_self_inf_iff] at the point [(1, 0)] of order 2 on
    [y^2 = x^3 - 1]. *)
Lemma add_self_inf_iff_witness :
  Fadd e1 e1 <> e0 /\ on_curve 0 6 (pt 1 0 2) = true /\
  is_inf (add_self 0 (pt 1 0 2)) = true.
Proof.
  assert (H2 : Fadd e1 e1 <> e0) by discriminate.
  split; [exact H2|]. split; [reflexivity|].
  apply (Jacobain.add_self_inf_iff e0 e1 Fadd Fsub Fmul Fneg Finv Fmul_pow2
           (of_Z 0) F7_laws (pt 1 0 2) H2).
  right. reflexivity.
Defined.

(** [add_comm_eq] at [p3 + q2]: the two sums differ as representations. *)
Lemma add_comm_eq_witness :
  add 1 p3 q2 <> add 1 q2 p3 /\ eq (add 1 p3 q2) (add 1 q2 p3) = true.
Proof.
  split; [vm_compute; discriminate|].
  exact (Jacobain.add_comm_eq e0 e1 Fadd Fsub Fmul Fneg Finv Fmul_pow2
           (of_Z 1) F7_laws p3 q2).
Defined.

(** [add_respects_eq] at [p1 + q1] and [p3 + q2]. *)
Lemma add_respects_eq_witness :
  eq p1 p3 = true /\ eq q1 q2 = true /\
  eq (add 1 p1 q1) (add 1 p3 q2) = true.
Proof.
  split; [reflexivity|]. split; [reflexivity|].
  exact (Jacobain.add_respects_eq e0 e1 Fadd Fsub Fmul Fneg Finv Fmul_pow2
           (of_Z 1) F7_laws p1 p3 q1 q2 eq_p1_p3 eq_q1_q2).
Defined.

Lemma not_one_r3 : Jacobain.is_mul_id e1 (Jacobain.z r3) = false.
Proof. reflexivity. Qed.

(** [to_affine_twice] at [(1, 2, 3)]. *)
Lemma to_affine_twice_witness :
  is_inf r3 = false /\ Jacobain.is_mul_id e1 (Jacobain.z r3) = false /\
  to_affine r3 = pt 4 5 5 /\ to_affine (to_affine r3) = r3.
Proof.
  split; [reflexivity|]. split; [reflexivity|]. split; [reflexivity|].
  exact (proj2 (proj2
           (Jacobain.to_affine_twice e0 e1 Fadd Fsub Fmul Fneg Finv
              Fmul_pow2 F7_laws r3 finite_r3 not_one_r3))).
Defined.

Lemma two_neq_zero : Fadd e1 e1 <> e0.
Proof. discriminate. Qed.

(** [add_case_analysis] on [y^2 = x^3 + x + 1] at [p = (2, 2, 1)] with
    [q = - p = (2, 5, 1)], [q = p] and [q = (0, 1, 1)], and on
    [y^2 = x^3 - 1] at the point [(1, 0, 1)] of order 2 added to itself. *)
Lemma add_case_analysis_witness :
  Fadd e1 e1 <> e0 /\
  is_inf (pt 2 2 1) = false /\
  is_inf (pt 2 5 1) = false /\
  Fmul e2 (Fmul e1 e1) = Fmul e2 (Fmul e1 e1) /\
  Fmul e2 (Fmul (Fmul e1 e1) e1) = Fneg (Fmul e5 (Fmul (Fmul e1 e1) e1)) /\
  is_inf (add 1 (pt 2 2 1) (pt 2 5 1)) = true /\
  add_self 1 (pt 2 2 1) = pt 0 1 4 /\
  add 1 (pt 2 2 1) (pt 2 2 1) = pt 0 1 4 /\
  add_distinct (pt 2 2 1) (pt 0 1 1) = pt 0 1 5 /\
  add 1 (pt 2 2 1) (pt 0 1 1) = pt 0 1 5 /\
  on_curve 1 1 (pt 0 1 5) = true /\
  on_curve 0 6 (pt 1 0 1) = true /\
  is_inf (add 0 (pt 1 0 1) (pt 1 0 1)) = true.
Proof.
  pose proof (fun A p q =>
                Jacobain.add_case_analysis e0 e1 Fadd Fsub Fmul Fneg Finv
                  Fmul_pow2 (of_Z A) F7_laws p q two_neq_zero) as Hcases.
  cbv zeta in Hcases.
  destruct (Hcases 1 (pt 2 2 1) (pt 2 5 1)) as (_ & _ & _ & _ & Hneg).
  destruct (Hcases 1 (pt 2 2 1) (pt 2 2 1)) as (Hdbl & _ & _ & _ & Hself).
  destruct (Hcases 1 (pt 2 2 1) (pt 0 1 1)) as (_ & Hch & _ & _ & Hchord).
  destruct (Hcases 0 (pt 1 0 1) (pt 1 0 1)) as (_ & _ & _ & _ & Htwo).
  assert (F1 : is_inf (pt 2 2 1) = false) by reflexivity.
  assert (F2 : is_inf (pt 2 5 1) = false) by reflexivity.
  assert (F3 : is_inf (pt 0 1 1) = false) by reflexivity.
  assert (F4 : is_inf (pt 1 0 1) = false) by reflexivity.
  destruct (Hneg F1 F2) as (_ & Hinf & _).
  destruct (Hself F1 F1) as (Hdouble & _ & _).
  destruct (Hchord F1 F3) as (_ & _ & Hdist).
  destruct (Htwo F4 F4) as (_ & Hinf2 & _).
  split; [exact two_neq_zero|].
  do 4 (split; [reflexivity|]).
  split.
  { apply Hinf. split; reflexivity. }
  split.
  { etransitivity; [exact Hdbl | reflexivity]. }
  split.
  { etransitivity; [apply Hdouble; split; reflexivity | reflexivity]. }
  split.
  { etransitivity; [exact Hch | reflexivity]. }
  split.
  { etransitivity; [apply Hdist | reflexivity].
    vm_compute. intros [Heq _]. discriminate Heq. }
  split; [reflexivity|]. split; [reflexivity|].
  apply Hinf2. split; reflexivity.
Defined.

End Curve7Laws.

(** ** Pollard lambda: [pollard_lambda] and the jump table of [worker] *)

Module PollardLambda.
Section Solver.

(** The scalar type [S]: limb sequences of [W] bit limbs with the add-group
    mixin [ModAddSub] over the modulus [MOD] (the order of the group). *)
Variable W : Z.
Variable MOD : list Z.

Local Abbreviation Scalar := (list Z).

(** The point type [P] with [P::mul], [P::add], [P::eq] and the first limb
    of the [x] coordinate, [p.x().array()[0]]. *)
Context {P : Type}.
Variable Pmul : Scalar -> P -> P.
Variable Padd : P -> P -> P.
Variable Peq : P -> P -> bool.
Variable Px0 : P -> Z.

(** [GecRng<Rng>]: [rng.sample(ri)] draws an index and
    [S::sample_inclusive(x, a, b, rng, ctx)] a scalar, each returning the
    advanced generator. *)
Context {Rng : Type}.
Variable rng_sample : nat -> Rng -> nat * Rng.
Variable sample_inclusive : Scalar -> Scalar -> Rng -> Scalar * Rng.

(** [size_t] arithmetic wraps around at 64 bits. *)
Definition size_t (v : Z) : Z := (v mod 2 ^ 64)%Z.

(** [typename S::LimbT(i)] *)
Definition LimbT (i : Z) : Z := (i mod LimbSeq.base W)%Z.

(** [s.array()[0]] read and written. *)
Definition limb0 (s : Scalar) : Z := hd 0%Z s.
Definition set_limb0 (s : Scalar) (v : Z) : Scalar := <[0%nat := v]> s.

(** [for (size_t i = 0; i < n; ++i) body]: [None] is undefined behaviour
    (an access outside an array, a division by zero). *)
Fixpoint for_loop {St : Type} (n : nat) (body : nat -> St -> option St)
    (i : nat) (st : St) : option St :=
  match n with
  | O => Some st
  | S n' =>
      match body i st with
      | Some st' => for_loop n' body (S i) st'
      | None => None
      end
  end.

(** [sl[i].array()[0] = typename S::LimbT(i);] *)
Definition init_body (i : nat) (sl : list Scalar) : option (list Scalar) :=
  s ← sl !! i;
  Some (<[i := set_limb0 s (LimbT (Z.of_nat i))]> sl).

(** [size_t ri = m - 1 - i;
     utils::swap(sl[ri].array()[0], sl[rng.sample(ri)].array()[0]);] *)
Definition shuffle_body (m : nat) (i : nat) (st : list Scalar * Rng)
    : option (list Scalar * Rng) :=
  let '(sl, rng) := st in
  let ri := (m - 1 - i)%nat in
  let '(j, rng) := rng_sample ri rng in
  sr ← sl !! ri;
  sj ← sl !! j;
  let tmp := limb0 sr in
  let sl := <[ri := set_limb0 sr (limb0 sj)]> sl in
  sj ← sl !! j;
  let sl := <[j := set_limb0 sj tmp]> sl in
  Some (sl, rng).

(** [e = sl[i].array()[0]; sl[i].set_pow2(e); P::mul(pl[i], sl[i], g, ctx);] *)
Definition table_body (g : P) (i : nat) (st : list Scalar * list P)
    : option (list Scalar * list P) :=
  let '(sl, pl) := st in
  s ← sl !! i;
  let e := limb0 s in
  let s := LimbSeq.set_pow2 W s e in
  _ ← pl !! i;
  Some (<[i := s]> sl, <[i := Pmul s g]> pl).

(** The three loops that build the jump table of length [m] in [sl], [pl]. *)
Definition build_jump_table (m : nat) (g : P) (sl : list Scalar) (pl : list P)
    (rng : Rng) : option (list Scalar * list P * Rng) :=
  sl ← for_loop m init_body 0 sl;
  '(sl, rng) ← for_loop m (shuffle_body m) 0 (sl, rng);
  '(sl, pl) ← for_loop m (table_body g) 0 (sl, pl);
  Some (sl, pl, rng).

(** The jump table of [worker]: worker 0 runs the same three loops on
    [data.sl], [data.pl], with [m = data.sl.size()]. *)
Definition worker_jump_table (id : nat) (g : P) (sl : list Scalar) (pl : list P)
    (rng : Rng) : option (list Scalar * list P * Rng) :=
  let m := length sl in
  if Nat.eqb id 0 then build_jump_table m g sl pl rng
  else Some (sl, pl, rng).

(** [S::sub(x, b, a); size_t m = x.most_significant_bit() - 1;] *)
Definition jump_table_length (a b : Scalar) : Z :=
  let x := ModAddSub.sub W MOD b a in
  size_t (LimbSeq.most_significant_bit W x - 1).

(** [size_t i = u->x().array()[0] % m;]: undefined for [m = 0]. *)
Definition jump_index (m : Z) (u : P) : option nat :=
  if (m =? 0)%Z then None else Some (Z.to_nat (Px0 u mod m)).

(** The tame walk: [steps] iterations of
    [i = u->x().array()[0] % m; S::add(x, sl[i]); P::add( *tmp, *u, pl[i]);
     swap(u, tmp);]. *)
Fixpoint tame_walk (steps : nat) (m : Z) (sl : list Scalar) (pl : list P)
    (x : Scalar) (u : P) : option (Scalar * P) :=
  match steps with
  | O => Some (x, u)
  | S n =>
      i ← jump_index m u;
      s ← sl !! i;
      p ← pl !! i;
      tame_walk n m sl pl (ModAddSub.add_inplace W MOD x s) (Padd u p)
  end.

(** The wild walk: at most [steps] iterations; [Some d] when [P::eq( *u, *v)]
    is observed with accumulator [d], [None] when the loop runs out. *)
Fixpoint wild_walk (steps : nat) (m : Z) (sl : list Scalar) (pl : list P)
    (u : P) (d : Scalar) (v : P) : option (option Scalar) :=
  match steps with
  | O => Some None
  | S n =>
      if Peq u v then Some (Some d)
      else
        idx ← jump_index m v;
        s ← sl !! idx;
        p ← pl !! idx;
        wild_walk n m sl pl u (ModAddSub.add_inplace W MOD d s) (Padd v p)
  end.

(** What one call can end in. *)
Inductive outcome : Type :=
  | Returned (x : Scalar)       (* [return;] with the result in [x] *)
  | Undefined              (* undefined behaviour *)
  | Running.               (* still in [while (true)] when the fuel ran out *)

(** One pass through the body of [while (true)]: [inl x] when the function
    returns with [x], [inr (sl, pl, rng)] when the loop starts over. *)
Definition attempt (bound a b : Scalar) (g h : P) (sl : list Scalar) (pl : list P)
    (rng : Rng) : option (Scalar + list Scalar * list P * Rng) :=
  let m := jump_table_length a b in
  '(sl, pl, rng) ← build_jump_table (Z.to_nat m) g sl pl rng;
  let '(x, rng) := sample_inclusive a b rng in
  let u := Pmul x g in
  let steps := Z.to_nat (LimbSeq.eval W bound) in
  '(x, u) ← tame_walk steps m sl pl x u;
  let d := LimbSeq.set_zero MOD in
  let v := h in
  r ← wild_walk steps m sl pl u d v;
  match r with
  | Some d => Some (inl (ModAddSub.sub_inplace W MOD x d))
  | None => Some (inr (sl, pl, rng))
  end.

(** [pollard_lambda(x, sl, pl, bound, a, b, g, h, rng, ctx)], with [fuel]
    bounding the passes through [while (true)]. *)
Fixpoint pollard_lambda (fuel : nat) (sl : list Scalar) (pl : list P)
    (bound a b : Scalar) (g h : P) (rng : Rng) : outcome :=
  match fuel with
  | O => Running
  | S fuel' =>
      match attempt bound a b g h sl pl rng with
      | None => Undefined
      | Some (inl x) => Returned x
      | Some (inr (sl, pl, rng)) =>
          pollard_lambda fuel' sl pl bound a b g h rng
      end
  end.

(** *** Loops *)

Lemma for_loop_invariant {St : Type} (Inv : nat -> St -> Prop)
    (body : nat -> St -> option St) (n : nat) : forall i st,
  Inv i st ->
  (forall k s, i <= k < i + n -> Inv k s ->
               exists s', body k s = Some s' /\ Inv (S k) s') ->
  exists st', for_loop n body i st = Some st' /\ Inv (i + n) st'.
Proof.
  induction n as [|n IH]; intros i st Hinv Hstep.
  - exists st. rewrite Nat.add_0_r. split; [reflexivity | exact Hinv].
  - destruct (Hstep i st ltac:(lia) Hinv) as (s1 & Hb & Hinv1).
    destruct (IH (S i) s1 Hinv1) as (st' & Hl & Hinv').
    { intros k s Hk. apply Hstep. lia. }
    exists st'. cbn [for_loop]. rewrite Hb.
    split; [exact Hl|]. replace (i + S n) with (S i + n) by lia. exact Hinv'.
Qed.

(** *** The jump table *)

Definition nonempty (s : Scalar) : Prop := s <> [].

Lemma limb0_set_limb0 s v : nonempty s -> limb0 (set_limb0 s v) = v.
Proof. destruct s; [congruence | reflexivity]. Qed.

Lemma nonempty_set_limb0 s v : nonempty s -> nonempty (set_limb0 s v).
Proof. destruct s; [congruence | discriminate]. Qed.

Lemma length_set_limb0 s v : length (set_limb0 s v) = length s.
Proof. apply length_insert. Qed.

(** The exponents held in the first limbs of the first [m] scalars. *)
Definition exponents (m : nat) (sl : list Scalar) : list Z :=
  limb0 <$> take m sl.

Lemma exponents_insert m sl i s v :
  (i < m)%nat -> nonempty s ->
  exponents m (<[i := set_limb0 s v]> sl) = <[i := v]> (exponents m sl).
Proof.
  intros Hi Hs. unfold exponents.
  rewrite take_insert_lt by exact Hi.
  rewrite list_fmap_insert, limb0_set_limb0 by exact Hs. reflexivity.
Qed.

Lemma exponents_lookup m sl i s :
  (i < m)%nat -> sl !! i = Some s -> exponents m sl !! i = Some (limb0 s).
Proof.
  intros Hi Hs. unfold exponents.
  rewrite list_lookup_fmap, lookup_take_lt, Hs by exact Hi. reflexivity.
Qed.

Section JumpTable.

Variable L : nat.           (* the limb count of the scalars *)
Variable m : nat.           (* the length of the jump table *)
Variable g : P.

Hypothesis W_pos : (0 < W)%Z.
Hypothesis m_fits_limb : (Z.of_nat m <= LimbSeq.base W)%Z.
Hypothesis L_pos : (0 < L)%nat.
Hypothesis rng_sample_le : forall ri r, ((rng_sample ri r).1 <= ri)%nat.

(** What the loops keep: the arrays keep their sizes and the scalars their
    limb count. *)
Definition shape (n : nat) (sl : list Scalar) : Prop :=
  length sl = n /\ Forall (fun s => length s = L) sl.

Lemma shape_nonempty n sl i s : shape n sl -> sl !! i = Some s -> nonempty s.
Proof.
  intros [_ Hall] Hs. rewrite Forall_lookup in Hall.
  specialize (Hall i s Hs). unfold nonempty. intros ->. cbn in Hall. lia.
Qed.

Lemma shape_lookup n sl i : shape n sl -> (i < n)%nat -> exists s, sl !! i = Some s.
Proof.
  intros [Hlen _] Hi. apply lookup_lt_is_Some_2. lia.
Qed.

Lemma shape_insert n sl i s :
  shape n sl -> length s = L -> shape n (<[i := s]> sl).
Proof.
  intros [Hlen Hall] Hs. split.
  - rewrite length_insert. exact Hlen.
  - apply Forall_insert; assumption.
Qed.

Lemma shape_length n sl i s : shape n sl -> sl !! i = Some s -> length s = L.
Proof.
  intros [_ Hall] Hs. rewrite Forall_lookup in Hall. exact (Hall i s Hs).
Qed.

Lemma LimbT_small (i : nat) : (i < m)%nat -> LimbT (Z.of_nat i) = Z.of_nat i.
Proof. intros Hi. unfold LimbT. apply Z.mod_small. lia. Qed.

(** After the first loop the exponents are [0 .. m-1] in order. *)
Lemma init_loop n sl :
  shape n sl -> (m <= n)%nat ->
  exists sl', for_loop m init_body 0 sl = Some sl' /\
              shape n sl' /\ exponents m sl' = Z.of_nat <$> seq 0 m.
Proof.
  intros Hsh Hmn.
  destruct (for_loop_invariant
              (fun k sl' => shape n sl' /\
                 forall j, (j < k)%nat ->
                           exponents m sl' !! j = Some (Z.of_nat j))
              init_body m 0 sl) as (sl' & Hl & Hsh' & Hexp).
  - split; [exact Hsh | intros j Hj; lia].
  - intros k s Hk [Hs Hprev]. unfold init_body.
    destruct (shape_lookup n s k Hs ltac:(lia)) as (sk & Hsk).
    rewrite Hsk. cbn [mbind option_bind].
    eexists. split; [reflexivity|]. split.
    + apply shape_insert; [exact Hs|].
      rewrite length_set_limb0. exact (shape_length n s k sk Hs Hsk).
    + intros j Hj.
      rewrite exponents_insert by (try lia; exact (shape_nonempty n s k sk Hs Hsk)).
      destruct (decide (j = k)) as [->|Hne].
      * rewrite list_lookup_insert_eq.
        -- rewrite LimbT_small by lia. reflexivity.
        -- unfold exponents. rewrite length_fmap, length_take.
           destruct Hs as [Hlen _]. lia.
      * rewrite list_lookup_insert_ne by congruence. apply Hprev. lia.
  - exists sl'. split; [exact Hl|]. split; [exact Hsh'|].
    apply list_eq. intros j. destruct (decide (j < m)%nat) as [Hj|Hj].
    + rewrite Hexp by lia.
      rewrite list_lookup_fmap, lookup_seq_lt by exact Hj. reflexivity.
    + rewrite !lookup_ge_None_2; [reflexivity | |].
      * rewrite length_fmap, length_seq. lia.
      * unfold exponents. rewrite length_fmap, length_take. lia.
Qed.

(** The second loop permutes the exponents. *)
Lemma shuffle_loop n sl rng :
  shape n sl -> (m <= n)%nat ->
  exists sl' rng', for_loop m (shuffle_body m) 0 (sl, rng) = Some (sl', rng') /\
                   shape n sl' /\ exponents m sl' ≡ₚ exponents m sl.
Proof.
  intros Hsh Hmn.
  destruct (for_loop_invariant
              (fun (_ : nat) (st : list Scalar * Rng) =>
                 shape n st.1 /\ exponents m st.1 ≡ₚ exponents m sl)
              (shuffle_body m) m 0 (sl, rng)) as ([sl' rng'] & Hl & Hsh' & Hp).
  - split; [exact Hsh | reflexivity].
  - intros k [s r] Hk [Hs Hperm]. cbn [fst] in Hs, Hperm.
    unfold shuffle_body.
    pose proof (rng_sample_le (m - 1 - k) r) as Hj.
    destruct (rng_sample (m - 1 - k) r) as [j r']. cbn [fst] in Hj.
    set (ri := (m - 1 - k)%nat) in *.
    assert (Hri : (ri < m)%nat) by (subst ri; lia).
    destruct (shape_lookup n s ri Hs ltac:(lia)) as (sr & Hsr).
    destruct (shape_lookup n s j Hs ltac:(lia)) as (sj & Hsj).
    rewrite Hsr, Hsj. cbn [mbind option_bind].
    pose proof (shape_nonempty n s ri sr Hs Hsr) as Hnr.
    pose proof (shape_nonempty n s j sj Hs Hsj) as Hnj.
    assert (Hs1 : shape n (<[ri := set_limb0 sr (limb0 sj)]> s)).
    { apply shape_insert; [exact Hs|]. rewrite length_set_limb0.
      exact (shape_length n s ri sr Hs Hsr). }
    destruct (shape_lookup n _ j Hs1 ltac:(lia)) as (sj' & Hsj').
    rewrite Hsj'. cbn [mbind option_bind].
    pose proof (shape_nonempty n _ j sj' Hs1 Hsj') as Hnj'.
    eexists. split; [reflexivity|]. cbn [fst]. split.
    + apply shape_insert; [exact Hs1|]. rewrite length_set_limb0.
      exact (shape_length n _ j sj' Hs1 Hsj').
    + rewrite <- Hperm.
      rewrite !exponents_insert by (try lia; assumption).
      apply Permutation_insert_swap.
      * apply exponents_lookup; [lia | exact Hsr].
      * apply exponents_lookup; [lia | exact Hsj].
  - exists sl', rng'. cbn [fst] in Hsh', Hp.
    split; [exact Hl|]. split; [exact Hsh' | exact Hp].
Qed.

(** The third loop replaces each exponent [e] by [2^e] and fills [pl]. *)
Lemma table_loop n sl pl :
  shape n sl -> (m <= n)%nat -> (m <= length pl)%nat ->
  exists sl' pl', for_loop m (table_body g) 0 (sl, pl) = Some (sl', pl') /\
    shape n sl' /\ length pl' = length pl /\
    (forall i, (i < m)%nat ->
       exists s, sl !! i = Some s /\
         sl' !! i = Some (LimbSeq.set_pow2 W s (limb0 s)) /\
         pl' !! i = Some (Pmul (LimbSeq.set_pow2 W s (limb0 s)) g)).
Proof.
  intros Hsh Hmn Hpl.
  destruct (for_loop_invariant
              (fun k (st : list Scalar * list P) =>
                 shape n st.1 /\ length st.2 = length pl /\
                 (forall i, (k <= i)%nat -> st.1 !! i = sl !! i) /\
                 (forall i, (i < k)%nat ->
                    exists s, sl !! i = Some s /\
                      st.1 !! i = Some (LimbSeq.set_pow2 W s (limb0 s)) /\
                      st.2 !! i
                      = Some (Pmul (LimbSeq.set_pow2 W s (limb0 s)) g)))
              (table_body g) m 0 (sl, pl))
    as ([sl' pl'] & Hl & Hsh' & Hlen' & _ & Hdone).
  - cbn [fst snd]. split; [exact Hsh|]. split; [reflexivity|].
    split; [reflexivity|]. intros i Hi. lia.
  - intros k [s q] Hk (Hs & Hq & Hrest & Hprev). cbn [fst snd] in *.
    unfold table_body.
    destruct (shape_lookup n s k Hs ltac:(lia)) as (sk & Hsk).
    rewrite Hsk. cbn [mbind option_bind].
    destruct (lookup_lt_is_Some_2 q k ltac:(lia)) as (pk & Hpk).
    rewrite Hpk. cbn [mbind option_bind].
    eexists. split; [reflexivity|]. cbn [fst snd].
    assert (Hk0 : sl !! k = Some sk) by (rewrite <- Hrest by lia; exact Hsk).
    split; [|split; [|split]].
    + apply shape_insert; [exact Hs|].
      unfold LimbSeq.set_pow2.
      destruct (LimbSeq.eval_limbs_of W W_pos (length sk)
                  (2 ^ limb0 sk)%Z) as (Hll & _).
      rewrite Hll. exact (shape_length n s k sk Hs Hsk).
    + rewrite length_insert. exact Hq.
    + intros i Hi. rewrite list_lookup_insert_ne by lia. apply Hrest. lia.
    + intros i Hi. destruct (decide (i = k)) as [->|Hne].
      * exists sk. split; [exact Hk0|].
        rewrite !list_lookup_insert_eq; [split; reflexivity | lia |].
        destruct Hs as [Hlen _]. lia.
      * rewrite !list_lookup_insert_ne by congruence. apply Hprev. lia.
  - exists sl', pl'. cbn [fst snd] in *.
    split; [exact Hl|]. split; [exact Hsh'|]. split; [exact Hlen'|].
    intros i Hi. apply Hdone. lia.
Qed.

(** The scalar [2^e] on [L] limbs. *)
Definition pow2_scalar (e : Z) : Scalar := LimbSeq.limbs_of W L (2 ^ e)%Z.

Lemma eval_pow2_scalar (e : nat) :
  (Z.of_nat e < W * Z.of_nat L)%Z ->
  LimbSeq.eval W (pow2_scalar (Z.of_nat e)) = (2 ^ Z.of_nat e)%Z.
Proof using W_pos.
  clear m_fits_limb L_pos rng_sample_le.
  intros He. unfold pow2_scalar.
  destruct (LimbSeq.eval_limbs_of W W_pos L (2 ^ Z.of_nat e)%Z) as (_ & _ & Hv).
  rewrite Hv. apply Z.mod_small. split.
  - apply Z.pow_nonneg. lia.
  - unfold LimbSeq.base. rewrite <- Z.pow_mul_r by lia.
    apply Z.pow_lt_mono_r; lia.
Qed.

Lemma NoDup_powers (k : nat) :
  NoDup ((fun e : nat => 2 ^ Z.of_nat e)%Z <$> seq 0 k).
Proof.
  apply NoDup_fmap_2; [|apply NoDup_seq].
  intros e1 e2 He. apply Z.pow_inj_r in He; lia.
Qed.

(** The three loops together. *)
Lemma build_jump_table_spec (sl : list Scalar) (pl : list P) (rng : Rng) :
  Forall (fun s => length s = L) sl ->
  (m <= length sl)%nat -> (m <= length pl)%nat ->
  exists sl' pl' rng',
    build_jump_table m g sl pl rng = Some (sl', pl', rng') /\
    shape (length sl) sl' /\ length pl' = length pl /\
    take m sl' ≡ₚ pow2_scalar <$> (Z.of_nat <$> seq 0 m) /\
    (forall i, (i < m)%nat ->
       exists s, sl' !! i = Some s /\ pl' !! i = Some (Pmul s g)).
Proof.
  intros Hall Hm Hpl.
  assert (Hsh : shape (length sl) sl) by (split; [reflexivity | exact Hall]).
  destruct (init_loop (length sl) sl Hsh Hm) as (sl1 & Hl1 & Hsh1 & He1).
  destruct (shuffle_loop (length sl) sl1 rng Hsh1 Hm)
    as (sl2 & rng' & Hl2 & Hsh2 & He2).
  destruct (table_loop (length sl) sl2 pl Hsh2 Hm Hpl)
    as (sl' & pl' & Hl3 & Hsh3 & Hlp & Htab).
  assert (Hbuild : build_jump_table m g sl pl rng = Some (sl', pl', rng')).
  { unfold build_jump_table. rewrite Hl1. cbn [mbind option_bind].
    rewrite Hl2. cbn [mbind option_bind]. rewrite Hl3. reflexivity. }
  assert (Htake : take m sl' = pow2_scalar <$> exponents m sl2).
  { apply list_eq. intros i. unfold exponents.
    rewrite !list_lookup_fmap.
    destruct (decide (i < m)%nat) as [Hi|Hi].
    - rewrite !lookup_take_lt by exact Hi.
      destruct (Htab i Hi) as (s & Hs & Hs' & _). rewrite Hs, Hs'.
      cbn [fmap option_fmap option_map]. unfold LimbSeq.set_pow2, pow2_scalar.
      rewrite (shape_length _ sl2 i s Hsh2 Hs). reflexivity.
    - rewrite !lookup_take_ge by lia. reflexivity. }
  exists sl', pl', rng'.
  split; [exact Hbuild|]. split; [exact Hsh3|]. split; [exact Hlp|]. split.
  { rewrite Htake, He2, He1. reflexivity. }
  intros i Hi. destruct (Htab i Hi) as (s & _ & Hs' & Hp).
  eexists. split; [exact Hs' | exact Hp].
Qed.

(** C8: after the jump table is built, in [pollard_lambda] as in worker 0 of
    the multithreaded solver (the same three loops), the scalars
    [s[0..m-1]] are a permutation of the powers [2^0 .. 2^(m-1)], each
    appearing exactly once, and [P[i] = [s[i]] g] for every [i < m]. *)
Theorem jump_table_permutation (sl : list Scalar) (pl : list P) (rng : Rng) :
  Forall (fun s => length s = L) sl ->
  (m <= length sl)%nat -> (m <= length pl)%nat ->
  (Z.of_nat m <= W * Z.of_nat L)%Z ->
  exists sl' pl' rng',
    build_jump_table m g sl pl rng = Some (sl', pl', rng') /\
    (length sl = m ->
     worker_jump_table 0 g sl pl rng = Some (sl', pl', rng')) /\
    take m sl' ≡ₚ pow2_scalar <$> (Z.of_nat <$> seq 0 m) /\
    (LimbSeq.eval W <$> take m sl')
      ≡ₚ ((fun e : nat => 2 ^ Z.of_nat e)%Z <$> seq 0 m) /\
    NoDup (LimbSeq.eval W <$> take m sl') /\
    (forall i, (i < m)%nat ->
       exists s, sl' !! i = Some s /\ pl' !! i = Some (Pmul s g)).
Proof.
  intros Hall Hm Hpl HmL.
  destruct (build_jump_table_spec sl pl rng Hall Hm Hpl)
    as (sl' & pl' & rng' & Hbuild & _ & _ & Hperm & Htab).
  assert (Heval : (LimbSeq.eval W <$> take m sl')
                  ≡ₚ ((fun e : nat => 2 ^ Z.of_nat e)%Z <$> seq 0 m)).
  { rewrite Hperm.
    assert (Heq : LimbSeq.eval W <$> (pow2_scalar <$> (Z.of_nat <$> seq 0 m))
                  = (fun e : nat => 2 ^ Z.of_nat e)%Z <$> seq 0 m).
    { rewrite <- !list_fmap_compose. apply list_fmap_ext.
      intros i e He. apply lookup_seq in He as [-> Hi]. cbn.
      apply eval_pow2_scalar. lia. }
    rewrite Heq. reflexivity. }
  exists sl', pl', rng'.
  split; [exact Hbuild|]. split.
  { intros Hlen. unfold worker_jump_table. cbn [Nat.eqb].
    rewrite Hlen. exact Hbuild. }
  split; [exact Hperm|]. split; [exact Heval|]. split.
  { rewrite Heval. apply NoDup_powers. }
  exact Htab.
Qed.

End JumpTable.

(** *** Correctness of a returned result *)

Section Correctness.

(** The points the solver works on (the points of the curve) and the
    generator and target. *)
Variable G : P -> Prop.
Variables g h : P.

Local Abbreviation valid := (ModAddSub.valid W MOD).
Local Abbreviation sadd := (ModAddSub.add W MOD).
Local Abbreviation ssub := (ModAddSub.sub W MOD).
Local Abbreviation szero := (ModAddSub.zero MOD).
Local Notation "p == q" := (Peq p q = true) (at level 70).

(** What the solver needs of [P]: on the points of the curve, [P::eq] is an
    equivalence, [P::add] a group operation compatible with it, and
    [k |-> P::mul(k, g)] a homomorphism from the scalars. *)
Record group_laws : Prop := {
  G_mul : forall k, valid k -> G (Pmul k g);
  G_add : forall p q, G p -> G q -> G (Padd p q);
  Peq_refl : forall p, G p -> p == p;
  Peq_sym : forall p q, G p -> G q -> p == q -> q == p;
  Peq_trans : forall p q r, G p -> G q -> G r -> p == q -> q == r -> p == r;
  Padd_eq_l : forall p q r, G p -> G q -> G r ->
                            p == q -> Padd p r == Padd q r;
  Padd_eq_r : forall p q r, G p -> G q -> G r ->
                            p == q -> Padd r p == Padd r q;
  Padd_assoc : forall p q r, G p -> G q -> G r ->
                             Padd (Padd p q) r == Padd p (Padd q r);
  Padd_cancel_r : forall p q r, G p -> G q -> G r ->
                                Padd p r == Padd q r -> p == q;
  Pmul_add : forall k s, valid k -> valid s ->
                         Pmul (sadd k s) g == Padd (Pmul k g) (Pmul s g);
  Pmul_zero : forall p, G p -> Padd p (Pmul szero g) == p
}.

Hypothesis W_pos : (0 < W)%Z.
Hypothesis MOD_wf : LimbSeq.wf W MOD.
Hypothesis laws : group_laws.
Hypothesis G_h : G h.

(** A jump table of valid scalars with their multiples of [g]. *)
Definition jump_ok (m : nat) (sl : list Scalar) (pl : list P) : Prop :=
  forall i, (i < m)%nat ->
    exists s, sl !! i = Some s /\ valid s /\ pl !! i = Some (Pmul s g).

Lemma jump_index_lt m u i :
  jump_index m u = Some i -> (0 < m)%Z -> (i < Z.to_nat m)%nat.
Proof.
  unfold jump_index. destruct (Z.eqb_spec m 0); [discriminate|].
  intros [= <-] Hm. pose proof (Z.mod_pos_bound (Px0 u) m Hm). lia.
Qed.

Lemma jump_index_pos m u i : jump_index m u = Some i -> (m <> 0)%Z.
Proof.
  unfold jump_index. destruct (Z.eqb_spec m 0); [discriminate | auto].
Qed.

(** The tame walk keeps [U == [x] g]. *)
Lemma tame_walk_invariant m sl pl steps : forall x u xT U,
  (0 <= m)%Z -> jump_ok (Z.to_nat m) sl pl ->
  valid x -> G u -> u == Pmul x g ->
  tame_walk steps m sl pl x u = Some (xT, U) ->
  valid xT /\ G U /\ U == Pmul xT g.
Proof.
  induction steps as [|n IH]; intros x u xT U Hm Hjump Hx Hu Hux Hwalk.
  - cbn in Hwalk. injection Hwalk as <- <-. split; [|split]; assumption.
  - cbn [tame_walk] in Hwalk.
    destruct (jump_index m u) as [i|] eqn:Hi; [|discriminate].
    cbn [mbind option_bind] in Hwalk.
    pose proof (jump_index_pos m u i Hi) as Hm0.
    pose proof (jump_index_lt m u i Hi ltac:(lia)) as Hlt.
    destruct (Hjump i Hlt) as (s & Hs & Hvs & Hp).
    rewrite Hs, Hp in Hwalk. cbn [mbind option_bind] in Hwalk.
    rewrite ModAddSub.add_inplace_eq in Hwalk.
    destruct (ModAddSub.add_value W MOD W_pos MOD_wf x s Hx Hvs) as (Hv' & _).
    apply (IH _ _ _ _ Hm Hjump Hv') in Hwalk; [exact Hwalk | |].
    + apply (G_add laws); [exact Hu | apply (G_mul laws); exact Hvs].
    + apply (Peq_trans laws) with (q := Padd (Pmul x g) (Pmul s g)).
      * apply (G_add laws); [exact Hu | apply (G_mul laws); exact Hvs].
      * apply (G_add laws); apply (G_mul laws); assumption.
      * apply (G_mul laws); exact Hv'.
      * apply (Padd_eq_l laws); try assumption;
          apply (G_mul laws); assumption.
      * apply (Peq_sym laws).
        -- apply (G_mul laws); exact Hv'.
        -- apply (G_add laws); apply (G_mul laws); assumption.
        -- apply (Pmul_add laws); assumption.
Qed.

(** The wild walk keeps [V == h + [d] g], and stops on [U == V]. *)
Lemma wild_walk_invariant m sl pl u steps : forall d v d',
  (0 <= m)%Z -> jump_ok (Z.to_nat m) sl pl ->
  valid d -> G v -> v == Padd h (Pmul d g) ->
  wild_walk steps m sl pl u d v = Some (Some d') ->
  exists v', valid d' /\ G v' /\ v' == Padd h (Pmul d' g) /\ u == v'.
Proof.
  induction steps as [|n IH]; intros d v d' Hm Hjump Hd Hv Hvd Hwalk.
  - cbn in Hwalk. discriminate.
  - cbn [wild_walk] in Hwalk.
    destruct (Peq u v) eqn:Huv.
    + injection Hwalk as <-. exists v. split; [|split; [|split]]; assumption.
    + destruct (jump_index m v) as [i|] eqn:Hi; [|discriminate].
      cbn [mbind option_bind] in Hwalk.
      pose proof (jump_index_pos m v i Hi) as Hm0.
      pose proof (jump_index_lt m v i Hi ltac:(lia)) as Hlt.
      destruct (Hjump i Hlt) as (s & Hs & Hvs & Hp).
      rewrite Hs, Hp in Hwalk. cbn [mbind option_bind] in Hwalk.
      rewrite ModAddSub.add_inplace_eq in Hwalk.
      destruct (ModAddSub.add_value W MOD W_pos MOD_wf d s Hd Hvs)
        as (Hv' & _).
      pose proof (G_mul laws d Hd) as Gd.
      pose proof (G_mul laws s Hvs) as Gs.
      pose proof (G_mul laws _ Hv') as Gds.
      apply (IH _ _ _ Hm Hjump Hv') in Hwalk; [exact Hwalk | |].
      * apply (G_add laws); assumption.
      * apply (Peq_trans laws)
          with (q := Padd (Padd h (Pmul d g)) (Pmul s g)).
        -- apply (G_add laws); assumption.
        -- repeat apply (G_add laws); assumption.
        -- apply (G_add laws); assumption.
        -- apply (Padd_eq_l laws); try assumption.
           apply (G_add laws); assumption.
        -- apply (Peq_trans laws)
             with (q := Padd h (Padd (Pmul d g) (Pmul s g))).
           ++ repeat apply (G_add laws); assumption.
           ++ repeat apply (G_add laws); assumption.
           ++ apply (G_add laws); assumption.
           ++ apply (Padd_assoc laws); assumption.
           ++ apply (Padd_eq_r laws); try assumption.
              ** apply (G_add laws); assumption.
              ** apply (Peq_sym laws); try assumption.
                 --- apply (G_add laws); assumption.
                 --- apply (Pmul_add laws); assumption.
Qed.

(** From [U == [xT] g], [U == V] and [V == h + [d] g]: [[xT - d] g == h]. *)
Lemma collision_gives_log xT d U V :
  valid xT -> valid d -> G U -> G V ->
  U == Pmul xT g -> U == V -> V == Padd h (Pmul d g) ->
  valid (ssub xT d) /\
  LimbSeq.eval W (ssub xT d)
  = ((LimbSeq.eval W xT - LimbSeq.eval W d) mod ModAddSub.M W MOD)%Z /\
  Pmul (ssub xT d) g == h.
Proof.
  intros HxT Hd GU GV HU HUV HV.
  destruct (ModAddSub.sub_value W MOD W_pos MOD_wf xT d HxT Hd) as (Hx & Hex).
  split; [exact Hx|]. split; [exact Hex|].
  set (x := ssub xT d) in *.
  destruct (ModAddSub.add_value W MOD W_pos MOD_wf x d Hx Hd) as (Hxd & Hexd).
  pose proof (ModAddSub.valid_range W MOD W_pos xT HxT) as RxT.
  pose proof (ModAddSub.valid_range W MOD W_pos d Hd) as Rd.
  assert (Hback : sadd x d = xT).
  { apply (ModAddSub.valid_inj W MOD W_pos); [exact Hxd | exact HxT |].
    rewrite Hexd, Hex. rewrite Z.add_mod_idemp_l by lia.
    replace (LimbSeq.eval W xT - LimbSeq.eval W d + LimbSeq.eval W d)%Z
      with (LimbSeq.eval W xT) by lia.
    apply Z.mod_small. lia. }
  pose proof (G_mul laws x Hx) as Gx.
  pose proof (G_mul laws d Hd) as Gd.
  pose proof (G_mul laws xT HxT) as GxT.
  pose proof (Pmul_add laws x d Hx Hd) as Hhom. rewrite Hback in Hhom.
  apply (Padd_cancel_r laws) with (r := Pmul d g); try assumption.
  (* [x] g + [d] g == [xT] g == U == V == h + [d] g *)
  apply (Peq_trans laws) with (q := Pmul xT g); try assumption.
  - apply (G_add laws); assumption.
  - apply (G_add laws); assumption.
  - apply (Peq_sym laws); try assumption. apply (G_add laws); assumption.
  - apply (Peq_trans laws) with (q := U); try assumption.
    + apply (G_add laws); assumption.
    + apply (Peq_sym laws); assumption.
    + apply (Peq_trans laws) with (q := V); try assumption.
      apply (G_add laws); assumption.
Qed.

(** The interval and the machine: [a < b] are elements of the scalar group,
    the bit positions of a scalar fit a limb and a [size_t], the generator
    of indices stays within its bound and the sampler within the group. *)
Variables a b bound : Scalar.

Local Abbreviation N := (ModAddSub.LIMB_N MOD).
Local Abbreviation M := (ModAddSub.M W MOD).

Hypothesis bits_fit_limb : (W * Z.of_nat N <= LimbSeq.base W)%Z.
Hypothesis bits_fit_size_t : (W * Z.of_nat N < 2 ^ 64)%Z.
Hypothesis rng_sample_le : forall ri r, ((rng_sample ri r).1 <= ri)%nat.
Hypothesis sample_valid : forall r, valid (sample_inclusive a b r).1.
Hypothesis a_valid : valid a.
Hypothesis b_valid : valid b.
Hypothesis a_lt_b : (LimbSeq.eval W a < LimbSeq.eval W b)%Z.

Lemma N_pos : (0 < N)%nat.
Proof.
  pose proof (ModAddSub.valid_range W MOD W_pos a a_valid) as Ra.
  unfold ModAddSub.M, ModAddSub.LIMB_N in *.
  destruct MOD; [cbn in Ra; lia | cbn; lia].
Qed.

(** For [a < b] the subtraction does not wrap and [m] is the integer
    logarithm of [b - a]. *)
Lemma jump_table_length_spec :
  jump_table_length a b = Z.log2 (LimbSeq.eval W b - LimbSeq.eval W a) /\
  (0 <= jump_table_length a b < W * Z.of_nat N)%Z /\
  (2 ^ jump_table_length a b <= LimbSeq.eval W b - LimbSeq.eval W a < M)%Z.
Proof.
  pose proof (ModAddSub.valid_range W MOD W_pos a a_valid) as Ra.
  pose proof (ModAddSub.valid_range W MOD W_pos b b_valid) as Rb.
  pose proof (ModAddSub.M_range W MOD W_pos MOD_wf) as RM.
  rewrite ModAddSub.pow_base_bits in RM by exact W_pos.
  destruct (ModAddSub.sub_value W MOD W_pos MOD_wf b a b_valid a_valid)
    as (_ & Hsub).
  rewrite Z.mod_small in Hsub by lia.
  set (x := (LimbSeq.eval W b - LimbSeq.eval W a)%Z) in *.
  assert (Hx : (0 < x)%Z) by (subst x; lia).
  pose proof (Z.log2_spec x Hx) as Hlog.
  pose proof (Z.log2_nonneg x) as Hlog0.
  assert (Hlt : (Z.log2 x < W * Z.of_nat N)%Z).
  { apply Z.log2_lt_pow2; lia. }
  assert (Hm : jump_table_length a b = Z.log2 x).
  { unfold jump_table_length, LimbSeq.most_significant_bit, size_t.
    rewrite Hsub. destruct (Z.eqb_spec x 0); [lia|].
    replace (Z.log2 x + 1 - 1)%Z with (Z.log2 x) by lia.
    apply Z.mod_small. lia. }
  rewrite Hm. repeat split; lia.
Qed.

(** The table built for the interval: its scalars are elements of the
    group. *)
Lemma build_gives_jump_ok sl pl rng sl' pl' rng' :
  let m := Z.to_nat (jump_table_length a b) in
  Forall (fun s => length s = N) sl ->
  (m <= length sl)%nat -> (m <= length pl)%nat ->
  build_jump_table m g sl pl rng = Some (sl', pl', rng') ->
  jump_ok m sl' pl' /\
  Forall (fun s => length s = N) sl' /\
  length sl' = length sl /\ length pl' = length pl.
Proof.
  intros m Hall Hm Hpl Hbuild.
  destruct jump_table_length_spec as (_ & Hmr & Hpow).
  assert (Hfit : (Z.of_nat m <= LimbSeq.base W)%Z) by (subst m; lia).
  destruct (build_jump_table_spec N m g W_pos Hfit N_pos rng_sample_le
              sl pl rng Hall Hm Hpl)
    as (sl1 & pl1 & rng1 & Hb1 & [Hlen1 Hall1] & Hlp1 & Hperm & Htab).
  rewrite Hb1 in Hbuild. injection Hbuild as <- <- <-.
  split; [|repeat split; assumption].
  intros i Hi. destruct (Htab i Hi) as (s & Hs & Hp).
  exists s. split; [exact Hs|]. split; [|exact Hp].
  assert (Hin : s ∈ take m sl1).
  { apply list_elem_of_lookup. exists i.
    rewrite lookup_take_lt by exact Hi. exact Hs. }
  rewrite Hperm in Hin.
  apply list_elem_of_fmap in Hin as (ez & -> & Hin).
  apply list_elem_of_fmap in Hin as (e & -> & Hin).
  apply elem_of_seq in Hin.
  assert (He : (Z.of_nat e < jump_table_length a b)%Z) by (subst m; lia).
  destruct (LimbSeq.eval_limbs_of W W_pos N (2 ^ Z.of_nat e)%Z)
    as (Hl & Hw & _).
  split; [exact Hw|]. split; [exact Hl|].
  fold (pow2_scalar N (Z.of_nat e)).
  rewrite (eval_pow2_scalar N W_pos e) by lia.
  assert ((2 ^ Z.of_nat e < 2 ^ jump_table_length a b)%Z)
    by (apply Z.pow_lt_mono_r; lia).
  lia.
Qed.

(** The run of one pass that ends in [return]: the jump table, the end of
    the tame walk [(xT, U)] and the accumulator [d] of the wild walk at the
    step that saw [U == V]. *)
Definition collision_at (sl : list Scalar) (pl : list P) (rng : Rng)
    (xT d : Scalar) : Prop :=
  exists sl' pl' rng' U,
    let m := jump_table_length a b in
    let steps := Z.to_nat (LimbSeq.eval W bound) in
    let x0 := (sample_inclusive a b rng').1 in
    build_jump_table (Z.to_nat m) g sl pl rng = Some (sl', pl', rng') /\
    tame_walk steps m sl' pl' x0 (Pmul x0 g) = Some (xT, U) /\
    wild_walk steps m sl' pl' U szero h = Some (Some d).

Lemma attempt_returned sl pl rng x :
  attempt bound a b g h sl pl rng = Some (inl x) ->
  exists xT d, collision_at sl pl rng xT d /\ x = ssub xT d.
Proof.
  unfold attempt, collision_at.
  destruct (build_jump_table _ g sl pl rng) as [[[sl' pl'] rng']|];
    [|discriminate].
  cbn [mbind option_bind].
  destruct (sample_inclusive a b rng') as [x0 rng''] eqn:Hx0.
  destruct (tame_walk _ _ sl' pl' x0 (Pmul x0 g)) as [[xT U]|] eqn:Htame;
    [|discriminate].
  cbn [mbind option_bind].
  destruct (wild_walk _ _ sl' pl' U _ h) as [[d|]|] eqn:Hwild;
    try discriminate.
  cbn [mbind option_bind]. intros [= <-].
  exists xT, d. split; [|reflexivity].
  exists sl', pl', rng', U. cbv zeta. rewrite Hx0. cbn [fst].
  split; [reflexivity|]. split; assumption.
Qed.

Lemma attempt_retry sl pl rng sl' pl' rng' :
  let m := Z.to_nat (jump_table_length a b) in
  Forall (fun s => length s = N) sl ->
  (m <= length sl)%nat -> (m <= length pl)%nat ->
  attempt bound a b g h sl pl rng = Some (inr (sl', pl', rng')) ->
  Forall (fun s => length s = N) sl' /\
  length sl' = length sl /\ length pl' = length pl.
Proof.
  intros m Hall Hm Hpl. unfold attempt.
  destruct (build_jump_table _ g sl pl rng) as [[[sl1 pl1] rng1]|] eqn:Hb;
    [|discriminate].
  cbn [mbind option_bind].
  destruct (sample_inclusive a b rng1) as [x0 rng2].
  destruct (tame_walk _ _ sl1 pl1 x0 (Pmul x0 g)) as [[xT U]|];
    [|discriminate].
  cbn [mbind option_bind].
  destruct (wild_walk _ _ sl1 pl1 U _ h) as [[d|]|]; try discriminate.
  cbn [mbind option_bind]. intros [= <- <- <-].
  destruct (build_gives_jump_ok sl pl rng sl1 pl1 rng1 Hall Hm Hpl Hb)
    as (_ & H1 & H2 & H3).
  repeat split; assumption.
Qed.

(** A collision gives the logarithm. *)
Lemma collision_at_correct sl pl rng xT d :
  let m := Z.to_nat (jump_table_length a b) in
  Forall (fun s => length s = N) sl ->
  (m <= length sl)%nat -> (m <= length pl)%nat ->
  collision_at sl pl rng xT d ->
  valid (ssub xT d) /\
  LimbSeq.eval W (ssub xT d)
  = ((LimbSeq.eval W xT - LimbSeq.eval W d) mod M)%Z /\
  Pmul (ssub xT d) g == h.
Proof.
  intros m Hall Hm Hpl (sl' & pl' & rng' & U & Hb & Htame & Hwild).
  destruct jump_table_length_spec as (_ & Hmr & _).
  destruct (build_gives_jump_ok sl pl rng sl' pl' rng' Hall Hm Hpl Hb)
    as (Hjump & _).
  pose proof (sample_valid rng') as Hx0.
  pose proof (G_mul laws _ Hx0) as Gx0.
  assert (Hm0 : (0 <= jump_table_length a b)%Z) by lia.
  destruct (tame_walk_invariant _ _ _ _ _ _ _ _ Hm0 Hjump Hx0 Gx0
              (Peq_refl laws _ Gx0) Htame) as (HxT & GU & HU).
  pose proof (ModAddSub.valid_range W MOD W_pos a a_valid) as Ra.
  pose proof (ModAddSub.valid_range W MOD W_pos b b_valid) as Rb.
  destruct (ModAddSub.valid_zero W MOD W_pos ltac:(lia)) as (Hz & _).
  assert (Hinit : h == Padd h (Pmul szero g)).
  { apply (Peq_sym laws).
    - apply (G_add laws); [exact G_h | apply (G_mul laws); exact Hz].
    - exact G_h.
    - apply (Pmul_zero laws). exact G_h. }
  destruct (wild_walk_invariant _ _ _ _ _ _ _ _ Hm0 Hjump Hz G_h Hinit Hwild)
    as (V & Hd & GV & HV & HUV).
  exact (collision_gives_log xT d U V HxT Hd GU GV HU HUV HV).
Qed.

(** C5: whenever [pollard_lambda] returns, it does so from a pass whose wild
    walk observed [U == V]; the scalar written to [x] is [xT - d] in the
    scalar group, for the tame scalar [xT] and the wild accumulator [d] of
    that pass, and [[x] g == h]. *)
Theorem pollard_lambda_returns_log fuel : forall sl pl rng x,
  Forall (fun s => length s = N) sl ->
  (Z.to_nat (jump_table_length a b) <= length sl)%nat ->
  (Z.to_nat (jump_table_length a b) <= length pl)%nat ->
  pollard_lambda fuel sl pl bound a b g h rng = Returned x ->
  exists sl0 pl0 rng0 xT d,
    collision_at sl0 pl0 rng0 xT d /\
    x = ssub xT d /\
    LimbSeq.eval W x
    = ((LimbSeq.eval W xT - LimbSeq.eval W d) mod M)%Z /\
    valid x /\
    Pmul x g == h.
Proof.
  induction fuel as [|fuel IH]; intros sl pl rng x Hall Hm Hpl Hrun.
  - discriminate Hrun.
  - cbn [pollard_lambda] in Hrun.
    destruct (attempt bound a b g h sl pl rng) as [[x'|[[sl' pl'] rng']]|]
      eqn:Hatt; try discriminate.
    + injection Hrun as ->.
      destruct (attempt_returned sl pl rng x Hatt) as (xT & d & Hcol & ->).
      destruct (collision_at_correct sl pl rng xT d Hall Hm Hpl Hcol)
        as (Hv & He & Hlog).
      exists sl, pl, rng, xT, d.
      split; [exact Hcol|]. split; [reflexivity|]. split; [exact He|].
      split; [exact Hv | exact Hlog].
    + destruct (attempt_retry sl pl rng sl' pl' rng' Hall Hm Hpl Hatt)
        as (Hall' & Hl1 & Hl2).
      apply (IH sl' pl' rng' x Hall'); [lia | lia | exact Hrun].
Qed.

(** *** Absence of undefined behaviour *)

Lemma jump_index_some m u : (0 < m)%Z -> exists i, jump_index m u = Some i.
Proof.
  intros Hm. unfold jump_index.
  destruct (Z.eqb_spec m 0); [lia | eauto].
Qed.

Lemma tame_walk_total m sl pl steps : forall x u,
  (0 < m)%Z -> jump_ok (Z.to_nat m) sl pl ->
  is_Some (tame_walk steps m sl pl x u).
Proof.
  induction steps as [|n IH]; intros x u Hm Hjump; [cbn; eauto|].
  cbn [tame_walk].
  destruct (jump_index_some m u Hm) as (i & Hi). rewrite Hi.
  cbn [mbind option_bind].
  pose proof (jump_index_lt m u i Hi Hm) as Hlt.
  destruct (Hjump i Hlt) as (s & Hs & _ & Hp).
  rewrite Hs, Hp. cbn [mbind option_bind]. apply IH; assumption.
Qed.

Lemma wild_walk_total m sl pl u steps : forall d v,
  (0 < m)%Z -> jump_ok (Z.to_nat m) sl pl ->
  is_Some (wild_walk steps m sl pl u d v).
Proof.
  induction steps as [|n IH]; intros d v Hm Hjump; [cbn; eauto|].
  cbn [wild_walk]. destruct (Peq u v); [eauto|].
  destruct (jump_index_some m v Hm) as (i & Hi). rewrite Hi.
  cbn [mbind option_bind].
  pose proof (jump_index_lt m v i Hi Hm) as Hlt.
  destruct (Hjump i Hlt) as (s & Hs & _ & Hp).
  rewrite Hs, Hp. cbn [mbind option_bind]. apply IH; assumption.
Qed.

(** For [b - a >= 2] the table is not empty. *)
Lemma jump_table_length_pos :
  (2 <= LimbSeq.eval W b - LimbSeq.eval W a)%Z ->
  (0 < jump_table_length a b)%Z.
Proof.
  intros H2. destruct jump_table_length_spec as (Hm & _ & _).
  rewrite Hm.
  apply (Z.log2_le_mono 2) in H2. change (Z.log2 2) with 1%Z in H2. lia.
Qed.

Lemma attempt_defined sl pl rng :
  (2 <= LimbSeq.eval W b - LimbSeq.eval W a)%Z ->
  Forall (fun s => length s = N) sl ->
  (Z.to_nat (jump_table_length a b) <= length sl)%nat ->
  (Z.to_nat (jump_table_length a b) <= length pl)%nat ->
  is_Some (attempt bound a b g h sl pl rng).
Proof.
  intros H2 Hall Hm Hpl.
  pose proof (jump_table_length_pos H2) as Hpos.
  destruct jump_table_length_spec as (_ & Hmr & _).
  assert (Hfit : (Z.of_nat (Z.to_nat (jump_table_length a b))
                  <= LimbSeq.base W)%Z) by lia.
  destruct (build_jump_table_spec N _ g W_pos Hfit N_pos rng_sample_le
              sl pl rng Hall Hm Hpl)
    as (sl1 & pl1 & rng1 & Hb & _).
  destruct (build_gives_jump_ok sl pl rng sl1 pl1 rng1 Hall Hm Hpl Hb)
    as (Hjump & _).
  unfold attempt. rewrite Hb. cbn [mbind option_bind].
  destruct (sample_inclusive a b rng1) as [x0 rng2].
  destruct (tame_walk_total _ sl1 pl1 (Z.to_nat (LimbSeq.eval W bound))
              x0 (Pmul x0 g) Hpos Hjump) as [[xT U] Ht].
  rewrite Ht. cbn [mbind option_bind].
  destruct (wild_walk_total _ sl1 pl1 U (Z.to_nat (LimbSeq.eval W bound))
              (LimbSeq.set_zero MOD) h Hpos Hjump) as [r Hw].
  rewrite Hw. cbn [mbind option_bind]. destruct r; eauto.
Qed.

(** X22: For an interval with [b - a >= 2] the length of the jump table is
    [m = log2 (b - a) >= 1], and with arrays [sl], [pl] of at least [m]
    entries no pass of [pollard_lambda] runs into undefined behaviour:
    every index into [sl] and [pl] is below [m] and no [% m] divides by
    zero, however long the solver runs. *)
Theorem pollard_lambda_defined fuel : forall sl pl rng,
  (2 <= LimbSeq.eval W b - LimbSeq.eval W a)%Z ->
  Forall (fun s => length s = N) sl ->
  (Z.to_nat (jump_table_length a b) <= length sl)%nat ->
  (Z.to_nat (jump_table_length a b) <= length pl)%nat ->
  jump_table_length a b = Z.log2 (LimbSeq.eval W b - LimbSeq.eval W a) /\
  (1 <= jump_table_length a b)%Z /\
  pollard_lambda fuel sl pl bound a b g h rng <> Undefined.
Proof.
  intros sl pl rng H2 Hall Hm Hpl.
  split; [exact (proj1 jump_table_length_spec)|].
  split; [pose proof (jump_table_length_pos H2); lia|].
  revert sl pl rng Hall Hm Hpl.
  induction fuel as [|fuel IH]; intros sl pl rng Hall Hm Hpl;
    [discriminate|].
  cbn [pollard_lambda].
  destruct (attempt_defined sl pl rng H2 Hall Hm Hpl) as [r Hr].
  rewrite Hr. destruct r as [x|[[sl' pl'] rng']]; [discriminate|].
  destruct (attempt_retry sl pl rng sl' pl' rng' Hall Hm Hpl Hr)
    as (Hall' & Hl1 & Hl2).
  apply IH; [exact Hall' | lia | lia].
Qed.

(** *** The walks of [worker] in the multithreaded solver *)

Section WorkerWalks.

(** [data.traps], a [std::unordered_map<P, S, typename P::Hasher>], as the
    list of its entries; [Pkey_eq] is the equality of its keys. *)
Variable Pkey_eq : P -> P -> bool.

Local Abbreviation Traps := (list (P * Scalar)).

(** [data.traps.find( *u)] *)
Definition traps_find (traps : Traps) (u : P) : option (P * Scalar) :=
  List.find (fun e => Pkey_eq e.1 u) traps.

(** [data.traps.insert(std::make_pair( *u, x))]: an entry whose key is
    already present is not replaced. *)
Definition traps_insert (traps : Traps) (u : P) (x : Scalar) : Traps :=
  match traps_find traps u with
  | Some _ => traps
  | None => traps ++ [(u, x)]
  end.

(** Setting a trap: [S::sample_inclusive(x, data.a, data.b, rng, ctx);
    P::mul( *u, x, data.g, ctx);], the walk of [data.bound] steps with
    [m = data.sl.size()], and the insertion of [( *u, x)]. *)
Definition set_trap (sl : list Scalar) (pl : list P) (traps : Traps)
    (rng : Rng) : option (Traps * Rng) :=
  let m := Z.of_nat (length sl) in
  let '(x, rng) := sample_inclusive a b rng in
  let u := Pmul x g in
  '(x, u) ← tame_walk (Z.to_nat (LimbSeq.eval W bound)) m sl pl x u;
  Some (traps_insert traps u x, rng).

(** How the search loop of a worker ends. *)
Inductive search_result : Type :=
  | Collision (v : Scalar)  (* a trap was hit: [S::sub(data.x, it->second, x)]
                               gives [v], written if the flag is not set *)
  | Stopped                 (* [data.shutdown] was read as true *)
  | Exhausted.              (* [data.bound] steps without a hit *)

(** The search loop; [shutdown j] is what the read of [data.shutdown] in
    iteration [j] returns. *)
Fixpoint search_walk (steps : nat) (j : nat) (m : Z) (sl : list Scalar)
    (pl : list P) (traps : Traps) (shutdown : nat -> bool) (x : Scalar)
    (u : P) : option search_result :=
  match steps with
  | O => Some Exhausted
  | S n =>
      if shutdown j then Some Stopped
      else
        let it := traps_find traps u in
        let hit :=
          match it with
          | Some (_, second) => bool_decide (second <> x)
          | None => false
          end in
        if hit
        then match it with
             | Some (_, second) =>
                 Some (Collision (ModAddSub.sub W MOD second x))
             | None => None
             end
        else
          i ← jump_index m u;
          s ← sl !! i;
          p ← pl !! i;
          search_walk n (S j) m sl pl traps shutdown
            (ModAddSub.add_inplace W MOD x s) (Padd u p)
  end.

(** Searching: [S::sample_inclusive(x, data.a, data.b, rng, ctx);
    P::mul( *tmp, x, data.g, ctx); P::add( *u, data.h, *tmp, ctx);] and the
    search loop. *)
Definition search (sl : list Scalar) (pl : list P) (traps : Traps)
    (shutdown : nat -> bool) (rng : Rng) : option (search_result * Rng) :=
  let m := Z.of_nat (length sl) in
  let '(x, rng) := sample_inclusive a b rng in
  let tmp := Pmul x g in
  let u := Padd h tmp in
  r ← search_walk (Z.to_nat (LimbSeq.eval W bound)) 0 m sl pl traps
         shutdown x u;
  Some (r, rng).

(** Every trap is a point with its logarithm. *)
Definition traps_ok (traps : Traps) : Prop :=
  Forall (fun e => G e.1 /\ valid e.2 /\ e.1 == Pmul e.2 g) traps.

(** Equal keys are equal points. *)
Hypothesis Pkey_eq_sound :
  forall p q, G p -> G q -> Pkey_eq p q = true -> p == q.

Lemma traps_find_ok traps u e :
  traps_ok traps -> traps_find traps u = Some e ->
  G e.1 /\ valid e.2 /\ e.1 == Pmul e.2 g /\ Pkey_eq e.1 u = true.
Proof.
  intros Hok Hfind. unfold traps_find in Hfind.
  apply find_some in Hfind as [Hin Hkey].
  apply list_elem_of_In in Hin.
  pose proof (proj1 (Forall_forall _ _) Hok e Hin) as (HG & Hv & He).
  split; [exact HG|]. split; [exact Hv|]. split; [exact He | exact Hkey].
Qed.

Lemma traps_insert_ok traps u x :
  traps_ok traps -> G u -> valid x -> u == Pmul x g ->
  traps_ok (traps_insert traps u x).
Proof.
  intros Hok HG Hv He. unfold traps_insert.
  destruct (traps_find traps u); [exact Hok|].
  apply Forall_app. split; [exact Hok|].
  apply Forall_cons. split; [|constructor]. cbn [fst snd].
  split; [exact HG|]. split; [exact Hv | exact He].
Qed.

(** One jump of a walk that keeps [v == h + [d] g]. *)
Lemma jump_keeps_offset d v s :
  valid d -> G v -> v == Padd h (Pmul d g) -> valid s ->
  valid (sadd d s) /\ G (Padd v (Pmul s g)) /\
  Padd v (Pmul s g) == Padd h (Pmul (sadd d s) g).
Proof.
  intros Hd Hv Hvd Hvs.
  destruct (ModAddSub.add_value W MOD W_pos MOD_wf d s Hd Hvs) as (Hv' & _).
  pose proof (G_mul laws d Hd) as Gd.
  pose proof (G_mul laws s Hvs) as Gs.
  pose proof (G_mul laws _ Hv') as Gds.
  split; [exact Hv'|]. split; [apply (G_add laws); assumption|].
  apply (Peq_trans laws) with (q := Padd (Padd h (Pmul d g)) (Pmul s g)).
  - apply (G_add laws); assumption.
  - repeat apply (G_add laws); assumption.
  - apply (G_add laws); assumption.
  - apply (Padd_eq_l laws); try assumption. apply (G_add laws); assumption.
  - apply (Peq_trans laws) with (q := Padd h (Padd (Pmul d g) (Pmul s g))).
    + repeat apply (G_add laws); assumption.
    + repeat apply (G_add laws); assumption.
    + apply (G_add laws); assumption.
    + apply (Padd_assoc laws); assumption.
    + apply (Padd_eq_r laws); try assumption.
      * apply (G_add laws); assumption.
      * apply (Peq_sym laws); try assumption.
        -- apply (G_add laws); assumption.
        -- apply (Pmul_add laws); assumption.
Qed.

Lemma search_walk_collision m sl pl traps shutdown steps : forall j x u v,
  (0 <= m)%Z -> jump_ok (Z.to_nat m) sl pl -> traps_ok traps ->
  valid x -> G u -> u == Padd h (Pmul x g) ->
  search_walk steps j m sl pl traps shutdown x u = Some (Collision v) ->
  exists t second x',
    In (t, second) traps /\ second <> x' /\ v = ssub second x' /\
    valid v /\ Pmul v g == h.
Proof.
  induction steps as [|n IH]; intros j x u v Hm Hjump Hok Hx Hu Hux Hwalk;
    [discriminate|].
  cbn [search_walk] in Hwalk.
  destruct (shutdown j); [discriminate|].
  destruct (traps_find traps u) as [[t second]|] eqn:Hfind.
  - destruct (bool_decide (second <> x)) eqn:Hne.
    + injection Hwalk as <-.
      apply bool_decide_eq_true in Hne.
      destruct (traps_find_ok traps u _ Hok Hfind) as (Gt & Hs & Hts & Hkey).
      cbn [fst snd] in *.
      destruct (collision_gives_log second x t u Hs Hx Gt Hu Hts
                  (Pkey_eq_sound t u Gt Hu Hkey) Hux) as (Hv & _ & Hlog).
      exists t, second, x.
      split; [unfold traps_find in Hfind;
              apply find_some in Hfind as [Hin _]; exact Hin|].
      split; [exact Hne|]. split; [reflexivity|].
      split; [exact Hv | exact Hlog].
    + revert Hwalk.
      destruct (jump_index m u) as [i|] eqn:Hi; [|discriminate].
      cbn [mbind option_bind].
      pose proof (jump_index_pos m u i Hi) as Hm0.
      pose proof (jump_index_lt m u i Hi ltac:(lia)) as Hlt.
      destruct (Hjump i Hlt) as (s & Hs & Hvs & Hp).
      rewrite Hs, Hp. cbn [mbind option_bind].
      rewrite ModAddSub.add_inplace_eq. intros Hwalk.
      destruct (jump_keeps_offset x u s Hx Hu Hux Hvs) as (Hx' & Hu' & Hux').
      exact (IH _ _ _ _ Hm Hjump Hok Hx' Hu' Hux' Hwalk).
  - revert Hwalk.
    destruct (jump_index m u) as [i|] eqn:Hi; [|discriminate].
    cbn [mbind option_bind].
    pose proof (jump_index_pos m u i Hi) as Hm0.
    pose proof (jump_index_lt m u i Hi ltac:(lia)) as Hlt.
    destruct (Hjump i Hlt) as (s & Hs & Hvs & Hp).
    rewrite Hs, Hp. cbn [mbind option_bind].
    rewrite ModAddSub.add_inplace_eq. intros Hwalk.
    destruct (jump_keeps_offset x u s Hx Hu Hux Hvs) as (Hx' & Hu' & Hux').
    exact (IH _ _ _ _ Hm Hjump Hok Hx' Hu' Hux' Hwalk).
Qed.

(** X23: Setting traps keeps the map sound: with a jump table of scalars and
    their multiples of [g], every entry that [worker] inserts into
    [data.traps] is a point [u] with a scalar [x] such that [u == [x] g],
    and the entries already present stay as they are. *)
Theorem set_trap_sound sl pl traps rng traps' rng' :
  jump_ok (length sl) sl pl -> traps_ok traps ->
  set_trap sl pl traps rng = Some (traps', rng') ->
  traps_ok traps' /\ traps `prefix_of` traps' /\
  (length traps' <= S (length traps))%nat.
Proof.
  intros Hjump Hok. unfold set_trap. cbv zeta.
  pose proof (sample_valid rng) as Hx0.
  destruct (sample_inclusive a b rng) as [x0 rng1]. cbn [fst] in Hx0.
  destruct (tame_walk _ _ sl pl x0 (Pmul x0 g)) as [[xT U]|] eqn:Htame;
    [|discriminate].
  cbn [mbind option_bind]. intros [= <- <-].
  pose proof (G_mul laws _ Hx0) as Gx0.
  rewrite <- (Nat2Z.id (length sl)) in Hjump.
  destruct (tame_walk_invariant _ _ _ _ _ _ _ _ (Nat2Z.is_nonneg _) Hjump
              Hx0 Gx0 (Peq_refl laws _ Gx0) Htame) as (HxT & GU & HU).
  split; [exact (traps_insert_ok traps U xT Hok GU HxT HU)|].
  unfold traps_insert. destruct (traps_find traps U).
  - split; [reflexivity | lia].
  - split; [apply prefix_app_r; reflexivity|].
    rewrite length_app. cbn. lia.
Qed.

(** X24: A hit is a logarithm: when the search loop of [worker] ends at a trap,
    the scalar [it->second - x] that it is about to write to [data.x] is an
    element [v] of the scalar group with [[v] g == h]. *)
Theorem search_collision_gives_log sl pl traps shutdown rng v rng' :
  jump_ok (length sl) sl pl -> traps_ok traps ->
  search sl pl traps shutdown rng = Some (Collision v, rng') ->
  valid v /\ Pmul v g == h /\
  exists t second x,
    In (t, second) traps /\ second <> x /\ v = ssub second x.
Proof.
  intros Hjump Hok. unfold search. cbv zeta.
  pose proof (sample_valid rng) as Hx0.
  destruct (sample_inclusive a b rng) as [x0 rng1]. cbn [fst] in Hx0.
  destruct (search_walk _ 0 _ sl pl traps shutdown x0 _) as [r|] eqn:Hwalk;
    [|discriminate].
  cbn [mbind option_bind]. intros [= -> <-].
  pose proof (G_mul laws _ Hx0) as Gx0.
  pose proof (G_add laws _ _ G_h Gx0) as Gu.
  rewrite <- (Nat2Z.id (length sl)) in Hjump.
  destruct (search_walk_collision _ _ _ _ _ _ _ _ _ _ (Nat2Z.is_nonneg _)
              Hjump Hok Hx0 Gu (Peq_refl laws _ Gu) Hwalk)
    as (t & second & x' & Hin & Hne & Hv & Hval & Hlog).
  split; [exact Hval|]. split; [exact Hlog|].
  exists t, second, x'.
  split; [exact Hin|]. split; [exact Hne | exact Hv].
Qed.

End WorkerWalks.

End Correctness.

(** *** What the solver leaves alone *)

Lemma for_loop_preserves {St : Type} (Inv : St -> Prop)
    (body : nat -> St -> option St) (n : nat) : forall i st st',
  Inv st ->
  (forall k s s', i <= k < i + n -> Inv s -> body k s = Some s' -> Inv s') ->
  for_loop n body i st = Some st' -> Inv st'.
Proof.
  induction n as [|n IH]; intros i st st' Hinv Hstep Hloop.
  - injection Hloop as <-. exact Hinv.
  - cbn [for_loop] in Hloop.
    destruct (body i st) as [s1|] eqn:Hb; [|discriminate].
    apply (IH (S i) s1 st'); [|intros k s s' Hk; apply Hstep; lia|exact Hloop].
    exact (Hstep i st s1 ltac:(lia) Hinv Hb).
Qed.

(** A list that agrees with [l0] from index [m] on. *)
Definition same_from {T : Type} (m : nat) (l0 l : list T) : Prop :=
  length l = length l0 /\ forall k, m <= k -> l !! k = l0 !! k.

Lemma same_from_refl {T : Type} m (l : list T) : same_from m l l.
Proof. split; [reflexivity | intros; reflexivity]. Qed.

Lemma same_from_insert {T : Type} m (l0 l : list T) i v :
  i < m -> same_from m l0 l -> same_from m l0 (<[i := v]> l).
Proof.
  intros Hi [Hlen Hk]. split; [rewrite length_insert; exact Hlen|].
  intros k Hmk. rewrite list_lookup_insert_ne by lia. apply Hk. exact Hmk.
Qed.

(** X25: Building the jump table of length [m] writes the first [m] entries of
    [sl] and [pl] only: the arrays keep their lengths and every entry from
    index [m] on is as the caller left it. *)
Theorem build_jump_table_frame m g sl pl rng sl' pl' rng' :
  (forall ri r, (rng_sample ri r).1 <= ri) ->
  build_jump_table m g sl pl rng = Some (sl', pl', rng') ->
  length sl' = length sl /\ length pl' = length pl /\
  (forall k, m <= k -> sl' !! k = sl !! k) /\
  (forall k, m <= k -> pl' !! k = pl !! k).
Proof.
  intros Hrng. unfold build_jump_table.
  destruct (for_loop m init_body 0 sl) as [sl1|] eqn:H1; [|discriminate].
  cbn [mbind option_bind].
  destruct (for_loop m (shuffle_body m) 0 (sl1, rng)) as [[sl2 rng2]|] eqn:H2;
    [|discriminate].
  cbn [mbind option_bind].
  destruct (for_loop m (table_body g) 0 (sl2, pl)) as [[sl3 pl3]|] eqn:H3;
    [|discriminate].
  cbn [mbind option_bind]. intros [= <- <- <-].
  assert (S1 : same_from m sl sl1).
  { apply (for_loop_preserves (same_from m sl) init_body m 0 sl sl1);
      [apply same_from_refl | | exact H1].
    intros k s s' Hk Hs Hb. unfold init_body in Hb.
    destruct (s !! k); [|discriminate]. injection Hb as <-.
    apply same_from_insert; [lia | exact Hs]. }
  assert (S2 : same_from m sl sl2).
  { apply (for_loop_preserves (fun st => same_from m sl st.1)
             (shuffle_body m) m 0 (sl1, rng) (sl2, rng2));
      [exact S1 | | exact H2].
    intros k [s r] [s' r'] Hk Hs Hb. cbn [fst] in *.
    unfold shuffle_body in Hb.
    pose proof (Hrng (m - 1 - k) r) as Hj.
    destruct (rng_sample (m - 1 - k) r) as [j r1]. cbn [fst] in Hj.
    destruct (s !! (m - 1 - k)) as [sr|]; [|discriminate].
    cbn [mbind option_bind] in Hb.
    destruct (s !! j) as [sj|]; [|discriminate].
    cbn [mbind option_bind] in Hb.
    destruct (<[m - 1 - k := set_limb0 sr (limb0 sj)]> s !! j) as [sj'|];
      [|discriminate].
    injection Hb as <- <-.
    apply same_from_insert; [lia|].
    apply same_from_insert; [lia | exact Hs]. }
  assert (S3 : same_from m sl sl3 /\ same_from m pl pl3).
  { apply (for_loop_preserves
             (fun st => same_from m sl st.1 /\ same_from m pl st.2)
             (table_body g) m 0 (sl2, pl) (sl3, pl3));
      [split; [exact S2 | apply same_from_refl] | | exact H3].
    intros k [s p] [s' p'] Hk [Hs Hp] Hb. cbn [fst snd] in *.
    unfold table_body in Hb.
    destruct (s !! k) as [sk|]; [|discriminate].
    cbn [mbind option_bind] in Hb.
    destruct (p !! k) as [pk|]; [|discriminate].
    injection Hb as <- <-.
    split; apply same_from_insert; try lia; assumption. }
  destruct S3 as [[L1 K1] [L2 K2]].
  split; [exact L1|]. split; [exact L2|]. split; [exact K1 | exact K2].
Qed.

(** X26: With [bound = 0] neither walk makes a step and the wild walk never
    compares [U] with [V]: [pollard_lambda] rebuilds the jump table for
    ever and does not return, whatever [h] is. *)
Theorem pollard_lambda_zero_bound fuel : forall sl pl bound a b g h rng x,
  LimbSeq.eval W bound = 0%Z ->
  pollard_lambda fuel sl pl bound a b g h rng <> Returned x.
Proof.
  induction fuel as [|fuel IH]; intros sl pl bound a b g h rng x Hb;
    [discriminate|].
  cbn [pollard_lambda]. unfold attempt. rewrite Hb.
  change (Z.to_nat 0) with 0.
  destruct (build_jump_table _ g sl pl rng) as [[[sl1 pl1] rng1]|];
    [|discriminate].
  cbn [mbind option_bind].
  destruct (sample_inclusive a b rng1) as [x0 rng2].
  cbn [tame_walk wild_walk mbind option_bind].
  apply IH. exact Hb.
Qed.

End Solver.
End PollardLambda.

(** ** A small instance of the solver: the cyclic group of order 1009, its
       elements as residues, scalars of one 32 bit limb *)

Module Cyclic1009.
Local Open Scope Z_scope.

Definition q : Z := 1009.
Definition MOD : list Z := [q].

Definition point : Type := Z.
Definition G (p : point) : Prop := 0 <= p < q.
Definition Pmul (k : list Z) (p : point) : point := (LimbSeq.eval 32 k * p) mod q.
Definition Padd (p r : point) : point := (p + r) mod q.
Definition Peq (p r : point) : bool := p =? r.
Definition Px0 (p : point) : Z := p.

(** A linear congruential generator stands for [GecRng]. *)
Definition next (st : Z) : Z := (st * 1103515245 + 12345) mod 2 ^ 31.
Definition rng_sample (ri : nat) (st : Z) : nat * Z :=
  (Z.to_nat (st mod (Z.of_nat ri + 1)), next st).
Definition sample_inclusive (a b : list Z) (st : Z) : list Z * Z :=
  ([LimbSeq.eval 32 a + st mod (LimbSeq.eval 32 b - LimbSeq.eval 32 a + 1)],
   next st).

Definition g : point := 5.

Definition pollard_lambda (fuel : nat) (sl : list (list Z)) (pl : list point)
    (bound a b : list Z) (h : point) (seed : Z) : PollardLambda.outcome :=
  PollardLambda.pollard_lambda 32 MOD Pmul Padd Peq Px0 rng_sample
    sample_inclusive fuel sl pl bound a b g h seed.

Lemma MOD1009_wf : LimbSeq.wf 32 MOD.
Proof. apply Field160.wf_limbs. reflexivity. Qed.

Lemma M_eq : ModAddSub.M 32 MOD = q.
Proof. reflexivity. Qed.

Lemma valid_limb (v : Z) : 0 <= v < q -> ModAddSub.valid 32 MOD [v].
Proof.
  intros Hv. unfold q in Hv. split; [|split].
  - apply Forall_cons. split; [|constructor].
    unfold LimbSeq.limb_ok, LimbSeq.base. lia.
  - reflexivity.
  - unfold ModAddSub.M, MOD, q. cbn [LimbSeq.eval]. lia.
Qed.

Lemma G_Pmul k p : G (Pmul k p).
Proof. unfold G, Pmul, q. apply Z.mod_pos_bound. lia. Qed.

Lemma G_Padd p r : G (Padd p r).
Proof. unfold G, Padd, q. apply Z.mod_pos_bound. lia. Qed.

Lemma Padd_cancel (p r s : point) :
  G p -> G r -> Padd p s = Padd r s -> p = r.
Proof.
  unfold G, Padd, q. intros Hp Hr Heq.
  pose proof (Z.div_mod (p + s) 1009 ltac:(lia)) as H1.
  pose proof (Z.div_mod (r + s) 1009 ltac:(lia)) as H2.
  rewrite Heq in H1. lia.
Qed.

Lemma laws : PollardLambda.group_laws 32 MOD Pmul Padd Peq G g.
Proof.
  constructor.
  - intros k _. apply G_Pmul.
  - intros p r _ _. apply G_Padd.
  - intros p _. apply Z.eqb_refl.
  - intros p r _ _ H. apply Z.eqb_eq in H. apply Z.eqb_eq. congruence.
  - intros p r s _ _ _ H1 H2. apply Z.eqb_eq in H1, H2. apply Z.eqb_eq.
    congruence.
  - intros p r s _ _ _ H. apply Z.eqb_eq in H. apply Z.eqb_eq. congruence.
  - intros p r s _ _ _ H. apply Z.eqb_eq in H. apply Z.eqb_eq. congruence.
  - intros p r s _ _ _. apply Z.eqb_eq. unfold Padd, q.
    rewrite Z.add_mod_idemp_l, Z.add_mod_idemp_r by lia. f_equal. lia.
  - intros p r s Hp Hr _ H. apply Z.eqb_eq in H. apply Z.eqb_eq.
    exact (Padd_cancel p r s Hp Hr H).
  - intros k s Hk Hs. apply Z.eqb_eq. unfold Pmul, Padd.
    destruct (ModAddSub.add_value 32 MOD Field160.limb_bits_pos MOD1009_wf k s Hk Hs) as (_ & He).
    rewrite He, M_eq. unfold q.
    rewrite Z.mul_mod_idemp_l by lia. rewrite <- Z.add_mod by lia.
    f_equal. lia.
  - intros p Hp. apply Z.eqb_eq. unfold Padd, Pmul, G, q in *.
    cbn. rewrite Z.add_0_r. apply Z.mod_small. exact Hp.
Qed.

Lemma rng_sample_le (ri : nat) (r : Z) : ((rng_sample ri r).1 <= ri)%nat.
Proof.
  unfold rng_sample. cbn [fst].
  pose proof (Z.mod_pos_bound r (Z.of_nat ri + 1) ltac:(lia)). lia.
Qed.

Lemma sample_valid (r : Z) :
  ModAddSub.valid 32 MOD (sample_inclusive [0] [64] r).1.
Proof.
  unfold sample_inclusive. cbn [fst]. apply valid_limb.
  change (LimbSeq.eval 32 [0]) with 0. change (LimbSeq.eval 32 [64]) with 64.
  pose proof (Z.mod_pos_bound r (64 - 0 + 1) ltac:(lia)). unfold q. lia.
Qed.

(** The solver on the interval [[0, 64]] for [h = [37] g]: it returns 37. *)
Example pollard_lambda_finds_37 :
  pollard_lambda 20 (replicate 8 [0]) (replicate 8 0) [8] [0] [64]
    (Pmul [37] g) 42
  = PollardLambda.Returned [37].
Proof. vm_compute. reflexivity. Qed.

(** [pollard_lambda_returns_log] at that run. *)
Lemma pollard_lambda_returns_log_witness :
  pollard_lambda 20 (replicate 8 [0]) (replicate 8 0) [8] [0] [64]
    (Pmul [37] g) 42
  = PollardLambda.Returned [37] /\
  exists xT d,
    [37] = ModAddSub.sub 32 MOD xT d /\
    LimbSeq.eval 32 [37]
    = (LimbSeq.eval 32 xT - LimbSeq.eval 32 d) mod ModAddSub.M 32 MOD /\
    Peq (Pmul [37] g) (Pmul [37] g) = true.
Proof.
  split; [exact pollard_lambda_finds_37|].
  destruct (PollardLambda.pollard_lambda_returns_log 32 MOD Pmul Padd Peq Px0
              rng_sample sample_inclusive G g (Pmul [37] g)
              Field160.limb_bits_pos MOD1009_wf laws (G_Pmul _ _) [0] [64] [8]
              ltac:(vm_compute; discriminate) ltac:(reflexivity)
              rng_sample_le sample_valid
              (valid_limb 0 ltac:(unfold q; lia))
              (valid_limb 64 ltac:(unfold q; lia))
              ltac:(reflexivity)
              20%nat (replicate 8 [0]) (replicate 8 0) 42 [37]
              ltac:(repeat constructor)
              ltac:(vm_compute; lia) ltac:(vm_compute; lia)
              pollard_lambda_finds_37)
    as (sl0 & pl0 & rng0 & xT & d & _ & Hx & He & _ & Hlog).
  exists xT, d. split; [exact Hx|]. split; [exact He | exact Hlog].
Defined.

(** [jump_table_permutation] for a table of length 6. *)
Lemma jump_table_permutation_witness :
  exists sl' pl' rng',
    PollardLambda.build_jump_table 32 Pmul rng_sample 6 g
      (replicate 6 [0]) (replicate 6 0) 42 = Some (sl', pl', rng') /\
    PollardLambda.worker_jump_table 32 Pmul rng_sample 0 g
      (replicate 6 [0]) (replicate 6 0) 42 = Some (sl', pl', rng') /\
    (LimbSeq.eval 32 <$> take 6 sl') ≡ₚ [1; 2; 4; 8; 16; 32] /\
    NoDup (LimbSeq.eval 32 <$> take 6 sl') /\
    (forall i, (i < 6)%nat ->
       exists s, sl' !! i = Some s /\ pl' !! i = Some (Pmul s g)).
Proof.
  destruct (PollardLambda.jump_table_permutation 32 Pmul rng_sample 1 6 g
              Field160.limb_bits_pos ltac:(vm_compute; discriminate) ltac:(lia) rng_sample_le
              (replicate 6 [0]) (replicate 6 0) 42
              ltac:(repeat constructor) ltac:(cbn; lia) ltac:(cbn; lia)
              ltac:(lia))
    as (sl' & pl' & rng' & Hb & Hw & _ & Hp & Hn & Ht).
  exists sl', pl', rng'.
  split; [exact Hb|]. split; [apply Hw; reflexivity|].
  split; [exact Hp|]. split; [exact Hn | exact Ht].
Defined.

(** C10 (the code departs from the claim): for [a < b] the length [m] of
    the jump table should be at least 1.  The interval [[0, 1)] satisfies
    the precondition [a < b], and [m = most_significant_bit(1) - 1 = 0]: the
    first step of the tame walk computes [u->x().array()[0] % m] with
    [m = 0]. *)
Theorem jump_table_length_zero :
  ModAddSub.valid 32 MOD [0] /\ ModAddSub.valid 32 MOD [1] /\
  LimbSeq.eval 32 [0] < LimbSeq.eval 32 [1] /\
  PollardLambda.jump_table_length 32 MOD [0] [1] = 0 /\
  PollardLambda.jump_index Px0 0 (Pmul [0] g) = None /\
  pollard_lambda 1 [] [] [1] [0] [1] (Pmul [0] g) 42
  = PollardLambda.Undefined.
Proof.
  split; [apply valid_limb; unfold q; lia|].
  split; [apply valid_limb; unfold q; lia|].
  repeat split.
Qed.

End Cyclic1009.

(** ** Runs of the solver and of a worker on the group of order 1009 *)

Module Cyclic1009Runs.
Import Cyclic1009.
Local Open Scope Z_scope.

Lemma valid_0 : ModAddSub.valid 32 MOD [0].
Proof. apply valid_limb. unfold q. lia. Qed.

Lemma valid_64 : ModAddSub.valid 32 MOD [64].
Proof. apply valid_limb. unfold q. lia. Qed.

(** [pollard_lambda_defined] on the interval [[0, 64]], whose jump table
    has [log2 64 = 6] entries, with arrays of 8 entries. *)
Lemma pollard_lambda_defined_witness :
  2 <= LimbSeq.eval 32 [64] - LimbSeq.eval 32 [0] /\
  PollardLambda.jump_table_length 32 MOD [0] [64] = 6 /\
  pollard_lambda 20 (replicate 8 [0]) (replicate 8 0) [8] [0] [64]
    (Pmul [37] g) 42
  <> PollardLambda.Undefined.
Proof.
  assert (H2 : 2 <= LimbSeq.eval 32 [64] - LimbSeq.eval 32 [0])
    by (vm_compute; discriminate).
  destruct (PollardLambda.pollard_lambda_defined 32 MOD Pmul Padd Peq Px0
              rng_sample sample_inclusive g (Pmul [37] g)
              Field160.limb_bits_pos MOD1009_wf [0] [64] [8]
              ltac:(vm_compute; discriminate) ltac:(reflexivity)
              rng_sample_le sample_valid valid_0 valid_64
              ltac:(reflexivity)
              20%nat (replicate 8 [0]) (replicate 8 0) 42 H2
              ltac:(repeat constructor)
              ltac:(vm_compute; lia) ltac:(vm_compute; lia))
    as (_ & _ & Hdef).
  split; [exact H2|]. split; [reflexivity | exact Hdef].
Defined.

(** [build_jump_table_frame]: a table of 6 entries built in arrays of 8. *)
Lemma build_jump_table_frame_witness :
  PollardLambda.build_jump_table 32 Pmul rng_sample 6 g
    (replicate 8 [7]) (replicate 8 9) 42
  = Some ([[2]; [8]; [16]; [32]; [4]; [1]; [7]; [7]],
          [10; 40; 80; 160; 20; 5; 9; 9], 71666532) /\
  forall k, (6 <= k)%nat ->
    [[2]; [8]; [16]; [32]; [4]; [1]; [7]; [7]] !! k
    = replicate 8 [7] !! k.
Proof.
  assert (Hb : PollardLambda.build_jump_table 32 Pmul rng_sample 6 g
                 (replicate 8 [7]) (replicate 8 9) 42
               = Some ([[2]; [8]; [16]; [32]; [4]; [1]; [7]; [7]],
                       [10; 40; 80; 160; 20; 5; 9; 9], 71666532))
    by (vm_compute; reflexivity).
  split; [exact Hb|].
  exact (proj1 (proj2 (proj2
           (PollardLambda.build_jump_table_frame 32 Pmul rng_sample 6 g
              _ _ _ _ _ _ rng_sample_le Hb)))).
Defined.

(** [pollard_lambda_zero_bound] for the target [[37] g]. *)
Lemma pollard_lambda_zero_bound_witness :
  LimbSeq.eval 32 [0] = 0 /\
  pollard_lambda 20 (replicate 8 [0]) (replicate 8 0) [0] [0] [64]
    (Pmul [37] g) 42
  = PollardLambda.Running.
Proof.
  split; [reflexivity|].
  pose proof (PollardLambda.pollard_lambda_zero_bound 32 MOD Pmul Padd Peq
                Px0 rng_sample sample_inclusive 20 (replicate 8 [0])
                (replicate 8 0) [0] [0] [64] g (Pmul [37] g) 42) as Hz.
  unfold pollard_lambda.
  destruct (PollardLambda.pollard_lambda 32 MOD Pmul Padd Peq Px0 rng_sample
              sample_inclusive 20 (replicate 8 [0]) (replicate 8 0)
              [0] [0] [64] g (Pmul [37] g) 42) as [x| |] eqn:Hrun.
  - exfalso. exact (Hz x eq_refl eq_refl).
  - vm_compute in Hrun. discriminate Hrun.
  - reflexivity.
Defined.

(** The jump table that worker 0 builds from seed 42, the traps of three
    walks and a search for [h = [37] g]. *)
Definition sl : list (list Z) := [[2]; [8]; [16]; [32]; [4]; [1]].
Definition pl : list point := [10; 40; 80; 160; 20; 5].
Definition traps : list (point * list Z) :=
  [(130, [26]); (360, [72]); (300, [60])].

Definition set_trap :=
  PollardLambda.set_trap 32 MOD Pmul Padd Px0 sample_inclusive g
    [0] [64] [8] Z.eqb sl pl.
Definition search (h : point) :=
  PollardLambda.search 32 MOD Pmul Padd Px0 sample_inclusive g h
    [0] [64] [8] Z.eqb sl pl traps.

Lemma table_built :
  PollardLambda.worker_jump_table 32 Pmul rng_sample 0 g
    (replicate 6 [0]) (replicate 6 0) 42 = Some (sl, pl, 71666532).
Proof. vm_compute. reflexivity. Qed.

Lemma table_ok : PollardLambda.jump_ok 32 MOD Pmul g (length sl) sl pl.
Proof.
  intros i Hi. cbn [length sl] in Hi.
  do 6 (destruct i as [|i];
        [eexists; split; [reflexivity|];
         split; [apply valid_limb; unfold q; lia | reflexivity]|]).
  lia.
Qed.

Lemma traps_set :
  ('(t, r) ← set_trap [] 71666532; '(t, r) ← set_trap t r; set_trap t r)
  = Some (traps, 1314989459).
Proof. vm_compute. reflexivity. Qed.

Lemma no_traps_ok : PollardLambda.traps_ok 32 MOD Pmul Peq G g [].
Proof. constructor. Qed.

Lemma Pkey_eq_sound (p r : point) :
  G p -> G r -> (p =? r) = true -> Peq p r = true.
Proof. intros _ _ H. exact H. Qed.

(** [set_trap_sound] at the first trap. *)
Lemma set_trap_sound_witness :
  set_trap [] 71666532 = Some ([(130, [26])], 896336333) /\
  PollardLambda.traps_ok 32 MOD Pmul Peq G g [(130, [26])].
Proof.
  assert (Hs : set_trap [] 71666532 = Some ([(130, [26])], 896336333))
    by (vm_compute; reflexivity).
  split; [exact Hs|].
  exact (proj1 (PollardLambda.set_trap_sound 32 MOD Pmul Padd Peq Px0
                  sample_inclusive G g Field160.limb_bits_pos MOD1009_wf
                  laws [0] [64] [8] sample_valid Z.eqb sl pl [] 71666532
                  _ _ table_ok no_traps_ok Hs)).
Defined.

Lemma traps_sound : PollardLambda.traps_ok 32 MOD Pmul Peq G g traps.
Proof.
  repeat (apply Forall_cons; split;
          [split; [unfold G, q; cbn; lia|];
           split; [apply valid_limb; unfold q; lia | reflexivity]|]).
  constructor.
Qed.

(** [search_collision_gives_log]: the search from seed 1 hits a trap and
    is about to write 37, the logarithm of [h = [37] g]. *)
Lemma search_collision_gives_log_witness :
  search (Pmul [37] g) (fun _ => false) 1
  = Some (PollardLambda.Collision [37], next 1) /\
  ModAddSub.valid 32 MOD [37] /\
  Peq (Pmul [37] g) (Pmul [37] g) = true.
Proof.
  assert (Hs : search (Pmul [37] g) (fun _ => false) 1
               = Some (PollardLambda.Collision [37], next 1))
    by (vm_compute; reflexivity).
  destruct (PollardLambda.search_collision_gives_log 32 MOD Pmul Padd Peq
              Px0 sample_inclusive G g (Pmul [37] g)
              Field160.limb_bits_pos MOD1009_wf laws (G_Pmul _ _)
              [0] [64] [8] sample_valid Z.eqb Pkey_eq_sound sl pl traps
              (fun _ => false) 1 [37] (next 1) table_ok traps_sound Hs)
    as (Hv & Hlog & _).
  split; [exact Hs|]. split; [exact Hv | exact Hlog].
Defined.

End Cyclic1009Runs.

(** ** The multithreaded solver: the shutdown protocol of [worker] *)

Module Worker.
Section Protocol.

(** The type [S] of the result cell [data.x], and the number of iterations
    of the search loop ([data.bound]). *)
Context {value : Type}.
Variable bound : nat.

(** Where a worker is in [worker]: the places at which it reads or writes
    [data.shutdown], [data.x], [data.x_lock] or waits at [data.barrier]. *)
Inductive loc : Type :=
  | Top                        (* top of [while (true)]: the jump table *)
  | Wait1                      (* first [pthread_barrier_wait] *)
  | Trap                       (* setting traps *)
  | Wait2                      (* second [pthread_barrier_wait] *)
  | Search (j : nat)           (* head of the search loop, [j] steps left *)
  | Probe (j : nat)            (* read [shutdown] as false: [traps.find] *)
  | Lock (v : value)           (* a hit: [pthread_mutex_lock(&data.x_lock)] *)
  | Locked (v : value)         (* [if (!data.shutdown)] *)
  | WriteX (v : value)         (* [S::sub(data.x, it->second, x)] *)
  | SetShutdown                (* [data.shutdown = true] *)
  | Unlock                     (* [pthread_mutex_unlock(&data.x_lock)] *)
  | Wait3                      (* third [pthread_barrier_wait] *)
  | Check                      (* [if (data.shutdown)] after the barrier *)
  | Exit.                      (* [return nullptr] *)

(** [SharedData], as far as the protocol goes, with the program counters of
    the workers; [x_writes] logs every write to [data.x] with its writer. *)
Record state : Type := mkState {
  pcs : list loc;
  shutdown : bool;
  x_lock : option nat;
  x_writes : list (nat * value)
}.

Definition set_pc (i : nat) (l : loc) (s : state) : state :=
  {| pcs := <[i := l]> (pcs s); shutdown := shutdown s;
     x_lock := x_lock s; x_writes := x_writes s |}.

(** One step of worker [i].  [obs] is what the unsynchronised read of
    [data.shutdown] at the head of the search loop returns: it may be a stale
    [false], never a [true] that was not written.  [probe] is the outcome of
    [data.traps.find( *u)]: [Some v] for a hit with [it->second != x], [v]
    being [it->second - x].  [None]: the worker cannot move (it waits at a
    barrier or for the mutex, or it has returned). *)
Definition worker_step (i : nat) (obs : bool) (probe : option value)
    (s : state) : option state :=
  l ← pcs s !! i;
  match l with
  | Top => Some (set_pc i Wait1 s)
  | Wait1 => None
  | Trap => Some (set_pc i Wait2 s)
  | Wait2 => None
  | Search O => Some (set_pc i Wait3 s)
  | Search (S j) =>
      if obs
      then (if shutdown s then Some (set_pc i Wait3 s) else None)
      else Some (set_pc i (Probe j) s)
  | Probe j =>
      match probe with
      | Some v => Some (set_pc i (Lock v) s)
      | None => Some (set_pc i (Search j) s)
      end
  | Lock v =>
      match x_lock s with
      | None =>
          Some {| pcs := <[i := Locked v]> (pcs s); shutdown := shutdown s;
                  x_lock := Some i; x_writes := x_writes s |}
      | Some _ => None
      end
  | Locked v =>
      if shutdown s then Some (set_pc i Unlock s)
      else Some (set_pc i (WriteX v) s)
  | WriteX v =>
      Some {| pcs := <[i := SetShutdown]> (pcs s); shutdown := shutdown s;
              x_lock := x_lock s; x_writes := x_writes s ++ [(i, v)] |}
  | SetShutdown =>
      Some {| pcs := <[i := Unlock]> (pcs s); shutdown := true;
              x_lock := x_lock s; x_writes := x_writes s |}
  | Unlock =>
      Some {| pcs := <[i := Wait3]> (pcs s); shutdown := shutdown s;
              x_lock := None; x_writes := x_writes s |}
  | Wait3 => None
  | Check =>
      if shutdown s then Some (set_pc i Exit s) else Some (set_pc i Top s)
  | Exit => None
  end.

Definition at_wait1 (l : loc) : bool :=
  match l with Wait1 => true | _ => false end.
Definition at_wait2 (l : loc) : bool :=
  match l with Wait2 => true | _ => false end.
Definition at_wait3 (l : loc) : bool :=
  match l with Wait3 => true | _ => false end.

Definition release (l : loc) (s : state) : state :=
  {| pcs := (fun _ => l) <$> pcs s; shutdown := shutdown s;
     x_lock := x_lock s; x_writes := x_writes s |}.

(** The barrier opens when every worker waits at it. *)
Definition barrier_step (s : state) : option state :=
  match pcs s with
  | [] => None
  | _ :: _ =>
      if forallb at_wait1 (pcs s) then Some (release Trap s)
      else if forallb at_wait2 (pcs s) then Some (release (Search bound) s)
      else if forallb at_wait3 (pcs s) then Some (release Check s)
      else None
  end.

(** [SharedData(worker_n, ...)] and the start of the [worker_n] threads. *)
Definition init (worker_n : nat) : state :=
  {| pcs := replicate worker_n Top; shutdown := false;
     x_lock := None; x_writes := [] |}.

Inductive step (s s' : state) : Prop :=
  | step_worker (i : nat) (obs : bool) (probe : option value) :
      worker_step i obs probe s = Some s' -> step s s'
  | step_barrier : barrier_step s = Some s' -> step s s'.

Inductive reachable (worker_n : nat) : state -> Prop :=
  | reachable_init : reachable worker_n (init worker_n)
  | reachable_step s s' :
      reachable worker_n s -> step s s' -> reachable worker_n s'.

(** *** Invariants *)

Definition holds_lock (l : loc) : bool :=
  match l with
  | Locked _ | WriteX _ | SetShutdown | Unlock => true
  | _ => false
  end.

Definition phaseA (l : loc) : bool :=
  match l with Top | Wait1 | Check => true | _ => false end.
Definition phaseB (l : loc) : bool :=
  match l with Trap | Wait2 => true | _ => false end.
Definition phaseC (l : loc) : bool :=
  match l with
  | Search _ | Probe _ | Lock _ | Locked _ | WriteX _ | SetShutdown
  | Unlock | Wait3 => true
  | _ => false
  end.
Definition phaseD (l : loc) : bool :=
  match l with Check | Exit => true | _ => false end.

Definition all_in (ph : loc -> bool) (s : state) : Prop :=
  Forall (fun l => ph l = true) (pcs s).

(** The workers move through the barriers together; once the flag is set no
    worker is before the search loop. *)
Definition phase_inv (s : state) : Prop :=
  (all_in phaseA s /\ shutdown s = false) \/
  (all_in phaseB s /\ shutdown s = false) \/
  all_in phaseC s \/
  (all_in phaseD s /\ shutdown s = true).

(** [x_lock] is held by exactly the worker inside the critical section. *)
Definition mutex_inv (s : state) : Prop :=
  (forall i l, pcs s !! i = Some l -> holds_lock l = true ->
               x_lock s = Some i) /\
  (forall i, x_lock s = Some i ->
             exists l, pcs s !! i = Some l /\ holds_lock l = true).

(** [data.x] is written only with the flag still false, and the flag is set
    right after. *)
Definition write_inv (s : state) : Prop :=
  (forall i v, pcs s !! i = Some (WriteX v) ->
               shutdown s = false /\ x_writes s = []) /\
  (shutdown s = false ->
   x_writes s = [] \/ exists i, pcs s !! i = Some SetShutdown) /\
  length (x_writes s) <= 1.

Definition inv (s : state) : Prop :=
  phase_inv s /\ mutex_inv s /\ write_inv s.

Lemma all_in_lookup ph s i l :
  all_in ph s -> pcs s !! i = Some l -> ph l = true.
Proof. intros H Hl. exact (proj1 (Forall_lookup _ _) H i l Hl). Qed.

Lemma all_in_insert ph s i l lock fl ws :
  all_in ph s -> ph l = true ->
  all_in ph {| pcs := <[i := l]> (pcs s); shutdown := fl;
               x_lock := lock; x_writes := ws |}.
Proof. intros H Hl. apply Forall_insert; assumption. Qed.

Lemma all_in_release ph l s :
  ph l = true -> all_in ph (release l s).
Proof.
  intros Hl. unfold all_in, release. cbn [pcs].
  apply Forall_fmap, Forall_true. intros x. exact Hl.
Qed.

Lemma forallb_all_in ph s : forallb ph (pcs s) = true -> all_in ph s.
Proof.
  intros H. apply Forall_forall. intros l Hl.
  rewrite forallb_forall in H. apply H. apply list_elem_of_In. exact Hl.
Qed.

(** Two phases that share no place cannot both hold of a worker. *)
Lemma all_in_disjoint ph1 ph2 s :
  pcs s <> [] -> all_in ph1 s -> all_in ph2 s ->
  (forall l, ph1 l = true -> ph2 l = true -> False) -> False.
Proof.
  intros Hne H1 H2 Hd. unfold all_in in *.
  destruct (pcs s) as [|l ls]; [congruence|].
  apply Forall_cons in H1 as [H1 _]. apply Forall_cons in H2 as [H2 _].
  exact (Hd l H1 H2).
Qed.

(** Splits a step of worker [i] into its cases. *)
Ltac worker_cases H l Hl :=
  unfold worker_step in H;
  match type of H with
  | context [pcs ?s !! ?i] =>
      destruct (pcs s !! i) as [l|] eqn:Hl; [|discriminate H]
  end;
  cbn [mbind option_bind] in H;
  destruct l as [| | | | [|?] | ? | ? | ? | ? | | | | |];
  repeat match type of H with
         | context [match ?o with Some _ => _ | None => _ end] =>
             destruct o eqn:?
         | context [if ?b then _ else _] => destruct b eqn:?
         end;
  try discriminate H;
  injection H as H; subst.

Ltac phase_absurd :=
  match goal with
  | Hph : all_in ?ph ?s, Hl : pcs ?s !! _ = Some _ |- _ =>
      let Hc := fresh in
      pose proof (all_in_lookup ph s _ _ Hph Hl) as Hc;
      cbn in Hc; discriminate Hc
  end.

Lemma phase_inv_worker_step i obs probe s s' :
  phase_inv s -> worker_step i obs probe s = Some s' -> phase_inv s'.
Proof.
  intros Hph Hstep. worker_cases Hstep l Hl;
    destruct Hph as [[Hph Hfl]|[[Hph Hfl]|[Hph|[Hph Hfl]]]];
    try phase_absurd; try congruence; unfold phase_inv, set_pc.
  (* Top *)
  - left. split; [apply all_in_insert; [exact Hph | reflexivity] | exact Hfl].
  (* Trap *)
  - right; left.
    split; [apply all_in_insert; [exact Hph | reflexivity] | exact Hfl].
  (* the search loop *)
  - right; right; left. apply all_in_insert; [exact Hph | reflexivity].
  - right; right; left. apply all_in_insert; [exact Hph | reflexivity].
  - right; right; left. apply all_in_insert; [exact Hph | reflexivity].
  - right; right; left. apply all_in_insert; [exact Hph | reflexivity].
  - right; right; left. apply all_in_insert; [exact Hph | reflexivity].
  - right; right; left. apply all_in_insert; [exact Hph | reflexivity].
  - right; right; left. apply all_in_insert; [exact Hph | reflexivity].
  - right; right; left. apply all_in_insert; [exact Hph | reflexivity].
  - right; right; left. apply all_in_insert; [exact Hph | reflexivity].
  - right; right; left. apply all_in_insert; [exact Hph | reflexivity].
  - right; right; left. apply all_in_insert; [exact Hph | reflexivity].
  (* Check *)
  - right; right; right.
    split; [apply all_in_insert; [exact Hph | reflexivity] | exact Hfl].
  - left. split; [apply all_in_insert; [exact Hph | reflexivity] | exact Hfl].
Qed.

Lemma barrier_step_cases s s' :
  barrier_step s = Some s' ->
  pcs s <> [] /\
  ((all_in at_wait1 s /\ s' = release Trap s) \/
   (all_in at_wait2 s /\ s' = release (Search bound) s) \/
   (all_in at_wait3 s /\ s' = release Check s)).
Proof.
  unfold barrier_step. intros H.
  destruct (pcs s) as [|l ls] eqn:Hp; [discriminate H|].
  rewrite <- Hp in *. split; [rewrite Hp; discriminate|].
  destruct (forallb at_wait1 (pcs s)) eqn:H1.
  { left. injection H as <-. split; [apply forallb_all_in, H1 | reflexivity]. }
  destruct (forallb at_wait2 (pcs s)) eqn:H2.
  { right; left. injection H as <-.
    split; [apply forallb_all_in, H2 | reflexivity]. }
  destruct (forallb at_wait3 (pcs s)) eqn:H3; [|discriminate H].
  right; right. injection H as <-.
  split; [apply forallb_all_in, H3 | reflexivity].
Qed.

Ltac disjoint_phases Hne H1 H2 :=
  exfalso; apply (all_in_disjoint _ _ _ Hne H1 H2);
  intros [] Ha Hb; discriminate.

Lemma phase_inv_barrier_step s s' :
  phase_inv s -> barrier_step s = Some s' -> phase_inv s'.
Proof.
  intros Hph Hstep.
  destruct (barrier_step_cases s s' Hstep)
    as (Hne & [[Hw ->]|[[Hw ->]|[Hw ->]]]);
    destruct Hph as [[Hph Hfl]|[[Hph Hfl]|[Hph|[Hph Hfl]]]];
    try (disjoint_phases Hne Hw Hph); unfold phase_inv.
  - right; left. split; [apply all_in_release; reflexivity | exact Hfl].
  - right; right; left. apply all_in_release. reflexivity.
  - destruct (shutdown s) eqn:Hfl.
    + right; right; right.
      split; [apply all_in_release; reflexivity | exact Hfl].
    + left. split; [apply all_in_release; reflexivity | exact Hfl].
Qed.

Lemma release_lookup l s k lk : pcs (release l s) !! k = Some lk -> lk = l.
Proof.
  unfold release. cbn [pcs]. rewrite list_lookup_fmap.
  destruct (pcs s !! k); cbn; congruence.
Qed.

(** At a barrier nobody is inside the critical section. *)
Lemma waiting_no_holder ph s :
  (forall l, ph l = true -> holds_lock l = false) ->
  all_in ph s -> mutex_inv s -> x_lock s = None.
Proof.
  intros Hd Hall [_ Hm]. destruct (x_lock s) as [k|] eqn:Hk; [|reflexivity].
  destruct (Hm k eq_refl) as (l & Hl & Hh).
  rewrite (Hd l (all_in_lookup ph s k l Hall Hl)) in Hh. discriminate.
Qed.

Lemma mutex_inv_release ph l s :
  (forall l', ph l' = true -> holds_lock l' = false) ->
  holds_lock l = false ->
  all_in ph s -> mutex_inv s -> mutex_inv (release l s).
Proof.
  intros Hd Hl Hall Hm.
  pose proof (waiting_no_holder ph s Hd Hall Hm) as Hnone.
  split.
  - intros k lk Hk Hh. apply release_lookup in Hk. subst lk. congruence.
  - intros k Hk. cbn in Hk. congruence.
Qed.

Lemma write_inv_release ph l s :
  (forall l', ph l' = true -> holds_lock l' = false) ->
  holds_lock l = false ->
  all_in ph s -> write_inv s -> write_inv (release l s).
Proof.
  intros Hd Hl Hall (Hw1 & Hw2 & Hw3). split; [|split].
  - intros k v Hk. apply release_lookup in Hk. subst l. discriminate Hl.
  - intros Hfl. left. destruct (Hw2 Hfl) as [Hw|(k & Hk)]; [exact Hw|].
    pose proof (Hd _ (all_in_lookup ph s k _ Hall Hk)) as Hc. discriminate Hc.
  - exact Hw3.
Qed.

Lemma inv_barrier_step s s' : inv s -> barrier_step s = Some s' -> inv s'.
Proof.
  intros (Hph & Hm & Hw) Hstep.
  split; [exact (phase_inv_barrier_step s s' Hph Hstep)|].
  destruct (barrier_step_cases s s' Hstep)
    as (Hne & [[Hall ->]|[[Hall ->]|[Hall ->]]]).
  - split; [apply (mutex_inv_release at_wait1) | apply (write_inv_release at_wait1)];
      try assumption; try reflexivity; intros []; cbn; congruence.
  - split; [apply (mutex_inv_release at_wait2) | apply (write_inv_release at_wait2)];
      try assumption; try reflexivity; intros []; cbn; congruence.
  - split; [apply (mutex_inv_release at_wait3) | apply (write_inv_release at_wait3)];
      try assumption; try reflexivity; intros []; cbn; congruence.
Qed.

(** A step of worker [i] that keeps the mutex as it is. *)
Lemma mutex_inv_set_pc s i l l' fl ws :
  mutex_inv s -> pcs s !! i = Some l -> holds_lock l' = holds_lock l ->
  mutex_inv {| pcs := <[i := l']> (pcs s); shutdown := fl;
               x_lock := x_lock s; x_writes := ws |}.
Proof.
  intros [Hm1 Hm2] Hl Hh. pose proof (lookup_lt_Some _ _ _ Hl) as Hlt.
  split; cbn [pcs x_lock].
  - intros k lk Hk Hlk. destruct (decide (k = i)) as [->|Hne].
    + rewrite list_lookup_insert_eq in Hk by exact Hlt.
      injection Hk as <-. apply (Hm1 i l Hl). congruence.
    + rewrite list_lookup_insert_ne in Hk by congruence.
      exact (Hm1 k lk Hk Hlk).
  - intros k Hk. destruct (Hm2 k Hk) as (lk & Hlk & Hhk).
    destruct (decide (k = i)) as [->|Hne].
    + exists l'. rewrite list_lookup_insert_eq by exact Hlt.
      split; [reflexivity|]. congruence.
    + exists lk. rewrite list_lookup_insert_ne by congruence.
      split; assumption.
Qed.

Lemma mutex_inv_lock s i l l' fl ws :
  mutex_inv s -> pcs s !! i = Some l -> x_lock s = None ->
  holds_lock l' = true ->
  mutex_inv {| pcs := <[i := l']> (pcs s); shutdown := fl;
               x_lock := Some i; x_writes := ws |}.
Proof.
  intros [Hm1 Hm2] Hl Hnone Hh. pose proof (lookup_lt_Some _ _ _ Hl) as Hlt.
  split; cbn [pcs x_lock].
  - intros k lk Hk Hlk. destruct (decide (k = i)) as [->|Hne]; [reflexivity|].
    rewrite list_lookup_insert_ne in Hk by congruence.
    pose proof (Hm1 k lk Hk Hlk). congruence.
  - intros k [= <-]. exists l'.
    rewrite list_lookup_insert_eq by exact Hlt. split; [reflexivity | exact Hh].
Qed.

Lemma mutex_inv_unlock s i l l' fl ws :
  mutex_inv s -> pcs s !! i = Some l -> holds_lock l = true ->
  holds_lock l' = false ->
  mutex_inv {| pcs := <[i := l']> (pcs s); shutdown := fl;
               x_lock := None; x_writes := ws |}.
Proof.
  intros [Hm1 Hm2] Hl Hh Hh'. pose proof (lookup_lt_Some _ _ _ Hl) as Hlt.
  pose proof (Hm1 i l Hl Hh) as Hi.
  split; cbn [pcs x_lock].
  - intros k lk Hk Hlk. destruct (decide (k = i)) as [->|Hne].
    + rewrite list_lookup_insert_eq in Hk by exact Hlt. congruence.
    + rewrite list_lookup_insert_ne in Hk by congruence.
      pose proof (Hm1 k lk Hk Hlk). congruence.
  - intros k Hk. discriminate Hk.
Qed.

Lemma mutex_inv_worker_step i obs probe s s' :
  mutex_inv s -> worker_step i obs probe s = Some s' -> mutex_inv s'.
Proof.
  intros Hm Hstep. worker_cases Hstep l Hl; unfold set_pc;
    first [ apply (mutex_inv_set_pc s i _ _ _ _ Hm Hl); reflexivity
          | apply (mutex_inv_lock s i _ _ _ _ Hm Hl); [assumption | reflexivity]
          | apply (mutex_inv_unlock s i _ _ _ _ Hm Hl); reflexivity ].
Qed.

(** Two workers inside the critical section are the same worker. *)
Lemma holders_equal s i k l lk :
  mutex_inv s -> pcs s !! i = Some l -> holds_lock l = true ->
  pcs s !! k = Some lk -> holds_lock lk = true -> k = i.
Proof.
  intros [Hm1 _] Hl Hh Hlk Hhk.
  pose proof (Hm1 i l Hl Hh). pose proof (Hm1 k lk Hlk Hhk). congruence.
Qed.

Definition is_WriteX (l : loc) : bool :=
  match l with WriteX _ => true | _ => false end.
Definition is_SetShutdown (l : loc) : bool :=
  match l with SetShutdown => true | _ => false end.

(** A step that touches neither the flag nor the log, does not enter
    [WriteX] and does not leave [SetShutdown]. *)
Lemma write_inv_set_pc s i l l' lock :
  write_inv s -> pcs s !! i = Some l ->
  is_WriteX l' = false -> is_SetShutdown l = false ->
  write_inv {| pcs := <[i := l']> (pcs s); shutdown := shutdown s;
               x_lock := lock; x_writes := x_writes s |}.
Proof.
  intros (Hw1 & Hw2 & Hw3) Hl Hl' Hls.
  pose proof (lookup_lt_Some _ _ _ Hl) as Hlt.
  split; [|split]; cbn [pcs shutdown x_writes].
  - intros k v Hk. destruct (decide (k = i)) as [->|Hne].
    + rewrite list_lookup_insert_eq in Hk by exact Hlt.
      injection Hk as ->. discriminate Hl'.
    + rewrite list_lookup_insert_ne in Hk by congruence. exact (Hw1 k v Hk).
  - intros Hfl. destruct (Hw2 Hfl) as [Hw|(k & Hk)]; [left; exact Hw|].
    right. exists k. destruct (decide (k = i)) as [->|Hne].
    + rewrite Hl in Hk. injection Hk as ->. discriminate Hls.
    + rewrite list_lookup_insert_ne by congruence. exact Hk.
  - exact Hw3.
Qed.

(** [Locked -> WriteX]: the flag was read as false under the mutex. *)
Lemma write_inv_enter s i v :
  mutex_inv s -> write_inv s -> pcs s !! i = Some (Locked v) ->
  shutdown s = false ->
  write_inv (set_pc i (WriteX v) s).
Proof.
  intros Hm (Hw1 & Hw2 & Hw3) Hl Hfl.
  pose proof (lookup_lt_Some _ _ _ Hl) as Hlt.
  assert (Hempty : x_writes s = []).
  { destruct (Hw2 Hfl) as [Hw|(k & Hk)]; [exact Hw|].
    pose proof (holders_equal s i k _ _ Hm Hl eq_refl Hk eq_refl) as ->.
    rewrite Hl in Hk. discriminate Hk. }
  split; [|split]; cbn [set_pc pcs shutdown x_writes].
  - intros k w Hk. split; assumption.
  - intros _. left. exact Hempty.
  - exact Hw3.
Qed.

(** [WriteX -> SetShutdown]: the one write to [data.x]. *)
Lemma write_inv_write s i v :
  mutex_inv s -> write_inv s -> pcs s !! i = Some (WriteX v) ->
  write_inv {| pcs := <[i := SetShutdown]> (pcs s); shutdown := shutdown s;
               x_lock := x_lock s; x_writes := x_writes s ++ [(i, v)] |}.
Proof.
  intros Hm (Hw1 & Hw2 & Hw3) Hl.
  pose proof (lookup_lt_Some _ _ _ Hl) as Hlt.
  destruct (Hw1 i v Hl) as (Hfl & Hempty).
  split; [|split]; cbn [pcs shutdown x_writes].
  - intros k w Hk. destruct (decide (k = i)) as [->|Hne].
    + rewrite list_lookup_insert_eq in Hk by exact Hlt. discriminate Hk.
    + rewrite list_lookup_insert_ne in Hk by congruence.
      pose proof (holders_equal s i k _ _ Hm Hl eq_refl Hk eq_refl).
      congruence.
  - intros _. right. exists i. apply list_lookup_insert_eq. exact Hlt.
  - rewrite Hempty. cbn. lia.
Qed.

(** [SetShutdown -> Unlock]: the flag becomes true. *)
Lemma write_inv_set_flag s i :
  mutex_inv s -> write_inv s -> pcs s !! i = Some SetShutdown ->
  write_inv {| pcs := <[i := Unlock]> (pcs s); shutdown := true;
               x_lock := x_lock s; x_writes := x_writes s |}.
Proof.
  intros Hm (Hw1 & Hw2 & Hw3) Hl.
  pose proof (lookup_lt_Some _ _ _ Hl) as Hlt.
  split; [|split]; cbn [pcs shutdown x_writes].
  - intros k w Hk. destruct (decide (k = i)) as [->|Hne].
    + rewrite list_lookup_insert_eq in Hk by exact Hlt. discriminate Hk.
    + rewrite list_lookup_insert_ne in Hk by congruence.
      pose proof (holders_equal s i k _ _ Hm Hl eq_refl Hk eq_refl).
      congruence.
  - discriminate.
  - exact Hw3.
Qed.

Lemma write_inv_worker_step i obs probe s s' :
  mutex_inv s -> write_inv s ->
  worker_step i obs probe s = Some s' -> write_inv s'.
Proof.
  intros Hm Hw Hstep. worker_cases Hstep l Hl;
    first [ apply (write_inv_enter s i _ Hm Hw Hl); assumption
          | apply (write_inv_write s i _ Hm Hw Hl)
          | apply (write_inv_set_flag s i Hm Hw Hl)
          | apply (write_inv_set_pc s i _ _ _ Hw Hl); reflexivity ].
Qed.

Lemma inv_worker_step i obs probe s s' :
  inv s -> worker_step i obs probe s = Some s' -> inv s'.
Proof.
  intros (Hph & Hm & Hw) Hstep. split; [|split].
  - exact (phase_inv_worker_step i obs probe s s' Hph Hstep).
  - exact (mutex_inv_worker_step i obs probe s s' Hm Hstep).
  - exact (write_inv_worker_step i obs probe s s' Hm Hw Hstep).
Qed.

Lemma inv_init n : inv (init n).
Proof.
  split; [|split].
  - left. split; [|reflexivity]. unfold all_in, init. cbn [pcs].
    apply Forall_replicate. reflexivity.
  - split.
    + intros i l Hl Hh. unfold init in Hl. cbn [pcs] in Hl.
      apply lookup_replicate in Hl as [-> _]. discriminate Hh.
    + intros i Hi. discriminate Hi.
  - split; [|split].
    + intros i v Hl. unfold init in Hl. cbn [pcs] in Hl.
      apply lookup_replicate in Hl as [Hl _]. discriminate Hl.
    + intros _. left. reflexivity.
    + cbn. lia.
Qed.

Lemma reachable_inv n s : reachable n s -> inv s.
Proof.
  induction 1 as [|s s' _ IH Hstep].
  - apply inv_init.
  - destruct Hstep as [i obs probe Hstep|Hstep].
    + exact (inv_worker_step i obs probe s s' IH Hstep).
    + exact (inv_barrier_step s s' IH Hstep).
Qed.

(** The flag is only ever set. *)
Lemma shutdown_step_monotone s s' :
  step s s' -> shutdown s = true -> shutdown s' = true.
Proof.
  intros [i obs probe Hstep|Hstep] Hfl.
  - worker_cases Hstep l Hl; cbn [set_pc shutdown]; congruence.
  - destruct (barrier_step_cases s s' Hstep)
      as (_ & [[_ ->]|[[_ ->]|[_ ->]]]); exact Hfl.
Qed.

(** The log of writes only grows. *)
Lemma x_writes_step_prefix s s' :
  step s s' -> x_writes s `prefix_of` x_writes s'.
Proof.
  intros [i obs probe Hstep|Hstep].
  - worker_cases Hstep l Hl; cbn [set_pc x_writes];
      first [reflexivity | apply prefix_app_r; reflexivity].
  - destruct (barrier_step_cases s s' Hstep)
      as (_ & [[_ ->]|[[_ ->]|[_ ->]]]); reflexivity.
Qed.

Inductive steps : state -> state -> Prop :=
  | steps_refl s : steps s s
  | steps_step s s' s'' : steps s s' -> step s' s'' -> steps s s''.

Lemma steps_reachable n s s' : reachable n s -> steps s s' -> reachable n s'.
Proof.
  intros Hr Hs. induction Hs as [|s s' s'' _ IH Hstep]; [exact Hr|].
  exact (reachable_step n s' s'' (IH Hr) Hstep).
Qed.

Lemma shutdown_steps_monotone s s' :
  steps s s' -> shutdown s = true -> shutdown s' = true.
Proof.
  induction 1 as [|s s' s'' _ IH Hstep]; intros Hfl; [exact Hfl|].
  exact (shutdown_step_monotone s' s'' Hstep (IH Hfl)).
Qed.

Lemma x_writes_steps_prefix s s' :
  steps s s' -> x_writes s `prefix_of` x_writes s'.
Proof.
  induction 1 as [|s s' s'' _ IH Hstep]; [reflexivity|].
  etransitivity; [exact IH | exact (x_writes_step_prefix s' s'' Hstep)].
Qed.

(** *** Termination once the flag is set *)

(** How far a worker is from [return nullptr] once the flag is set. *)
Definition rank (l : loc) : nat :=
  match l with
  | Exit => 0
  | Check => 1
  | Wait3 => 2
  | Unlock => 3
  | SetShutdown => 4
  | WriteX _ => 5
  | Locked _ => 6
  | Lock _ => 7
  | Search j => 8 + 2 * j
  | Probe j => 9 + 2 * j
  | Top | Wait1 | Trap | Wait2 => 0
  end.

Definition measure (s : state) : nat := sum_list (rank <$> pcs s).

(** A worker that waits at a barrier or has returned. *)
Definition blocked (l : loc) : bool :=
  match l with
  | Wait1 | Wait2 | Wait3 | Exit => true
  | _ => false
  end.

Lemma sum_list_insert (l : list nat) i x y :
  l !! i = Some x -> sum_list (<[i := y]> l) + x = sum_list l + y.
Proof.
  revert i. induction l as [|z l IH]; intros [|i] Hl; try discriminate.
  - injection Hl as ->. cbn. lia.
  - cbn in Hl. cbn [sum_list]. specialize (IH i Hl).
    change (<[S i := y]> (z :: l)) with (z :: <[i := y]> l).
    cbn [sum_list]. lia.
Qed.

Lemma measure_insert s i l l' fl lock ws :
  pcs s !! i = Some l -> rank l' < rank l ->
  measure {| pcs := <[i := l']> (pcs s); shutdown := fl;
             x_lock := lock; x_writes := ws |} < measure s.
Proof.
  intros Hl Hr. unfold measure. cbn [pcs].
  rewrite list_fmap_insert.
  pose proof (sum_list_insert (rank <$> pcs s) i (rank l) (rank l')) as Hs.
  rewrite list_lookup_fmap, Hl in Hs. specialize (Hs eq_refl). lia.
Qed.

Lemma sum_list_const (c : nat) (l : list loc) :
  sum_list ((fun _ => c) <$> l) = c * length l.
Proof. induction l as [|x l IH]; cbn; [lia | rewrite IH; lia]. Qed.

Lemma measure_release l s :
  measure (release l s) = rank l * length (pcs s).
Proof.
  unfold measure, release. cbn [pcs].
  rewrite <- list_fmap_compose. apply (sum_list_const (rank l)).
Qed.

Lemma measure_all_wait3 s :
  all_in at_wait3 s -> measure s = 2 * length (pcs s).
Proof.
  unfold all_in, measure. induction (pcs s) as [|l ls IH]; intros H.
  - reflexivity.
  - apply Forall_cons in H as [Hl H]. destruct l; try discriminate Hl.
    cbn. rewrite (IH H). lia.
Qed.

Lemma measure_step s s' :
  phase_inv s -> shutdown s = true -> step s s' -> measure s' < measure s.
Proof.
  intros Hph Hfl [i obs probe Hstep|Hstep].
  - worker_cases Hstep l Hl;
      destruct Hph as [[Hph Hf]|[[Hph Hf]|[Hph|[Hph Hf]]]];
      try phase_absurd; try congruence;
      apply (measure_insert s i _ _ _ _ _ Hl); cbn [rank]; lia.
  - destruct (barrier_step_cases s s' Hstep)
      as (Hne & [[Hw ->]|[[Hw ->]|[Hw ->]]]);
      destruct Hph as [[Hph Hf]|[[Hph Hf]|[Hph|[Hph Hf]]]];
      try congruence; try (disjoint_phases Hne Hw Hph).
    rewrite measure_release, (measure_all_wait3 s Hw). cbn [rank].
    destruct (pcs s); [congruence | cbn; lia].
Qed.

Lemma forallb_false_lookup (f : loc -> bool) (l : list loc) :
  forallb f l = false -> exists i x, l !! i = Some x /\ f x = false.
Proof.
  induction l as [|y l IH]; cbn; [discriminate|].
  destruct (f y) eqn:Hy; cbn.
  - intros H. destruct (IH H) as (i & x & Hl & Hx). exists (S i), x. auto.
  - intros _. exists 0, y. auto.
Qed.

Lemma all_in_forallb ph s : all_in ph s -> forallb ph (pcs s) = true.
Proof.
  intros H. apply forallb_forall. intros l Hl.
  apply list_elem_of_In in Hl. exact (proj1 (Forall_forall _ _) H l Hl).
Qed.

Lemma all_in_and ph1 ph2 ph s :
  all_in ph1 s -> all_in ph2 s ->
  (forall l, ph1 l = true -> ph2 l = true -> ph l = true) -> all_in ph s.
Proof.
  unfold all_in. intros H1 H2 Hd. induction (pcs s) as [|l ls IH].
  - constructor.
  - apply Forall_cons in H1 as [? ?]. apply Forall_cons in H2 as [? ?].
    constructor; auto.
Qed.

(** A worker inside the critical section can always move. *)
Lemma holder_can_step s k l :
  pcs s !! k = Some l -> holds_lock l = true -> exists s', step s s'.
Proof.
  intros Hl Hh.
  assert (Hsome : is_Some (worker_step k false None s)).
  { unfold worker_step. rewrite Hl. cbn [mbind option_bind].
    destruct l; try discriminate Hh; try destruct (shutdown s); eauto. }
  destruct Hsome as [s' Hs']. exists s'. exact (step_worker s s' k false None Hs').
Qed.

Lemma barrier_can_step s :
  pcs s <> [] ->
  forallb at_wait1 (pcs s) || forallb at_wait2 (pcs s)
  || forallb at_wait3 (pcs s) = true ->
  exists s', step s s'.
Proof.
  intros Hne Hb.
  assert (Hsome : is_Some (barrier_step s)).
  { unfold barrier_step. destruct (pcs s) as [|l ls] eqn:Hp; [congruence|].
    rewrite <- Hp in *.
    destruct (forallb at_wait1 (pcs s)); [eauto|].
    destruct (forallb at_wait2 (pcs s)); [eauto|].
    destruct (forallb at_wait3 (pcs s)); [eauto | discriminate Hb]. }
  destruct Hsome as [s' Hs']. exists s'. exact (step_barrier s s' Hs').
Qed.

(** No deadlock: either some step is possible or every worker has
    returned. *)
Lemma progress s :
  inv s -> pcs s <> [] ->
  (exists s', step s s') \/
  all_in (fun l => match l with Exit => true | _ => false end) s.
Proof.
  intros (Hph & Hm & _) Hne.
  destruct (forallb blocked (pcs s)) eqn:Hb.
  - apply forallb_all_in in Hb.
    destruct Hph as [[Hph _]|[[Hph _]|[Hph|[Hph _]]]].
    + left. apply (barrier_can_step s Hne).
      rewrite (all_in_forallb at_wait1); [reflexivity|].
      apply (all_in_and blocked phaseA); try assumption.
      intros []; cbn; congruence.
    + left. apply (barrier_can_step s Hne).
      rewrite (all_in_forallb at_wait2);
        [rewrite orb_true_r; reflexivity|].
      apply (all_in_and blocked phaseB); try assumption.
      intros []; cbn; congruence.
    + left. apply (barrier_can_step s Hne).
      rewrite (all_in_forallb at_wait3); [apply orb_true_r|].
      apply (all_in_and blocked phaseC); try assumption.
      intros []; cbn; congruence.
    + right. apply (all_in_and blocked phaseD); try assumption.
      intros []; cbn; congruence.
  - left. apply forallb_false_lookup in Hb as (i & l & Hl & Hnb).
    destruct (holds_lock l) eqn:Hh; [exact (holder_can_step s i l Hl Hh)|].
    assert (Hfree : (exists v, l = Lock v) \/
                    is_Some (worker_step i false None s)).
    { unfold worker_step. rewrite Hl. cbn [mbind option_bind].
      destruct l as [| | | | [|?] | ? | ? | ? | ? | | | | |];
        try discriminate Hnb; try discriminate Hh;
        try destruct (shutdown s); eauto. }
    destruct Hfree as [[v ->]|[s' Hs']];
      [|exists s'; exact (step_worker s s' i false None Hs')].
    (* waiting for the mutex *)
    destruct (x_lock s) as [k|] eqn:Hk.
    + destruct Hm as [_ Hm2]. destruct (Hm2 k Hk) as (lk & Hlk & Hhk).
      exact (holder_can_step s k lk Hlk Hhk).
    + eexists. apply (step_worker s _ i false None).
      unfold worker_step. rewrite Hl. cbn [mbind option_bind].
      rewrite Hk. reflexivity.
Qed.

Lemma reachable_length n s : reachable n s -> length (pcs s) = n.
Proof.
  induction 1 as [|s s' _ IH Hstep].
  - apply length_replicate.
  - rewrite <- IH. clear IH.
    destruct Hstep as [i obs probe Hstep|Hstep].
    + worker_cases Hstep l Hl; cbn [set_pc pcs];
        rewrite length_insert; reflexivity.
    + destruct (barrier_step_cases s s' Hstep)
        as (_ & [[_ ->]|[[_ ->]|[_ ->]]]);
        unfold release; cbn [pcs]; rewrite length_fmap; reflexivity.
Qed.

(** *** Schedules *)

(** A schedule lists which worker moves, with what it reads, or that the
    barrier opens. *)
Inductive action : Type :=
  | Move (i : nat) (obs : bool) (probe : option value)
  | Open.

Fixpoint run (sched : list action) (s : state) : option state :=
  match sched with
  | [] => Some s
  | Move i obs probe :: sched' =>
      match worker_step i obs probe s with
      | Some s' => run sched' s'
      | None => None
      end
  | Open :: sched' =>
      match barrier_step s with
      | Some s' => run sched' s'
      | None => None
      end
  end.

Lemma run_reachable n sched : forall s s',
  reachable n s -> run sched s = Some s' -> reachable n s'.
Proof.
  induction sched as [|[i obs probe|] sched IH]; intros s s' Hr Hrun.
  - injection Hrun as <-. exact Hr.
  - cbn [run] in Hrun.
    destruct (worker_step i obs probe s) as [s1|] eqn:Hs; [|discriminate].
    apply (IH s1 s'); [|exact Hrun].
    exact (reachable_step n s s1 Hr (step_worker s s1 i obs probe Hs)).
  - cbn [run] in Hrun.
    destruct (barrier_step s) as [s1|] eqn:Hs; [|discriminate].
    apply (IH s1 s'); [|exact Hrun].
    exact (reachable_step n s s1 Hr (step_barrier s s1 Hs)).
Qed.

(** C9: in every state the workers can reach, (1) the flag, once true, stays
    true in every later state; (2) [data.x] has been written at most once,
    so by at most one worker; (3) a worker that has returned has seen the
    flag set, and then every worker is at the check after the last barrier
    or has returned; (4) once the flag is set every step brings the workers
    closer to [return], and (5) unless all workers have returned some step
    is possible: the other workers terminate, and they do so without
    writing [data.x]. *)
Theorem shutdown_protocol (worker_n : nat) (s : state) :
  reachable worker_n s ->
  (forall s', steps s s' -> shutdown s = true -> shutdown s' = true) /\
  (forall s', steps s s' ->
     length (x_writes s') <= 1 /\ x_writes s `prefix_of` x_writes s') /\
  (forall i v j w, (i, v) ∈ x_writes s -> (j, w) ∈ x_writes s ->
                   i = j /\ v = w) /\
  (forall i, pcs s !! i = Some Exit ->
     shutdown s = true /\
     forall j l, pcs s !! j = Some l -> l = Check \/ l = Exit) /\
  (shutdown s = true -> forall s', step s s' -> measure s' < measure s) /\
  ((exists s', step s s') \/ worker_n = 0 \/
   forall j l, pcs s !! j = Some l -> l = Exit).
Proof.
  intros Hr. pose proof (reachable_inv worker_n s Hr) as Hinv.
  destruct Hinv as (Hph & Hm & (Hw1 & Hw2 & Hw3)).
  split; [exact (shutdown_steps_monotone s)|]. split.
  { intros s' Hs. split; [|exact (x_writes_steps_prefix s s' Hs)].
    pose proof (reachable_inv worker_n s'
                  (steps_reachable worker_n s s' Hr Hs)) as (_ & _ & _ & _ & H).
    exact H. }
  split.
  { intros i v j w Hi Hj. destruct (x_writes s) as [|e [|e' ws]].
    - apply elem_of_nil in Hi. contradiction.
    - apply list_elem_of_singleton in Hi, Hj. split; congruence.
    - cbn in Hw3. lia. }
  split.
  { intros i Hi.
    destruct Hph as [[Hph Hf]|[[Hph Hf]|[Hph|[Hph Hf]]]]; try phase_absurd.
    split; [exact Hf|]. intros j l Hl.
    pose proof (all_in_lookup _ s j l Hph Hl) as Hd.
    destruct l; try discriminate Hd; auto. }
  split.
  { intros Hfl s' Hstep. exact (measure_step s s' Hph Hfl Hstep). }
  destruct worker_n as [|n]; [right; left; reflexivity|].
  assert (Hne : pcs s <> []).
  { pose proof (reachable_length _ s Hr) as Hlen.
    destruct (pcs s); [discriminate Hlen | discriminate]. }
  destruct (progress s (conj Hph (conj Hm (conj Hw1 (conj Hw2 Hw3)))) Hne)
    as [Hstep|Hall].
  - left. exact Hstep.
  - right; right. intros j l Hl.
    pose proof (all_in_lookup _ s j l Hall Hl) as Hd.
    destruct l; try discriminate Hd. reflexivity.
Qed.

(** *** The mutex, the barriers and the result *)

(** The flag is set only after [data.x] has been written. *)
Definition result_inv (s : state) : Prop :=
  (forall i, pcs s !! i = Some SetShutdown -> x_writes s <> []) /\
  (shutdown s = true -> x_writes s <> []).

Lemma result_inv_set_pc s i l' lock :
  result_inv s -> is_SetShutdown l' = false ->
  result_inv {| pcs := <[i := l']> (pcs s); shutdown := shutdown s;
                x_lock := lock; x_writes := x_writes s |}.
Proof.
  intros [H1 H2] Hl'. split; cbn [pcs shutdown x_writes]; [|exact H2].
  intros k Hk. destruct (decide (k = i)) as [->|Hne].
  - destruct (decide (i < length (pcs s))) as [Hlt|Hge].
    + rewrite list_lookup_insert_eq in Hk by exact Hlt.
      injection Hk as ->. discriminate Hl'.
    + rewrite list_insert_ge in Hk by lia. exact (H1 i Hk).
  - rewrite list_lookup_insert_ne in Hk by congruence. exact (H1 k Hk).
Qed.

Lemma snoc_not_nil {T : Type} (l : list T) (e : T) : l ++ [e] <> [].
Proof. destruct l; discriminate. Qed.

Lemma result_inv_worker_step i obs probe s s' :
  result_inv s -> worker_step i obs probe s = Some s' -> result_inv s'.
Proof.
  intros Hr Hstep. pose proof Hr as [H1 H2].
  worker_cases Hstep l Hl;
    first [ apply (result_inv_set_pc s i _ _ Hr); reflexivity
          | split; cbn [pcs shutdown x_writes];
            [intros k _ | intros _];
            first [ apply snoc_not_nil | exact (H1 i Hl) ] ].
Qed.

Lemma result_inv_barrier_step s s' :
  result_inv s -> barrier_step s = Some s' -> result_inv s'.
Proof.
  intros [H1 H2] Hstep.
  destruct (barrier_step_cases s s' Hstep)
    as (_ & [[_ ->]|[[_ ->]|[_ ->]]]);
    (split; [|exact H2]); intros k Hk;
    apply release_lookup in Hk; discriminate Hk.
Qed.

Lemma reachable_result_inv n s : reachable n s -> result_inv s.
Proof.
  induction 1 as [|s s' _ IH Hstep].
  - split.
    + intros i Hi. unfold init in Hi. cbn [pcs] in Hi.
      apply lookup_replicate in Hi as [Hi _]. discriminate Hi.
    + discriminate.
  - destruct Hstep as [i obs probe Hstep|Hstep].
    + exact (result_inv_worker_step i obs probe s s' IH Hstep).
    + exact (result_inv_barrier_step s s' IH Hstep).
Qed.

(** X27: [x_lock] gives mutual exclusion: in every state the workers can reach,
    at most one worker is between [pthread_mutex_lock(&data.x_lock)] and
    the unlock; a worker that is about to write [data.x] or
    [data.shutdown] is the holder of the mutex; and when the mutex is free
    no worker is inside. *)
Theorem x_lock_mutual_exclusion (worker_n : nat) (s : state) :
  reachable worker_n s ->
  (forall i k li lk, pcs s !! i = Some li -> pcs s !! k = Some lk ->
     holds_lock li = true -> holds_lock lk = true -> i = k) /\
  (forall i l, pcs s !! i = Some l ->
     is_WriteX l = true \/ l = SetShutdown -> x_lock s = Some i) /\
  (x_lock s = None ->
   forall i l, pcs s !! i = Some l -> holds_lock l = false).
Proof.
  intros Hr. destruct (reachable_inv worker_n s Hr) as (_ & [Hm1 Hm2] & _).
  split; [|split].
  - intros i k li lk Hi Hk Hhi Hhk.
    pose proof (Hm1 i li Hi Hhi). pose proof (Hm1 k lk Hk Hhk). congruence.
  - intros i l Hl Hw. apply (Hm1 i l Hl).
    destruct Hw as [Hw| ->]; [|reflexivity].
    destruct l; try discriminate Hw. reflexivity.
  - intros Hfree i l Hl. destruct (holds_lock l) eqn:Hh; [|reflexivity].
    pose proof (Hm1 i l Hl Hh). congruence.
Qed.

(** X28: The barriers separate the phases of a round.  In every state the
    workers can reach: while some worker is at the top of the loop (where
    worker 0 rebuilds the jump table) the flag is not set and every worker
    is there, at the first barrier or at the check that sent it back, so
    none reads the table; while some worker sets its trap every worker sets
    traps or waits at the second barrier, so none searches [data.traps];
    and while some worker searches every worker is in the search phase, so
    the table and [data.traps], which [find] reads without a lock, are not
    written. *)
Theorem barriers_separate_phases (worker_n : nat) (s : state) :
  reachable worker_n s ->
  (forall i, pcs s !! i = Some Top ->
     shutdown s = false /\
     forall k l, pcs s !! k = Some l -> l = Top \/ l = Wait1 \/ l = Check) /\
  (forall i, pcs s !! i = Some Trap ->
     shutdown s = false /\
     forall k l, pcs s !! k = Some l -> l = Trap \/ l = Wait2) /\
  (forall i j, pcs s !! i = Some (Search j) \/ pcs s !! i = Some (Probe j) ->
     forall k l, pcs s !! k = Some l -> phaseC l = true).
Proof.
  intros Hr. destruct (reachable_inv worker_n s Hr) as (Hph & _ & _).
  split; [|split].
  - intros i Hi.
    destruct Hph as [[Hph Hf]|[[Hph Hf]|[Hph|[Hph Hf]]]]; try phase_absurd.
    split; [exact Hf|]. intros k l Hl.
    pose proof (all_in_lookup _ s k l Hph Hl) as Hd.
    destruct l; try discriminate Hd; auto.
  - intros i Hi.
    destruct Hph as [[Hph Hf]|[[Hph Hf]|[Hph|[Hph Hf]]]]; try phase_absurd.
    split; [exact Hf|]. intros k l Hl.
    pose proof (all_in_lookup _ s k l Hph Hl) as Hd.
    destruct l; try discriminate Hd; auto.
  - intros i j [Hi|Hi];
      destruct Hph as [[Hph Hf]|[[Hph Hf]|[Hph|[Hph Hf]]]];
      try phase_absurd;
      intros k l Hl; exact (all_in_lookup _ s k l Hph Hl).
Qed.

(** X29: The result is there when the solver ends: in every state the workers
    can reach, once [data.shutdown] is true [data.x] has been written
    exactly once, and so it has as soon as one worker has returned. *)
Theorem result_written_before_exit (worker_n : nat) (s : state) :
  reachable worker_n s ->
  (shutdown s = true -> exists w v, x_writes s = [(w, v)]) /\
  (forall i, pcs s !! i = Some Exit -> exists w v, x_writes s = [(w, v)]).
Proof.
  intros Hr.
  destruct (reachable_inv worker_n s Hr) as (Hph & _ & (_ & _ & Hlen)).
  destruct (reachable_result_inv worker_n s Hr) as [_ Hres].
  assert (Hone : shutdown s = true -> exists w v, x_writes s = [(w, v)]).
  { intros Hfl. specialize (Hres Hfl).
    destruct (x_writes s) as [|[w v] [|e ws]]; [congruence | eauto |].
    cbn in Hlen. lia. }
  split; [exact Hone|].
  intros i Hi. apply Hone.
  destruct Hph as [[Hph Hf]|[[Hph Hf]|[Hph|[Hph Hf]]]]; try phase_absurd.
  exact Hf.
Qed.

(** *** Where the written value comes from *)

Section Probes.

(** A property of the values that [data.traps.find] hands to the workers
    ([it->second - x] at a hit). *)
Variable Q : value -> Prop.

Definition carries (l : loc) : Prop :=
  match l with
  | Lock v | Locked v | WriteX v => Q v
  | _ => True
  end.

Definition values_inv (s : state) : Prop :=
  Forall carries (pcs s) /\ Forall (fun e => Q e.2) (x_writes s).

Definition probe_ok (a : action) : Prop :=
  match a with
  | Move _ _ (Some v) => Q v
  | _ => True
  end.

Lemma values_inv_insert s i l' fl lock :
  values_inv s -> carries l' ->
  values_inv {| pcs := <[i := l']> (pcs s); shutdown := fl;
                x_lock := lock; x_writes := x_writes s |}.
Proof.
  intros [H1 H2] Hl'. split; cbn [pcs x_writes]; [|exact H2].
  apply Forall_insert; assumption.
Qed.

Lemma values_inv_worker_step i obs probe s s' :
  values_inv s -> (forall v, probe = Some v -> Q v) ->
  worker_step i obs probe s = Some s' -> values_inv s'.
Proof.
  intros Hinv Hprobe Hstep. pose proof Hinv as [H1 H2].
  worker_cases Hstep l Hl;
    pose proof (proj1 (Forall_lookup _ _) H1 i _ Hl) as Hc; cbn in Hc;
    first [ apply (values_inv_insert s i _ _ _ Hinv); cbn;
            first [ exact I | exact Hc | apply Hprobe; reflexivity ]
          | split; cbn [pcs x_writes];
            [ apply Forall_insert; [exact H1 | exact I]
            | apply Forall_app; split; [exact H2|];
              apply Forall_cons; split; [exact Hc | constructor] ] ].
Qed.

Lemma values_inv_barrier_step s s' :
  values_inv s -> barrier_step s = Some s' -> values_inv s'.
Proof.
  intros [H1 H2] Hstep.
  destruct (barrier_step_cases s s' Hstep)
    as (_ & [[_ ->]|[[_ ->]|[_ ->]]]);
    (split; [|exact H2]); unfold release; cbn [pcs];
    apply Forall_fmap, Forall_true; intros x; exact I.
Qed.

Lemma values_inv_run sched : forall s s',
  Forall probe_ok sched -> values_inv s -> run sched s = Some s' ->
  values_inv s'.
Proof.
  induction sched as [|[i obs probe|] sched IH]; intros s s' Hok Hinv Hrun.
  - injection Hrun as <-. exact Hinv.
  - cbn [run] in Hrun. apply Forall_cons in Hok as [Ha Hok].
    destruct (worker_step i obs probe s) as [s1|] eqn:Hs; [|discriminate].
    apply (IH s1 s' Hok); [|exact Hrun].
    apply (values_inv_worker_step i obs probe s s1 Hinv); [|exact Hs].
    intros v ->. exact Ha.
  - cbn [run] in Hrun. apply Forall_cons in Hok as [_ Hok].
    destruct (barrier_step s) as [s1|] eqn:Hs; [|discriminate].
    apply (IH s1 s' Hok); [|exact Hrun].
    exact (values_inv_barrier_step s s1 Hinv Hs).
Qed.

(** X30: The value written to [data.x] is one that a search found: along every
    schedule of the workers, if each hit of [data.traps.find] hands over a
    value with the property [Q] (for the search loop of [worker]: a
    logarithm of [h]), then every value written to [data.x] has it, and so
    has every value a worker carries to the mutex. *)
Theorem written_values_come_from_probes (worker_n : nat)
    (sched : list action) (s : state) :
  Forall probe_ok sched -> run sched (init worker_n) = Some s ->
  (forall w v, (w, v) ∈ x_writes s -> Q v) /\
  (forall i v, pcs s !! i = Some (WriteX v) -> Q v).
Proof.
  intros Hok Hrun.
  assert (Hinit : values_inv (init worker_n)).
  { split; cbn [init pcs x_writes]; [|constructor].
    apply Forall_replicate. exact I. }
  destruct (values_inv_run sched _ s Hok Hinit Hrun) as [H1 H2].
  split.
  - intros w v Hin.
    exact (proj1 (Forall_forall _ _) H2 (w, v) Hin).
  - intros i v Hl. exact (proj1 (Forall_lookup _ _) H1 i _ Hl).
Qed.

End Probes.

End Protocol.
End Worker.

(** ** Two workers racing to report a collision *)

Module TwoWorkers.

(** Both workers find a trap in their first search step; worker 1 reads
    [data.shutdown] before it is set, takes the mutex after worker 0 has
    left it, sees the flag under the mutex and does not write. *)
Definition schedule : list (@Worker.action Z) :=
  [ Worker.Move 0 false None; Worker.Move 1 false None; Worker.Open;
    Worker.Move 0 false None; Worker.Move 1 false None; Worker.Open;
    Worker.Move 0 false None; Worker.Move 0 false (Some 37%Z);
    Worker.Move 1 false None; Worker.Move 1 false (Some 41%Z);
    Worker.Move 0 false None; Worker.Move 0 false None;
    Worker.Move 0 false None; Worker.Move 0 false None;
    Worker.Move 0 false None;
    Worker.Move 1 false None; Worker.Move 1 false None;
    Worker.Move 1 false None;
    Worker.Open;
    Worker.Move 0 false None; Worker.Move 1 false None ].

Definition final : @Worker.state Z :=
  {| Worker.pcs := [Worker.Exit; Worker.Exit];
     Worker.shutdown := true;
     Worker.x_lock := None;
     Worker.x_writes := [(0, 37%Z)] |}.

Example schedule_runs : Worker.run 3 schedule (Worker.init 2) = Some final.
Proof. vm_compute. reflexivity. Qed.

Lemma final_reachable : Worker.reachable 3 2 final.
Proof.
  exact (Worker.run_reachable 3 2 schedule _ _
           (Worker.reachable_init 3 2) schedule_runs).
Qed.

(** [shutdown_protocol] at the end of that run. *)
Lemma shutdown_protocol_witness :
  Worker.reachable 3 2 final /\
  length (Worker.x_writes final) <= 1 /\
  Worker.shutdown final = true /\
  forall j l, Worker.pcs final !! j = Some l ->
              l = Worker.Check \/ l = Worker.Exit.
Proof.
  split; [exact final_reachable|].
  destruct (Worker.shutdown_protocol 3 2 final final_reachable)
    as (_ & Hwrites & _ & Hexit & _).
  split; [exact (proj1 (Hwrites final (Worker.steps_refl 3 final)))|].
  exact (Hexit 0 eq_refl).
Defined.

End TwoWorkers.

(** ** States on the way of that race *)

Module TwoWorkersStates.

(** Worker 0 has set its trap and waits, worker 1 is still setting its
    trap. *)
Definition trapping : @Worker.state Z :=
  {| Worker.pcs := [Worker.Wait2; Worker.Trap];
     Worker.shutdown := false;
     Worker.x_lock := None;
     Worker.x_writes := [] |}.

(** Worker 0 is inside the critical section, about to write its result;
    worker 1 waits for the mutex. *)
Definition writing : @Worker.state Z :=
  {| Worker.pcs := [Worker.WriteX 37%Z; Worker.Lock 41%Z];
     Worker.shutdown := false;
     Worker.x_lock := Some 0;
     Worker.x_writes := [] |}.

Lemma trapping_reachable : Worker.reachable 3 2 trapping.
Proof.
  apply (Worker.run_reachable 3 2 (take 4 TwoWorkers.schedule)
           (Worker.init 2) trapping (Worker.reachable_init 3 2)).
  vm_compute. reflexivity.
Qed.

Lemma writing_reachable : Worker.reachable 3 2 writing.
Proof.
  apply (Worker.run_reachable 3 2 (take 12 TwoWorkers.schedule)
           (Worker.init 2) writing (Worker.reachable_init 3 2)).
  vm_compute. reflexivity.
Qed.

(** [x_lock_mutual_exclusion] while worker 0 writes. *)
Lemma x_lock_mutual_exclusion_witness :
  Worker.reachable 3 2 writing /\
  Worker.x_lock writing = Some 0 /\
  forall k lk, Worker.pcs writing !! k = Some lk ->
               Worker.holds_lock lk = true -> 0 = k.
Proof.
  split; [exact writing_reachable|].
  destruct (Worker.x_lock_mutual_exclusion 3 2 writing writing_reachable)
    as (Hone & Hholder & _).
  split.
  - exact (Hholder 0 (Worker.WriteX 37%Z) eq_refl (or_introl eq_refl)).
  - intros k lk Hk Hh.
    exact (Hone 0 k (Worker.WriteX 37%Z) lk eq_refl Hk eq_refl Hh).
Defined.

(** [barriers_separate_phases] while worker 1 sets its trap. *)
Lemma barriers_separate_phases_witness :
  Worker.reachable 3 2 trapping /\
  Worker.shutdown trapping = false /\
  forall k l, Worker.pcs trapping !! k = Some l ->
              l = Worker.Trap \/ l = Worker.Wait2.
Proof.
  split; [exact trapping_reachable|].
  destruct (Worker.barriers_separate_phases 3 2 trapping trapping_reachable)
    as (_ & Htrap & _).
  exact (Htrap 1 eq_refl).
Defined.

(** [result_written_before_exit] at the end of the race. *)
Lemma result_written_before_exit_witness :
  Worker.reachable 3 2 TwoWorkers.final /\
  Worker.pcs TwoWorkers.final !! 1 = Some Worker.Exit /\
  exists w v, Worker.x_writes TwoWorkers.final = [(w, v)].
Proof.
  split; [exact TwoWorkers.final_reachable|]. split; [reflexivity|].
  destruct (Worker.result_written_before_exit 3 2 TwoWorkers.final
              TwoWorkers.final_reachable) as (_ & Hexit).
  exact (Hexit 1 eq_refl).
Defined.

(** [written_values_come_from_probes] along the race: the searches handed
    over 37 and 41. *)
Lemma written_values_come_from_probes_witness :
  Worker.run 3 TwoWorkers.schedule (Worker.init 2) = Some TwoWorkers.final /\
  forall w v, (w, v) ∈ Worker.x_writes TwoWorkers.final ->
              v = 37%Z \/ v = 41%Z.
Proof.
  split; [exact TwoWorkers.schedule_runs|].
  assert (Hok : Forall (Worker.probe_ok (fun v => v = 37%Z \/ v = 41%Z))
                  TwoWorkers.schedule).
  { unfold TwoWorkers.schedule.
    repeat (apply Forall_cons; split; [cbn; auto|]). constructor. }
  exact (proj1 (Worker.written_values_come_from_probes 3
                  (fun v => v = 37%Z \/ v = 41%Z) 2 TwoWorkers.schedule
                  TwoWorkers.final Hok TwoWorkers.schedule_runs)).
Defined.

End TwoWorkersStates.
